(** * FuzzyCache: a model of [src/fuzzy-cache] and its checked properties

    The development follows the TypeScript sources:
    - [types.ts]      : fuzzy field specifications, cache entries, hit metadata,
                        the configuration and [DEFAULT_TTL_MILLIS];
    - [match.ts]      : [normalizeUrl], [cosineSimilarity], [scoreEntry],
                        [matchBestEntry];
    - [embeddings.ts] : the memoising [embed] of [makeEmbeddingsService];
    - [store.ts]      : [getAll] and [put] of [makeFuzzyCacheStoreService];
    - [service.ts]    : [withCaching] and [withCachingMeta];
    - [examples.ts]   : [predictUserInterestsCacheConfig].

    JavaScript numbers are binary64 floats (Rocq's primitive floats, no NaN
    payload).  Epoch-millisecond timestamps and TTLs are integral and are
    modelled in [Z]: for magnitudes up to [2^53] the subtraction and the
    comparison of binary64 on them are exact ([leb_sub_integers]); beyond,
    binary64 rounds and the model does not apply.  Effect programs are
    state-passing functions that return an [Exit]; a failure is either an
    expected one ([Fail]) or a defect ([Die]), as in the Effect runtime. *)

From Stdlib Require Import ZArith List String Ascii Bool Floats Lia.
From stdpp Require Import gmap strings list.
Import ListNotations.

Local Open Scope string_scope.
Local Open Scope Z_scope.

(* ====================================================================== *)
(** ** JavaScript values and parameter objects *)
(* ====================================================================== *)

(** The runtime values a parameter field may hold.  Plain objects and arrays
    are known by their reference only; [VDate ref time] is the [Date] object
    at [ref], with its time value in milliseconds (a valid one: the model
    has no invalid [Date]); [VInherited name] is the member [name] of
    [Object.prototype].  Other objects that [Equal.equals] may compare by
    content (those that implement the [Equal] trait of the [effect] package,
    [URL] objects) are not modelled. *)
Inductive value : Type :=
| VUndefined
| VNull
| VBool (b : bool)
| VNum (x : float)
| VStr (s : string)
| VObj (ref : positive)
| VDate (ref : positive) (time : Z)
| VInherited (name : string).

(** A parameter object: its own enumerable string-keyed properties, in the
    order in which [Object.keys] lists them. *)
Abbreviation Params := (list (string * value)).

(** [Object.keys(o)] *)
Definition objectKeys (o : Params) : list string := map fst o.

(** The string-named members of [Object.prototype].  A plain object (an
    object literal, as the parameter objects and [fuzzyParams] are) inherits
    them: reading one of these names finds the member unless the object has
    a property of its own by that name.  All of them are functions, except
    [__proto__], which reads as the prototype itself; none has a [type]. *)
Definition objectPrototypeKeys : list string :=
  ["constructor"; "__defineGetter__"; "__defineSetter__"; "hasOwnProperty";
   "__lookupGetter__"; "__lookupSetter__"; "isPrototypeOf";
   "propertyIsEnumerable"; "toString"; "valueOf"; "__proto__";
   "toLocaleString"].

Definition inheritedKey (key : string) : bool :=
  existsb (String.eqb key) objectPrototypeKeys.

(** [o[key]]: the property of [o] itself, else the member inherited from
    [Object.prototype], else [undefined]. *)
Fixpoint getField (o : Params) (key : string) : value :=
  match o with
  | [] => if inheritedKey key then VInherited key else VUndefined
  | (k, v) :: o' => if String.eqb k key then v else getField o' key
  end.

(** [a === b] *)
Definition strictEquals (a b : value) : bool :=
  match a, b with
  | VUndefined, VUndefined => true
  | VNull, VNull => true
  | VBool x, VBool y => Bool.eqb x y
  | VNum x, VNum y => (x =? y)%float
  | VStr x, VStr y => String.eqb x y
  | VObj x, VObj y => Pos.eqb x y
  | VDate x _, VDate y _ => Pos.eqb x y
  | VInherited x, VInherited y => String.eqb x y
  | _, _ => false
  end.

(** [Equal.equals(a, b)] of the [effect] package on the values above: it
    answers [true] when [a === b]; two [Date]s are equal when their time
    values are; other values that do not implement the [Equal] trait
    (primitives, plain objects, arrays) are equal in no other case. *)
Definition Equal_equals (a b : value) : bool :=
  strictEquals a b ||
  match a, b with
  | VDate _ t1, VDate _ t2 => t1 =? t2
  | _, _ => false
  end.

(** [a > b] on numbers is [b < a]. *)
Definition gtb (a b : float) : bool := (b <? a)%float.

(* ====================================================================== *)
(** ** The host platform *)
(* ====================================================================== *)

(** A parsed [URL] object: the serialisation of everything before the
    fragment, and the fragment ([None] when the URL has none). *)
Record URL : Type := mkURL {
  url_base : string;
  url_fragment : option string
}.

(** [url.hash = ""] removes the fragment. *)
Definition URL_clearHash (u : URL) : URL :=
  {| url_base := url_base u; url_fragment := None |}.

(** [url.toString()] *)
Definition URL_toString (u : URL) : string :=
  url_base u ++
  match url_fragment u with
  | Some f => "#" ++ f
  | None => ""
  end.

(** What the sources take from the JavaScript host:
    - [parseURL s] is [new URL(s)], [None] when the constructor throws;
    - [toStringOther v] is [String(v)] for a [v] that is not a string;
    - [lessThanOther a b] is [a < b] when [a] and [b] are not both numbers.
    The last two are only reached with parameters outside the types that
    [FuzzyFieldSpecFor] admits. *)
Class Platform : Type := {
  parseURL : string -> option URL;
  toStringOther : value -> string;
  lessThanOther : value -> value -> bool
}.

(** [String(v)] *)
Definition String_ `{Platform} (v : value) : string :=
  match v with
  | VStr s => s
  | _ => toStringOther v
  end.

(** [a < b] *)
Definition lessThan `{Platform} (a b : value) : bool :=
  match a, b with
  | VNum x, VNum y => (x <? y)%float
  | _, _ => lessThanOther a b
  end.

(* ====================================================================== *)
(** ** types.ts *)
(* ====================================================================== *)

(** [excludeHash?: boolean] *)
Record ExactURLSpec : Type := { excludeHash : option bool }.

Inductive FuzzyFieldSpec : Type :=
| ExactURL (spec : ExactURLSpec)
| MoreIsBetter
| CosineSimilarity (threshold : float) (model : string).

(** [FuzzyParamsSpec]: an optional rule per field name, the properties of
    the object itself. *)
Abbreviation FuzzyParamsSpec := (gmap string FuzzyFieldSpec).

(** [Cause] and [Exit] of the Effect runtime: an expected failure carries a
    value of the error type, a defect carries its message. *)
Inductive Cause (E : Type) : Type :=
| Fail (e : E)
| Die (defect : string).
Arguments Fail {E} e.
Arguments Die {E} defect.

Inductive Exit (E A : Type) : Type :=
| Success (a : A)
| Failure (c : Cause E).
Arguments Success {E A} a.
Arguments Failure {E A} c.

Record CacheEntry (E A : Type) : Type := mkEntry {
  entry_params : Params;
  outcome : Exit E A;
  createdAt : Z
}.
Arguments mkEntry {E A}.
Arguments entry_params {E A}.
Arguments outcome {E A}.
Arguments createdAt {E A}.

Inductive CacheHitKind : Type := miss | exact_hit | fuzzy_hit.

Record CacheHitMeta : Type := mkHitMeta {
  kind : CacheHitKind;
  hit_score : float
}.

Definition DEFAULT_TTL_MILLIS : Z := 24 * 60 * 60 * 1000.

Record WithCachingConfig : Type := mkConfig {
  cacheName : string;
  fuzzyParams : option FuzzyParamsSpec;
  ttlMillis : option Z
}.

(* ====================================================================== *)
(** ** Effect programs *)
(* ====================================================================== *)

(** An [Effect.Effect<A, E>] run against the state [W] of the services it
    uses. *)
Definition Effect (W E A : Type) : Type := W -> Exit E A * W.

Definition succeed {W E A} (a : A) : Effect W E A :=
  fun w => (Success a, w).

Definition failCause {W E A} (c : Cause E) : Effect W E A :=
  fun w => (Failure c, w).

Definition fail {W E A} (e : E) : Effect W E A := failCause (Fail e).

Definition dieMessage {W E A} (msg : string) : Effect W E A :=
  failCause (Die msg).

(** [yield*] / [Effect.flatMap] *)
Definition bind {W E A B} (m : Effect W E A) (k : A -> Effect W E B)
  : Effect W E B :=
  fun w =>
    match m w with
    | (Success a, w') => k a w'
    | (Failure c, w') => (Failure c, w')
    end.

Notation "'let*' x ':=' m 'in' k" := (bind m (fun x => k))
  (at level 10, x name, m at level 100, k at level 200,
   format "'[v' 'let*'  x  ':='  m  'in' '/' k ']'").

Definition mapEffect {W E A B} (f : A -> B) (m : Effect W E A)
  : Effect W E B :=
  let* a := m in succeed (f a).

(** [Effect.catchAll]: recovers from expected failures; a defect passes
    through. *)
Definition catchAll {W E E' A} (m : Effect W E A) (h : E -> Effect W E' A)
  : Effect W E' A :=
  fun w =>
    match m w with
    | (Success a, w') => (Success a, w')
    | (Failure (Fail e), w') => h e w'
    | (Failure (Die d), w') => (Failure (Die d), w')
    end.

(** [Effect.exit]: the outcome, failure or defect included, as a value. *)
Definition exit {W E E' A} (m : Effect W E A) : Effect W E' (Exit E A) :=
  fun w => let '(r, w') := m w in (Success r, w').

(** [Effect.all([m1, m2])]: in sequence, stopping at the first failure. *)
Definition all2 {W E A B} (m1 : Effect W E A) (m2 : Effect W E B)
  : Effect W E (A * B) :=
  let* a := m1 in let* b := m2 in succeed (a, b).

(** An effect that cannot fail in the expected way, used where some error
    type is allowed. *)
Definition widen {W E A} (m : Effect W Empty_set A) : Effect W E A :=
  fun w =>
    match m w with
    | (Success a, w') => (Success a, w')
    | (Failure (Fail e), w') => match e with end
    | (Failure (Die d), w') => (Failure (Die d), w')
    end.

(* ====================================================================== *)
(** ** match.ts *)
(* ====================================================================== *)

Definition truthy (b : option bool) : bool :=
  match b with
  | Some true => true
  | _ => false
  end.

(** [normalizeUrl(raw, spec)].  [raw] is typed [string] in the source; the
    call sites cast ([req as string]) without converting, so the runtime
    value is kept: [new URL] converts it with [String], and the fallback
    returns it unchanged. *)
Definition normalizeUrl `{Platform} (raw : value) (spec : ExactURLSpec)
  : value :=
  match parseURL (String_ raw) with
  | Some url =>
      let url := if truthy (excludeHash spec) then URL_clearHash url else url in
      VStr (URL_toString url)
  | None => raw
  end.

(** One turn of the loop of [cosineSimilarity]. *)
Definition cosineStep (acc : float * float * float) (p : float * float)
  : float * float * float :=
  let '(dot, magA, magB) := acc in
  let '(ai, bi) := p in
  ((dot + ai * bi)%float, (magA + ai * ai)%float, (magB + bi * bi)%float).

(** The loop over [i < Math.min(a.length, b.length)]: [combine] stops at the
    shorter vector. *)
Definition cosineSums (a b : list float) : float * float * float :=
  fold_left cosineStep (combine a b) (0%float, 0%float, 0%float).

Definition cosineSimilarity (a b : list float) : float :=
  let '(dot, magA, magB) := cosineSums a b in
  if (magA =? 0)%float || (magB =? 0)%float then 0%float
  else (dot / (sqrt magA * sqrt magB))%float.

Record ScoreResult : Type := mkScore {
  ok : bool;
  score : float;
  exact : bool
}.

(** [{ ok: false, score: 0, exact: false }] *)
Definition disqualified : ScoreResult :=
  {| ok := false; score := 0%float; exact := false |}.

(** [EmbedFn].  The source declares no error type for it; the tests pass
    providers that fail, so the model lets it fail with some type [EE]. *)
Definition EmbedFn (W EE : Type) : Type :=
  string -> string -> Effect W EE (list float).

(** [embed(text, model).pipe(Effect.catchAll(() => Effect.succeed(null)))] *)
Definition embedOrNull {W EE} (embed : EmbedFn W EE) (text model : string)
  : Effect W Empty_set (option (list float)) :=
  catchAll (mapEffect Some (embed text model)) (fun _ => succeed None).

(** The [for (const key of Object.keys(requested))] loop of [scoreEntry],
    from the keys still to visit and the current [score] and [exact].
    [fuzzy[key]] is the rule that [fuzzy] has of its own, else the member
    inherited from [Object.prototype], else [undefined]: an inherited member
    is truthy and has no [type], so none of the four branches applies and
    the loop goes on to the next key. *)
Fixpoint scoreFields `{Platform} {W EE} (requested cached : Params)
    (fuzzy : FuzzyParamsSpec) (embed : EmbedFn W EE)
    (keys : list string) (score : float) (exact : bool)
  : Effect W Empty_set ScoreResult :=
  match keys with
  | [] => succeed {| ok := true; score := score; exact := exact |}
  | key :: keys' =>
      let req := getField requested key in
      let prev := getField cached key in
      match fuzzy !! key with
      | None =>
          if inheritedKey key then
            scoreFields requested cached fuzzy embed keys' score exact
          else if negb (Equal_equals req prev) then succeed disqualified
          else scoreFields requested cached fuzzy embed keys'
                 (score + 1)%float exact
      | Some (ExactURL spec) =>
          let reqNorm := normalizeUrl req spec in
          let prevNorm := normalizeUrl prev spec in
          if negb (strictEquals reqNorm prevNorm) then succeed disqualified
          else scoreFields requested cached fuzzy embed keys'
                 (score + 1)%float exact
      | Some MoreIsBetter =>
          if lessThan prev req then succeed disqualified
          else
            let exact := if negb (strictEquals prev req) then false else exact in
            scoreFields requested cached fuzzy embed keys'
              (score + 1)%float exact
      | Some (CosineSimilarity threshold model) =>
          let reqText := String_ req in
          let prevText := String_ prev in
          let* embedResult := all2 (embedOrNull embed reqText model)
                                   (embedOrNull embed prevText model) in
          match embedResult with
          | (Some v0, Some v1) =>
              let sim := cosineSimilarity v0 v1 in
              if (sim <? threshold)%float then succeed disqualified
              else
                let exact := if (sim <? 1)%float then false else exact in
                scoreFields requested cached fuzzy embed keys'
                  (score + sim)%float exact
          | _ => succeed disqualified
          end
      end
  end.

Definition scoreEntry `{Platform} {W EE} (requested cached : Params)
    (fuzzy : FuzzyParamsSpec) (embed : EmbedFn W EE)
  : Effect W Empty_set ScoreResult :=
  scoreFields requested cached fuzzy embed (objectKeys requested)
    0%float true.

Record MatchArgs (W EE E A : Type) : Type := mkMatchArgs {
  now : Z;
  ttl : Z;
  params : Params;
  entries : list (CacheEntry E A);
  args_fuzzyParams : option FuzzyParamsSpec;
  args_embed : EmbedFn W EE
}.
Arguments mkMatchArgs {W EE E A}.
Arguments now {W EE E A}.
Arguments ttl {W EE E A}.
Arguments params {W EE E A}.
Arguments entries {W EE E A}.
Arguments args_fuzzyParams {W EE E A}.
Arguments args_embed {W EE E A}.

Record MatchResult (E A : Type) : Type := mkMatch {
  entry : CacheEntry E A;
  hitMeta : CacheHitMeta
}.
Arguments mkMatch {E A}.
Arguments entry {E A}.
Arguments hitMeta {E A}.

(** The running best of [matchBestEntry]. *)
Record Best (E A : Type) : Type := mkBest {
  best_entry : CacheEntry E A;
  best_score : float;
  best_exact : bool
}.
Arguments mkBest {E A}.
Arguments best_entry {E A}.
Arguments best_score {E A}.
Arguments best_exact {E A}.

(** The TTL filter: [now - entry.createdAt <= ttl], on integral times.  For
    times of magnitude at most [2^53] this is the test that binary64
    computes ([isFreshNumber] below, [isFreshNumber_isFresh]). *)
Definition isFresh {E A} (now ttl : Z) (e : CacheEntry E A) : bool :=
  now - createdAt e <=? ttl.

(** The binary64 number of an integer: times reach the code as JavaScript
    numbers. *)
Definition numberOfZ (z : Z) : float :=
  SF2Prim (binary_normalize prec emax z 0 false).

(** The TTL filter as binary64 computes it: the subtraction and the
    comparison of [now - entry.createdAt <= ttl] on numbers. *)
Definition isFreshNumber {E A} (now ttl : Z) (e : CacheEntry E A) : bool :=
  (numberOfZ now - numberOfZ (createdAt e) <=? numberOfZ ttl)%float.

(** An integer of magnitude at most [2^53]: binary64 has it exactly. *)
Definition safeInteger (z : Z) : bool := (- 2 ^ 53 <=? z) && (z <=? 2 ^ 53).

(** The times of a call to [matchBestEntry] are safe: [now], [ttl], and of
    every entry [createdAt] and the age [now - createdAt]. *)
Definition safeTimes {W EE E A} (args : MatchArgs W EE E A) : bool :=
  safeInteger (now args) && safeInteger (ttl args) &&
  forallb (fun e => safeInteger (createdAt e)
                    && safeInteger (now args - createdAt e))
          (entries args).

(** The binary64 number [f] is the integer [z]: a zero, or a mantissa of 53
    digits and an exponent with that value. *)
Definition representsInteger (f : spec_float) (z : Z) : Prop :=
  match f with
  | S754_zero _ => z = 0
  | S754_finite s m e =>
      2 ^ 52 <= Z.pos m < 2 ^ 53 /\ -52 <= e <= 1 /\
      z * 2 ^ 52 = cond_Zopp s (Z.pos m) * 2 ^ (e + 52)
  | _ => False
  end.

(** [best === null || scored.score > best.score] *)
Definition replacesBest {E A} (best : option (Best E A)) (scored : ScoreResult)
  : bool :=
  match best with
  | None => true
  | Some b => gtb (score scored) (best_score b)
  end.

(** The [for (const entry of freshEntries)] loop of [matchBestEntry]. *)
Fixpoint bestLoop `{Platform} {W EE E A} (params : Params)
    (fuzzy : FuzzyParamsSpec) (embed : EmbedFn W EE)
    (freshEntries : list (CacheEntry E A)) (best : option (Best E A))
  : Effect W Empty_set (option (Best E A)) :=
  match freshEntries with
  | [] => succeed best
  | e :: rest =>
      let* scored := scoreEntry params (entry_params e) fuzzy embed in
      if negb (ok scored) then bestLoop params fuzzy embed rest best
      else if replacesBest best scored then
        bestLoop params fuzzy embed rest
          (Some {| best_entry := e; best_score := score scored;
                   best_exact := exact scored |})
      else bestLoop params fuzzy embed rest best
  end.

(** The result built from the final best. *)
Definition toMatchResult {E A} (best : option (Best E A))
  : option (MatchResult E A) :=
  match best with
  | None => None
  | Some b =>
      Some {| entry := best_entry b;
              hitMeta := {| kind := if best_exact b then exact_hit
                                    else fuzzy_hit;
                            hit_score := best_score b |} |}
  end.

Definition matchBestEntry `{Platform} {W EE E A} (args : MatchArgs W EE E A)
  : Effect W Empty_set (option (MatchResult E A)) :=
  let freshEntries := List.filter (isFresh (now args) (ttl args))
                                  (entries args) in
  if (length freshEntries =? 0)%nat then succeed None
  else
    let* best := bestLoop (params args) (default ∅ (args_fuzzyParams args))
                   (args_embed args) freshEntries None in
    succeed (toMatchResult best).

(* ====================================================================== *)
(** ** The services' state *)
(* ====================================================================== *)

(** What a run does to the outside, in order: reads and appends of the entry
    store, invocations of the wrapped function and of the raw embedding
    provider. *)
Inductive Event : Type :=
| StoreGetAll (name : string)
| StorePut (name : string)
| FnCall (p : Params)
| RawEmbedCall (input model : string).

(** The state the services share: the clock, the [Ref] of the entry store,
    the [Ref] of the embedding cache, the state [U] of whatever the wrapped
    function and the raw provider act on, and the events so far. *)
Record World (U E A : Type) : Type := mkWorld {
  clock : Z;
  mapRef : gmap string (list (CacheEntry E A));
  cacheRef : gmap (string * string) (list float);
  outside : U;
  trace : list Event
}.
Arguments mkWorld {U E A}.
Arguments clock {U E A}.
Arguments mapRef {U E A}.
Arguments cacheRef {U E A}.
Arguments outside {U E A}.
Arguments trace {U E A}.

Definition isFnCall (ev : Event) : bool :=
  match ev with FnCall _ => true | _ => false end.

Definition isRawEmbedCall (ev : Event) : bool :=
  match ev with RawEmbedCall _ _ => true | _ => false end.

Definition isStoreEvent (ev : Event) : bool :=
  match ev with StoreGetAll _ | StorePut _ => true | _ => false end.

(** How often the wrapped function has been invoked. *)
Definition fnCalls {U E A} (w : World U E A) : nat :=
  length (List.filter isFnCall (trace w)).

(** How often the raw embedding provider has been invoked. *)
Definition rawEmbedCalls {U E A} (w : World U E A) : nat :=
  length (List.filter isRawEmbedCall (trace w)).

(** How often the entry store has been read or written. *)
Definition storeAccesses {U E A} (w : World U E A) : nat :=
  length (List.filter isStoreEvent (trace w)).

Definition logEvent {U E A} (ev : Event) (w : World U E A) : World U E A :=
  {| clock := clock w; mapRef := mapRef w; cacheRef := cacheRef w;
     outside := outside w; trace := (trace w ++ [ev])%list |}.

(** The test clock moved to [t] between two calls. *)
Definition setClock {U E A} (t : Z) (w : World U E A) : World U E A :=
  {| clock := t; mapRef := mapRef w; cacheRef := cacheRef w;
     outside := outside w; trace := trace w |}.

(** A function of the outside world run as an effect, the call recorded. *)
Definition callOutside {U E A E' B} (ev : Event)
    (f : U -> Exit E' B * U) : Effect (World U E A) E' B :=
  fun w =>
    let '(r, u') := f (outside w) in
    (r, {| clock := clock w; mapRef := mapRef w; cacheRef := cacheRef w;
           outside := u'; trace := (trace w ++ [ev])%list |}).

(* ====================================================================== *)
(** ** embeddings.ts *)
(* ====================================================================== *)

(** [RawEmbedFn]: the provider, acting on the outside world. *)
Definition RawEmbedFn (U EE : Type) : Type :=
  string -> string -> U -> Exit EE (list float) * U.

(** [defaultRawEmbed] *)
Definition defaultRawEmbed {U EE} : RawEmbedFn U EE :=
  fun _ _ u =>
    (Failure
       (Die "rawEmbed not implemented - provide a real embedding provider"),
     u).

(** [Ref.get(cacheRef)] *)
Definition getCacheRef {U E A E' : Type}
  : Effect (World U E A) E' (gmap (string * string) (list float)) :=
  fun w => (Success (cacheRef w), w).

(** [Ref.update(cacheRef, f)] *)
Definition updateCacheRef {U E A E' : Type}
    (f : gmap (string * string) (list float)
         -> gmap (string * string) (list float))
  : Effect (World U E A) E' unit :=
  fun w =>
    (Success tt,
     {| clock := clock w; mapRef := mapRef w; cacheRef := f (cacheRef w);
        outside := outside w; trace := trace w |}).

(** [embed] of [makeEmbeddingsService(rawEmbed)]; the key
    [Data.struct({ text: input, model })] is the pair [(input, model)]. *)
Definition embed {U E A EE} (rawEmbed : RawEmbedFn U EE)
  : EmbedFn (World U E A) EE :=
  fun input model =>
    let key := (input, model) in
    let* cache0 := getCacheRef in
    match cache0 !! key with
    | Some v => succeed v
    | None =>
        let* vector := callOutside (RawEmbedCall input model)
                         (rawEmbed input model) in
        let* _ := updateCacheRef (insert key vector) in
        succeed vector
    end.

(* ====================================================================== *)
(** ** store.ts *)
(* ====================================================================== *)

(** [getAll(cacheName)]: [map.get(cacheName) ?? []] *)
Definition getAll {U E A E'} (name : string)
  : Effect (World U E A) E' (list (CacheEntry E A)) :=
  fun w => (Success (default [] (mapRef w !! name)), logEvent (StoreGetAll name) w).

(** [put(cacheName, entry)]: the list for the name, with [entry] appended. *)
Definition put {U E A E'} (name : string) (e : CacheEntry E A)
  : Effect (World U E A) E' unit :=
  fun w =>
    let existing := default [] (mapRef w !! name) in
    (Success tt,
     {| clock := clock w;
        mapRef := <[name := (existing ++ [e])%list]> (mapRef w);
        cacheRef := cacheRef w; outside := outside w;
        trace := (trace w ++ [StorePut name])%list |}).

(* ====================================================================== *)
(** ** service.ts *)
(* ====================================================================== *)

(** [currentEpochMillis] *)
Definition currentEpochMillis {U E A E'} : Effect (World U E A) E' Z :=
  fun w => (Success (clock w), w).

(** [exitToEffect] *)
Definition exitToEffect {W E A} (x : Exit E A) : Effect W E A :=
  match x with
  | Failure cause => failCause cause
  | Success a => succeed a
  end.

(** [config.ttlMillis !== undefined && config.ttlMillis <= 0] *)
Definition invalidTtl (config : WithCachingConfig) : bool :=
  match ttlMillis config with
  | Some t => t <=? 0
  | None => false
  end.

(** The wrapped function, acting on the outside world. *)
Definition WrappedFn (U E A : Type) : Type := Params -> U -> Exit E A * U.

(** [withCaching(fn, config)], the same in [FuzzyCacheService] and in
    [makeFuzzyCacheLayer]; [rawEmbed] is the provider behind the
    [EmbeddingsService] the layer was given. *)
Definition withCaching `{Platform} {U E A EE} (rawEmbed : RawEmbedFn U EE)
    (fn : WrappedFn U E A) (config : WithCachingConfig)
  : Params -> Effect (World U E A) E A :=
  if invalidTtl config then
    fun _ => dieMessage "WithCachingConfig.ttlMillis must be positive"
  else
    fun params =>
      let* now := currentEpochMillis in
      let ttl := default DEFAULT_TTL_MILLIS (ttlMillis config) in
      let* entries := getAll (cacheName config) in
      let* matchResult :=
        widen (matchBestEntry
                 {| now := now; ttl := ttl; params := params;
                    entries := entries;
                    args_fuzzyParams := fuzzyParams config;
                    args_embed := embed rawEmbed |}) in
      match matchResult with
      | Some m => exitToEffect (outcome (entry m))
      | None =>
          let* exit_ := exit (callOutside (FnCall params) (fn params)) in
          let entry := {| entry_params := params; outcome := exit_;
                          createdAt := now |} in
          let* _ := put (cacheName config) entry in
          exitToEffect exit_
      end.

(** [{ value, cache }] *)
Record WithMeta (A : Type) : Type := mkWithMeta {
  meta_value : A;
  cache : CacheHitMeta
}.
Arguments mkWithMeta {A}.
Arguments meta_value {A}.
Arguments cache {A}.

(** [withCachingMeta(fn, config)] *)
Definition withCachingMeta `{Platform} {U E A EE} (rawEmbed : RawEmbedFn U EE)
    (fn : WrappedFn U E A) (config : WithCachingConfig)
  : Params -> Effect (World U E A) E (WithMeta A) :=
  if invalidTtl config then
    fun _ => dieMessage "WithCachingConfig.ttlMillis must be positive"
  else
    fun params =>
      let* now := currentEpochMillis in
      let ttl := default DEFAULT_TTL_MILLIS (ttlMillis config) in
      let* entries := getAll (cacheName config) in
      let* matchResult :=
        widen (matchBestEntry
                 {| now := now; ttl := ttl; params := params;
                    entries := entries;
                    args_fuzzyParams := fuzzyParams config;
                    args_embed := embed rawEmbed |}) in
      match matchResult with
      | Some m =>
          let* value := exitToEffect (outcome (entry m)) in
          succeed {| meta_value := value; cache := hitMeta m |}
      | None =>
          let* exit_ := exit (callOutside (FnCall params) (fn params)) in
          let entry := {| entry_params := params; outcome := exit_;
                          createdAt := now |} in
          let* _ := put (cacheName config) entry in
          let* value := exitToEffect exit_ in
          succeed {| meta_value := value;
                     cache := {| kind := miss; hit_score := 0%float |} |}
      end.

(* ====================================================================== *)
(** ** Runs used to state the properties *)
(* ====================================================================== *)

(** Scoring every entry of a list in order, as the loop of [matchBestEntry]
    does, and keeping all the results. *)
Fixpoint scoreAll `{Platform} {W EE E A} (params : Params)
    (fuzzy : FuzzyParamsSpec) (embed : EmbedFn W EE)
    (l : list (CacheEntry E A))
  : Effect W Empty_set (list ScoreResult) :=
  match l with
  | [] => succeed []
  | e :: rest =>
      let* r := scoreEntry params (entry_params e) fuzzy embed in
      let* rs := scoreAll params fuzzy embed rest in
      succeed (r :: rs)
  end.

(** The choice the loop of [matchBestEntry] makes, once the scores are
    known. *)
Fixpoint pickBest {E A} (scored : list (CacheEntry E A * ScoreResult))
    (best : option (Best E A)) : option (Best E A) :=
  match scored with
  | [] => best
  | (e, r) :: rest =>
      if negb (ok r) then pickBest rest best
      else if replacesBest best r then
        pickBest rest
          (Some {| best_entry := e; best_score := score r;
                   best_exact := exact r |})
      else pickBest rest best
  end.

(** Sequential calls of a wrapped function with the same parameters, the
    clock reading [t] at the call made at [t]. *)
Fixpoint callRepeatedly {U E A B} (wrapped : Params -> Effect (World U E A) E B)
    (p : Params) (times : list Z) (w : World U E A)
  : list (Exit E B) * World U E A :=
  match times with
  | [] => ([], w)
  | t :: times' =>
      let '(r, w') := wrapped p (setClock t w) in
      let '(rs, w'') := callRepeatedly wrapped p times' w' in
      (r :: rs, w'')
  end.

(** A world in which nothing has happened yet: empty store, empty embedding
    cache, no event. *)
Definition freshWorld {U E A} (u : U) : World U E A :=
  {| clock := 0; mapRef := ∅; cacheRef := ∅; outside := u; trace := [] |}.

(** Every component of the vector is a zero ([0] or [-0]). *)
Definition zeroVector (a : list float) : bool :=
  forallb (fun x => (x =? 0)%float) a.

(** The sum of squares as [cosineSimilarity] accumulates it. *)
Definition sumSquares (a : list float) : float :=
  fold_left (fun acc x => (acc + x * x)%float) a 0%float.

(** The keys that [scoreEntry] scores: those with a rule of their own, and
    those without that are no member of [Object.prototype]. *)
Definition scoredKeys (fuzzy : FuzzyParamsSpec) (keys : list string)
  : list string :=
  List.filter (fun key => match fuzzy !! key with
                          | Some _ => true
                          | None => negb (inheritedKey key)
                          end) keys.

(** Without a fuzzy rule every requested field that is scored must be
    [Equal.equals] to the stored one. *)
Definition exactMatch (requested cached : Params) : bool :=
  forallb (fun key => inheritedKey key ||
                      Equal_equals (getField requested key)
                                   (getField cached key))
          (objectKeys requested).

(** One point per key, as the loop adds them up. *)
Definition fieldCount (keys : list string) : float :=
  fold_left (fun s (_ : string) => (s + 1)%float) keys 0%float.

(** What [scoreEntry] answers when no field has a rule. *)
Definition scoreNoRules (requested cached : Params) : ScoreResult :=
  if exactMatch requested cached
  then {| ok := true;
          score := fieldCount (scoredKeys ∅ (objectKeys requested));
          exact := true |}
  else disqualified.

(** The first fresh entry that matches the request field for field. *)
Definition lookupExact {E A} (now ttl : Z) (p : Params)
    (entries : list (CacheEntry E A)) : option (CacheEntry E A) :=
  List.find (fun e => exactMatch p (entry_params e))
            (List.filter (isFresh now ttl) entries).

(** The entries stored under a cache name. *)
Definition stored {U E A} (name : string) (w : World U E A)
  : list (CacheEntry E A) :=
  default [] (mapRef w !! name).

(** [swapMags] exchanges the two magnitudes of the sums of
    [cosineSimilarity]. *)
Definition swapMags (acc : float * float * float) : float * float * float :=
  let '(dot, magA, magB) := acc in (dot, magB, magA).

(** Two URL strings that the platform parses to the same URL up to the
    fragment. *)
Definition sameUpToFragment `{Platform} (a b : string) : Prop :=
  exists ua ub,
    parseURL a = Some ua /\ parseURL b = Some ub /\ url_base ua = url_base ub.

(* ====================================================================== *)
(** ** A host for the examples *)
(* ====================================================================== *)

(** What Node's [URL] class answers on the strings the examples use; the
    parser percent-encodes a space in the fragment.  Strings not listed are
    not used by the examples and read as rejected here. *)
Definition sampleURLs : list (string * URL) :=
  [ ("https://foo.com/page",
     {| url_base := "https://foo.com/page"; url_fragment := None |});
    ("https://foo.com/page#section1",
     {| url_base := "https://foo.com/page"; url_fragment := Some "section1" |});
    ("https://foo.com/page#section2",
     {| url_base := "https://foo.com/page"; url_fragment := Some "section2" |});
    ("https://foo.com/page#a b",
     {| url_base := "https://foo.com/page"; url_fragment := Some "a%20b" |});
    ("https://foo.com/page#a%20b",
     {| url_base := "https://foo.com/page"; url_fragment := Some "a%20b" |}) ].

Fixpoint assocString {B} (l : list (string * B)) (key : string) : option B :=
  match l with
  | [] => None
  | (k, v) :: l' => if String.eqb k key then Some v else assocString l' key
  end.

(** The host of the examples.  They never convert a value that is not a
    string nor compare values that are not numbers, so the two conversions
    are only sketched. *)
#[local] Instance samplePlatform : Platform := {|
  parseURL := assocString sampleURLs;
  toStringOther := fun v =>
    match v with
    | VUndefined => "undefined"
    | VNull => "null"
    | VBool true => "true"
    | VBool false => "false"
    | VStr s => s
    | VNum _ => "NaN"
    | VObj _ => "[object Object]"
    | VDate _ _ => "Thu Jan 01 1970 00:00:00 GMT+0000"
    | VInherited _ => "function () { [native code] }"
    end;
  lessThanOther := fun _ _ => false
|}.

(** The provider never ends in a defect. *)
Definition neverDies {W EE} (embed : EmbedFn W EE) : Prop :=
  forall text model w d w', embed text model w <> (Failure (Die d), w').

(** The functions, providers and configurations of the repository's tests. *)

(** [fn = (params) => params.x * 2], counting its invocations in the outside
    world (the examples pass a number for [x]). *)
Definition doubleX : WrappedFn nat string float :=
  fun p calls =>
    (match getField p "x" with
     | VNum x => Success (x * 2)%float
     | _ => Success nan
     end,
     S calls).

(** [fn = (params) => params.id === "bad" ? Effect.fail("boom")
                                           : Effect.succeed("ok")] *)
Definition failOnBad : WrappedFn nat string string :=
  fun p calls =>
    (if strictEquals (getField p "id") (VStr "bad")
     then Failure (Fail "boom") else Success "ok",
     S calls).

(** [{ cacheName: "test" }] *)
Definition testConfig : WithCachingConfig :=
  {| cacheName := "test"; fuzzyParams := None; ttlMillis := None |}.

(** [{ cacheName: "test", ttlMillis: 0 }] *)
Definition zeroTtlConfig : WithCachingConfig :=
  {| cacheName := "test"; fuzzyParams := None; ttlMillis := Some 0 |}.

(** A configuration with a similarity rule on [id]. *)
Definition similarityConfig : WithCachingConfig :=
  {| cacheName := "test";
     fuzzyParams := Some {[ "id" := CosineSimilarity 0.5%float "test" ]};
     ttlMillis := None |}.

(** [() => Effect.fail(new Error("Embedding failed"))] *)
Definition failingRawEmbed : RawEmbedFn nat string :=
  fun _ _ u => (Failure (Fail "Embedding failed"), u).

(** A provider that answers [[5, 2]] and counts its invocations. *)
Definition constantRawEmbed : RawEmbedFn nat string :=
  fun _ _ calls => (Success [5%float; 2%float], S calls).

(** An [EmbedFn] without state that answers [[1, 0]]; the examples that
    take it have no similarity rule and never call it. *)
Definition pureEmbed : EmbedFn unit string :=
  fun _ _ => succeed [1%float; 0%float].

(** [failingEmbed] of the matcher tests:
    [() => Effect.fail(new Error("Embedding failed"))] *)
Definition failingEmbed : EmbedFn unit string :=
  fun _ _ => fail "Embedding failed".

(** [makeEntry(params, value, createdAt)] of the matcher tests. *)
Definition makeEntry (p : Params) (v : string) (t : Z)
  : CacheEntry Empty_set string :=
  {| entry_params := p; outcome := Success v; createdAt := t |}.

(** The arguments of the test "should select highest scoring entry". *)
Definition levelArgs : MatchArgs unit string Empty_set string :=
  {| now := 1000; ttl := 5000;
     params := [("level", VNum 1)];
     entries := [makeEntry [("level", VNum 1)] "low" 0;
                 makeEntry [("level", VNum 3)] "high" 0;
                 makeEntry [("level", VNum 2)] "medium" 0];
     args_fuzzyParams := Some {[ "level" := MoreIsBetter ]};
     args_embed := pureEmbed |}.

(** One entry exactly at the TTL boundary, one older. *)
Definition boundaryArgs : MatchArgs unit string Empty_set string :=
  {| now := 5000; ttl := 5000;
     params := [("x", VNum 1)];
     entries := [makeEntry [("x", VNum 1)] "old" (-1);
                 makeEntry [("x", VNum 1)] "boundary" 0];
     args_fuzzyParams := None;
     args_embed := pureEmbed |}.

(** The arguments of the test "should return null when all candidates fail
    to score". *)
Definition failingEmbedArgs : MatchArgs unit string Empty_set string :=
  {| now := 1000; ttl := 5000;
     params := [("prompt", VStr "test")];
     entries := [makeEntry [("prompt", VStr "test")] "value" 0];
     args_fuzzyParams :=
       Some {[ "prompt" := CosineSimilarity 0.5%float "test" ]};
     args_embed := failingEmbed |}.

(** The same arguments with the embeddings service left on its default
    provider. *)
Definition defaultProviderArgs
  : MatchArgs (World unit Empty_set string) string Empty_set string :=
  {| now := 1000; ttl := 5000;
     params := [("prompt", VStr "test")];
     entries := [makeEntry [("prompt", VStr "test")] "value" 0];
     args_fuzzyParams :=
       Some {[ "prompt" := CosineSimilarity 0.5%float "test" ]};
     args_embed := embed defaultRawEmbed |}.

(* ====================================================================== *)
(** ** examples.ts *)
(* ====================================================================== *)

(** [predictUserInterestsCacheConfig]; the threshold is [0.1] as the
    binary64 number the literal denotes. *)
Definition predictUserInterestsCacheConfig : WithCachingConfig :=
  {| cacheName := "predictUserInterestsCache";
     fuzzyParams :=
       Some {[ "userProfileBio" :=
                 CosineSimilarity 0x1.999999999999ap-4%float
                                  "text-embedding-3-small";
               "reasoningLevel" := MoreIsBetter ]};
     ttlMillis := None |}.

(* ====================================================================== *)
(** ** Further notions and examples *)
(* ====================================================================== *)

(** The field [key] fails the test that [scoreEntry] makes for it without
    an embedding: [Equal.equals] for a field without rule (unless the key
    names a member of [Object.prototype], which makes the loop skip the
    field), equality of the normalised URLs for [ExactURL], [prev < req] for
    [MoreIsBetter]. *)
Definition fieldRejects `{Platform} (requested cached : Params)
    (fuzzy : FuzzyParamsSpec) (key : string) : bool :=
  let req := getField requested key in
  let prev := getField cached key in
  match fuzzy !! key with
  | None => negb (inheritedKey key) && negb (Equal_equals req prev)
  | Some (ExactURL spec) =>
      negb (strictEquals (normalizeUrl req spec) (normalizeUrl prev spec))
  | Some MoreIsBetter => lessThan prev req
  | Some (CosineSimilarity _ _) => false
  end.

(** No field has a [CosineSimilarity] rule. *)
Definition noCosine (fuzzy : FuzzyParamsSpec) : Prop :=
  forall key threshold model,
    fuzzy !! key <> Some (CosineSimilarity threshold model).

(** Putting the entries [es] under [name], one [put] after the other. *)
Definition putAll {U E A} (name : string) (es : list (CacheEntry E A))
    (w : World U E A) : World U E A :=
  fold_left (fun w e => snd (put (E':=Empty_set) name e w)) es w.

(** A provider whose vectors hold a NaN component. *)
Definition nanEmbed : EmbedFn unit string :=
  fun _ _ => succeed [nan].

(** [{ cacheName: "test", ttlMillis: 1000 }] *)
Definition shortTtlConfig : WithCachingConfig :=
  {| cacheName := "test"; fuzzyParams := None; ttlMillis := Some 1000 |}.

(** The state after one call of the wrapper with [{ x: 5 }] at time [0]. *)
Definition afterFirstCall : World nat string float :=
  snd (withCaching (@defaultRawEmbed nat string) doubleX shortTtlConfig
         [("x", VNum 5)] (freshWorld 0%nat)).

(** A provider that answers the text ["broken"] with a vector holding a
    NaN and every other text with [[1, 0]]. *)
Definition partlyNanEmbed : EmbedFn unit string :=
  fun text _ =>
    succeed (if String.eqb text "broken" then [nan]
             else [1%float; 0%float]).

(** Three fresh entries under a similarity rule; the first one scores NaN,
    the other two score [1]. *)
Definition nanScoreArgs : MatchArgs unit string Empty_set string :=
  {| now := 1000; ttl := 5000;
     params := [("prompt", VStr "hello")];
     entries := [makeEntry [("prompt", VStr "broken")] "first" 0;
                 makeEntry [("prompt", VStr "hello")] "second" 0;
                 makeEntry [("prompt", VStr "hello")] "third" 0];
     args_fuzzyParams :=
       Some {[ "prompt" := CosineSimilarity 0.5%float "test" ]};
     args_embed := partlyNanEmbed |}.

(* ====================================================================== *)
(** * Properties *)
(* ====================================================================== *)

(** ** Binary64 comparisons and products *)

Module Binary64.

Lemma SFcompare_antisym (x y : spec_float) :
  SFcompare y x = option_map CompOpp (SFcompare x y).
Proof.
  destruct x as [sx|sx| |sx mx ex], y as [sy|sy| |sy my ey]; simpl;
    try reflexivity;
    try (destruct sx; reflexivity);
    try (destruct sy; reflexivity);
    try (destruct sx, sy; reflexivity).
  destruct sx, sy; simpl; try reflexivity;
    rewrite (Z.compare_antisym ex ey);
    destruct (ex ?= ey)%Z; simpl; try reflexivity;
    pose proof (Pos.compare_cont_antisym mx my Eq) as Hp; simpl in Hp;
    rewrite <- Hp; try rewrite CompOpp_involutive; reflexivity.
Qed.

(** [a <= b] excludes [b < a]. *)
Lemma leb_not_gt (a b : float) :
  (a <=? b)%float = true -> (b <? a)%float = false.
Proof.
  rewrite FloatAxioms.leb_spec, FloatAxioms.ltb_spec. unfold SFleb, SFltb.
  rewrite (SFcompare_antisym (Prim2SF a) (Prim2SF b)).
  destruct (SFcompare (Prim2SF a) (Prim2SF b)) as [[]|]; simpl; congruence.
Qed.


Lemma ltb_irrefl (a : float) : (a <? a)%float = false.
Proof.
  rewrite FloatAxioms.ltb_spec. unfold SFltb.
  pose proof (SFcompare_antisym (Prim2SF a) (Prim2SF a)) as Hs.
  destruct (SFcompare (Prim2SF a) (Prim2SF a)) as [[]|];
    simpl in *; congruence.
Qed.

(** [a <= b] without [a === b] is [a < b]. *)
Lemma leb_neq_ltb (a b : float) :
  (a <=? b)%float = true -> (a =? b)%float = false -> (a <? b)%float = true.
Proof.
  rewrite FloatAxioms.leb_spec, FloatAxioms.eqb_spec, FloatAxioms.ltb_spec.
  unfold SFleb, SFeqb, SFltb.
  destruct (SFcompare (Prim2SF a) (Prim2SF b)) as [[]|]; simpl; congruence.
Qed.

Lemma SFmul_comm prec emax (x y : spec_float) :
  SFmul prec emax x y = SFmul prec emax y x.
Proof.
  destruct x as [sx|sx| |sx mx ex], y as [sy|sy| |sy my ey]; simpl;
    try reflexivity; try (rewrite (xorb_comm sx sy); reflexivity).
  rewrite (xorb_comm sx sy), (Pos.mul_comm mx my), (Z.add_comm ex ey).
  reflexivity.
Qed.

Lemma mul_comm (x y : float) : (x * y)%float = (y * x)%float.
Proof.
  apply Prim2SF_inj. rewrite !FloatAxioms.mul_spec. apply SFmul_comm.
Qed.

(** A number that compares equal to zero is [0] or [-0]. *)
Lemma eqb_zero (x : float) :
  (x =? 0)%float = true -> x = 0%float \/ x = (-0)%float.
Proof.
  rewrite FloatAxioms.eqb_spec. unfold SFeqb.
  replace (Prim2SF 0) with (S754_zero false) by reflexivity.
  intros Hc.
  assert (Hx : exists s, Prim2SF x = S754_zero s).
  { destruct (Prim2SF x) as [s|s| |s m e]; simpl in Hc; try discriminate.
    - eauto.
    - destruct s; discriminate.
    - destruct s; discriminate. }
  destruct Hx as [s Hs].
  rewrite <- (SF2Prim_Prim2SF x), Hs.
  destruct s; [right | left]; reflexivity.
Qed.

(** Adding the square of a zero to [0] leaves [0]. *)
Lemma add_square_zero (x : float) :
  (x =? 0)%float = true -> (0 + x * x)%float = 0%float.
Proof.
  intros Hx. destruct (eqb_zero x Hx) as [-> | ->]; reflexivity.
Qed.

(** A finite number that is not a zero has a mantissa and an exponent. *)
Lemma finite_nonzero (x : float) :
  is_finite x = true -> (x =? 0)%float = false ->
  exists s m e, Prim2SF x = S754_finite s m e.
Proof.
  unfold is_finite, is_nan, is_infinity.
  rewrite !FloatAxioms.eqb_spec, FloatAxioms.abs_spec.
  replace (Prim2SF 0) with (S754_zero false) by reflexivity.
  replace (Prim2SF infinity) with (S754_infinity false) by reflexivity.
  destruct (Prim2SF x) as [s|s| |s m e];
    try (destruct s; cbn; discriminate); try (cbn; discriminate).
  intros _ _. eauto.
Qed.

(** The quotient of equal mantissas and exponents rounds to [1]. *)
Lemma SFdiv_self (s : bool) (m : positive) (e : Z) :
  SF64div (S754_finite s m e) (S754_finite s m e) = Prim2SF 1.
Proof.
  replace (Prim2SF 1) with (S754_finite false 4503599627370496 (-52))
    by reflexivity.
  unfold SF64div, SFdiv, SFdiv_core_binary.
  rewrite !Z.sub_diag.
  replace (Z.min (fexp prec emax 0) 0) with (-53)%Z by reflexivity.
  replace (0 - -53)%Z with 53%Z by reflexivity.
  rewrite Z.shiftl_mul_pow2 by lia.
  assert (Hdiv : Z.div_eucl (Z.pos m * 2 ^ 53) (Z.pos m) = (2 ^ 53, 0)%Z).
  { pose proof (Z.div_eucl_eq (Z.pos m * 2 ^ 53) (Z.pos m) ltac:(lia)) as Heq.
    pose proof (Z.mod_pos_bound (Z.pos m * 2 ^ 53) (Z.pos m) ltac:(lia)) as Hb.
    unfold Z.modulo in Hb.
    destruct (Z.div_eucl (Z.pos m * 2 ^ 53) (Z.pos m)) as [q r].
    assert (Hq : q = (2 ^ 53)%Z) by nia.
    subst q. f_equal. lia. }
  rewrite Hdiv.
  replace (xorb s s) with false by (destruct s; reflexivity).
  unfold new_location, new_location_even, new_location_odd.
  destruct (Z.even (Z.pos m)); reflexivity.
Qed.

(** [x / x] is exactly [1] for a finite [x] that is not a zero. *)
Lemma div_self (x : float) :
  is_finite x = true -> (x =? 0)%float = false -> (x / x)%float = 1%float.
Proof.
  intros Hfin Hnz. destruct (finite_nonzero x Hfin Hnz) as (s & m & e & Hx).
  apply Prim2SF_inj. rewrite FloatAxioms.div_spec, Hx. apply SFdiv_self.
Qed.

End Binary64.

(** ** Rounding in binary64

    The mantissas that [sqrt], [*] and [/] round to, from their definitions
    on mantissas and exponents: what [cosineSimilarity] computes for a
    vector with itself. *)

Module Binary64Rounding.

(** [digits2_pos m] is the number of binary digits of [m]. *)
Lemma digits2_pos_bounds (m : positive) :
  2 ^ (Z.pos (digits2_pos m) - 1) <= Z.pos m < 2 ^ Z.pos (digits2_pos m).
Proof.
  induction m as [m IH | m IH |]; cbn [digits2_pos].
  - rewrite Pos2Z.inj_succ.
    replace (Z.succ (Z.pos (digits2_pos m)) - 1)
      with (Z.succ (Z.pos (digits2_pos m) - 1)) by lia.
    rewrite !Z.pow_succ_r by lia. lia.
  - rewrite Pos2Z.inj_succ.
    replace (Z.succ (Z.pos (digits2_pos m)) - 1)
      with (Z.succ (Z.pos (digits2_pos m) - 1)) by lia.
    rewrite !Z.pow_succ_r by lia. lia.
  - simpl. lia.
Qed.

(** A number between [2^(d-1)] and [2^d] has [d] digits. *)
Lemma Zdigits2_unique (m d : Z) :
  0 < d -> 2 ^ (d - 1) <= m < 2 ^ d -> Zdigits2 m = d.
Proof.
  intros Hd [Hlo Hhi].
  assert (Hm : 0 < m) by (pose proof (Z.pow_pos_nonneg 2 (d - 1)); lia).
  destruct m as [|p|p]; try lia. cbn [Zdigits2].
  pose proof (digits2_pos_bounds p) as [Hl Hh].
  set (k := Z.pos (digits2_pos p)) in *.
  assert (Hk : 0 < k) by (unfold k; lia).
  destruct (Z.lt_trichotomy k d) as [Hlt | [Heq | Hgt]]; [|exact Heq|].
  - assert (2 ^ k <= 2 ^ (d - 1)) by (apply Z.pow_le_mono_r; lia). lia.
  - assert (2 ^ d <= 2 ^ (k - 1)) by (apply Z.pow_le_mono_r; lia). lia.
Qed.

(** [SpecFloat.iter_pos] is iteration. *)
Lemma iter_pos_iter {A} (f : A -> A) (p : positive) (x : A) :
  SpecFloat.iter_pos f p x = Pos.iter f x p.
Proof.
  revert x. induction p as [p IH | p IH |]; intros x;
    cbn [SpecFloat.iter_pos Pos.iter].
  - rewrite !IH. rewrite <- Pos.iter_swap.
    rewrite <- (Pos.iter_swap p A f x). reflexivity.
  - rewrite !IH. reflexivity.
  - reflexivity.
Qed.

(** One shift to the right halves the mantissa. *)
Lemma shr_1_m (mrs : shr_record) :
  0 <= shr_m mrs -> shr_m (shr_1 mrs) = shr_m mrs / 2.
Proof.
  destruct mrs as [m r s]. cbn [shr_m shr_1]. intros Hm.
  destruct m as [|[p|p|]|p]; cbn [shr_m].
  - reflexivity.
  - rewrite Pos2Z.inj_xI. apply (Z.div_unique _ _ _ 1); lia.
  - rewrite Pos2Z.inj_xO. apply (Z.div_unique _ _ _ 0); lia.
  - reflexivity.
  - lia.
Qed.

(** [n] shifts to the right divide the mantissa by [2^n]. *)
Lemma shr_iter_m (mrs : shr_record) (n : positive) :
  0 <= shr_m mrs ->
  shr_m (SpecFloat.iter_pos shr_1 n mrs) = shr_m mrs / 2 ^ Z.pos n.
Proof.
  intros Hm. rewrite iter_pos_iter.
  induction n as [|n IH] using Pos.peano_ind.
  - cbn [Pos.iter]. rewrite shr_1_m by exact Hm. reflexivity.
  - rewrite Pos.iter_succ, shr_1_m.
    + rewrite IH, Pos2Z.inj_succ, Z.pow_succ_r by lia.
      rewrite Z.div_div by lia. f_equal. lia.
    + rewrite IH. apply Z.div_pos; lia.
Qed.

Lemma shr_m_of_loc (m : Z) (l : location) : shr_m (shr_record_of_loc m l) = m.
Proof. destruct l as [|[]]; reflexivity. Qed.

Lemma loc_of_shr_record_of_loc (m : Z) (l : location) :
  loc_of_shr_record (shr_record_of_loc m l) = l.
Proof. destruct l as [|[]]; reflexivity. Qed.

(** Rounding to nearest keeps the mantissa or adds one. *)
Lemma round_nearest_even_cases (m : Z) (l : location) :
  round_nearest_even m l = m \/ round_nearest_even m l = m + 1.
Proof.
  destruct l as [|[]]; cbn [round_nearest_even]; auto.
  destruct (Z.even m); auto.
Qed.

Lemma fexp_normal (e : Z) : -1021 <= e -> fexp prec emax e = e - 53.
Proof. unfold fexp, emin, prec, emax. lia. Qed.

(** Rounding a positive mantissa [mx] of [53 + n] digits at an exponent
    [ex] that leaves the result in the normal range: the result has the
    mantissa [mx / 2^n] or the next one, at the exponent [ex + n]; when no
    digit is dropped ([n = 0]) the choice is the one that the given
    location makes. *)
Lemma binary_round_aux_normal (mx ex : Z) (lx : location) (n : Z) :
  0 <= n ->
  2 ^ (52 + n) <= mx < 2 ^ (53 + n) ->
  -1074 <= ex + n ->
  exists m2,
    (m2 = mx / 2 ^ n \/ m2 = mx / 2 ^ n + 1) /\
    (n = 0 -> m2 = round_nearest_even mx lx) /\
    binary_round_aux prec emax false mx ex lx =
    if m2 <? 2 ^ 53 then
      if ex + n <=? 971 then S754_finite false (Z.to_pos m2) (ex + n)
      else S754_infinity false
    else
      if ex + n + 1 <=? 971
      then S754_finite false (Z.to_pos (2 ^ 52)) (ex + n + 1)
      else S754_infinity false.
Proof.
  intros Hn Hmx Hex.
  assert (Hd : Zdigits2 mx = 53 + n).
  { apply Zdigits2_unique; [lia|].
    replace (53 + n - 1) with (52 + n) by lia. exact Hmx. }
  assert (Hpos : 0 < mx) by (pose proof (Z.pow_pos_nonneg 2 (52 + n)); lia).
  assert (Hm1 : 2 ^ 52 <= mx / 2 ^ n < 2 ^ 53).
  { assert (Hp : 0 < 2 ^ n) by (apply Z.pow_pos_nonneg; lia).
    rewrite !Z.pow_add_r in Hmx by lia. split.
    - apply Z.div_le_lower_bound; [exact Hp | lia].
    - apply Z.div_lt_upper_bound; [exact Hp | lia]. }
  unfold binary_round_aux.
  (* the first shift *)
  assert (Hshift1 : exists mrs,
             shr_fexp prec emax mx ex lx = (mrs, ex + n) /\
             shr_m mrs = mx / 2 ^ n /\
             (n = 0 -> mrs = shr_record_of_loc mx lx)).
  { unfold shr_fexp. rewrite Hd, fexp_normal by lia.
    replace (53 + n + ex - 53 - ex) with n by lia.
    destruct n as [|p|p]; try lia.
    - cbn [shr]. eexists. split; [rewrite Z.add_0_r; reflexivity|].
      split; [|reflexivity].
      rewrite shr_m_of_loc, Z.pow_0_r, Z.div_1_r. reflexivity.
    - cbn [shr]. eexists. split; [reflexivity|].
      split; [|discriminate].
      rewrite shr_iter_m by (rewrite shr_m_of_loc; lia).
      rewrite shr_m_of_loc. reflexivity. }
  destruct Hshift1 as (mrs & -> & Hmrs & Hexact).
  set (m2 := round_nearest_even (shr_m mrs) (loc_of_shr_record mrs)).
  assert (Hm2 : m2 = mx / 2 ^ n \/ m2 = mx / 2 ^ n + 1).
  { unfold m2. rewrite <- Hmrs. apply round_nearest_even_cases. }
  exists m2. split; [exact Hm2|]. split.
  { intros H0. unfold m2. rewrite (Hexact H0).
    rewrite shr_m_of_loc, loc_of_shr_record_of_loc. reflexivity. }
  assert (Hrange : 2 ^ 52 <= m2 <= 2 ^ 53) by lia.
  (* the second shift *)
  unfold shr_fexp. cbn [shr_record_of_loc].
  destruct (Z.ltb_spec m2 (2 ^ 53)) as [Hlt | Hge].
  - rewrite (Zdigits2_unique m2 53) by lia.
    rewrite fexp_normal by lia.
    replace (53 + (ex + n) - 53 - (ex + n)) with 0 by lia.
    cbn [shr shr_m].
    destruct m2 as [|p|p]; try lia. reflexivity.
  - assert (Hm2' : m2 = 2 ^ 53) by lia.
    rewrite Hm2'.
    rewrite (Zdigits2_unique (2 ^ 53) 54) by (simpl; lia).
    rewrite fexp_normal by lia.
    replace (54 + (ex + n) - 53 - (ex + n)) with 1 by lia.
    cbn [shr SpecFloat.iter_pos]. reflexivity.
Qed.


(** A positive normal number: a mantissa of 53 digits and an exponent in
    range. *)
Lemma normal_spec (m : float) :
  classify m = PNormal ->
  exists mx ex,
    Prim2SF m = S754_finite false mx ex /\
    2 ^ 52 <= Z.pos mx < 2 ^ 53 /\ -1074 <= ex <= 971.
Proof.
  rewrite FloatAxioms.classify_spec. intros Hc.
  pose proof (FloatAxioms.Prim2SF_valid m) as Hv.
  unfold SF64classify, SFclassify in Hc.
  destruct (Prim2SF m) as [s|s| |s mx ex];
    try (destruct s; discriminate); try discriminate.
  destruct s;
    destruct (Z.eqb_spec (Z.pos (digits2_pos mx)) prec) as [Hd | Hd];
    try discriminate.
  exists mx, ex. split; [reflexivity|].
  unfold prec in Hd. pose proof (digits2_pos_bounds mx) as Hb.
  rewrite Hd in Hb. split; [exact Hb|].
  cbn [valid_binary] in Hv. unfold bounded, canonical_mantissa in Hv.
  apply andb_prop in Hv as [Hcan Hle].
  apply Z.eqb_eq in Hcan. apply Z.leb_le in Hle.
  rewrite Hd in Hcan. unfold fexp, emin, prec, emax in *. lia.
Qed.

(** The square root of a positive number [mx * 2^ex] whose mantissa,
    scaled by [2^sh] with [ex = 2 * es + sh], has 105 or 106 digits: a
    mantissa [ms] of 53 digits at the exponent [es], with [ms^2] within [ms]
    of [mx * 2^sh]. *)
Lemma sqrt_core (mx : positive) (ex es sh : Z) :
  Z.min (fexp prec emax (Z.div2 (Zdigits2 (Z.pos mx) + ex + 1))) (Z.div2 ex)
  = es ->
  ex = 2 * es + sh -> 0 < sh ->
  2 ^ 104 <= Z.pos mx * 2 ^ sh < 2 ^ 106 ->
  (2 ^ 105 <= Z.pos mx * 2 ^ sh -> 53 <= sh) ->
  -1074 <= es <= 459 ->
  exists ms,
    SFsqrt prec emax (S754_finite false mx ex) = S754_finite false ms es /\
    2 ^ 52 <= Z.pos ms < 2 ^ 53 /\
    Z.pos ms * Z.pos ms - Z.pos ms <= Z.pos mx * 2 ^ sh
      <= Z.pos ms * Z.pos ms + Z.pos ms.
Proof.
  intros Hes Hex Hsh Hm'r Hmult Hesr. cbn [SFsqrt].
  unfold SFsqrt_core_binary. rewrite Hes.
  replace (ex - 2 * es) with sh by lia.
  assert (Hm' : (match sh with
                 | Z.pos _ => Z.shiftl (Z.pos mx) sh
                 | 0 => Z.pos mx
                 | Z.neg _ => 0
                 end) = Z.pos mx * 2 ^ sh).
  { destruct sh as [|p|p]; try lia. apply Z.shiftl_mul_pow2. lia. }
  rewrite Hm'. clear Hm'.
  set (m' := Z.pos mx * 2 ^ sh) in *.
  pose proof (Z.sqrtrem_spec m' ltac:(lia)) as Hsq.
  destruct (Z.sqrtrem m') as [q r]. destruct Hsq as [Hq Hr].
  assert (Hqr : 2 ^ 52 <= q < 2 ^ 53) by nia.
  destruct (binary_round_aux_normal q es
              (if r =? 0 then loc_Exact
               else loc_Inexact (if r <=? q then Lt else Gt)) 0)
    as (m2 & _ & Hm2 & Hround); [lia | simpl; lia | lia|].
  specialize (Hm2 eq_refl). rewrite Hround. clear Hround.
  assert (Hcases : (m2 = q /\ r <= q) \/ (m2 = q + 1 /\ q < r)).
  { rewrite Hm2. destruct (Z.eqb_spec r 0) as [-> | Hr0].
    - left. cbn [round_nearest_even]. lia.
    - destruct (Z.leb_spec r q); cbn [round_nearest_even]; [left | right]; lia. }
  assert (Hsmall : m2 < 2 ^ 53).
  { destruct Hcases as [[-> _] | [-> Hlt]]; [lia|].
    destruct (Z.lt_ge_cases m' (2 ^ 105)) as [Hlow | Hhigh].
    - nia.
    - (* [m'] is a multiple of [2^53] *)
      specialize (Hmult Hhigh).
      assert (Hc : exists c, m' = c * 2 ^ 53).
      { exists (Z.pos mx * 2 ^ (sh - 53)). unfold m'.
        rewrite <- Z.mul_assoc, <- Z.pow_add_r by lia.
        do 2 f_equal. lia. }
      destruct Hc as (c & Hc).
      assert (q <> 2 ^ 53 - 1); [|lia].
      intros ->. lia. }
  replace (m2 <? 2 ^ 53) with true by (symmetry; apply Z.ltb_lt; exact Hsmall).
  replace (es + 0 <=? 971) with true by (symmetry; apply Z.leb_le; lia).
  assert (Hm2pos : 0 < m2) by (destruct Hcases as [[-> _] | [-> _]]; lia).
  exists (Z.to_pos m2).
  rewrite Z.add_0_r, Z2Pos.id by exact Hm2pos.
  split; [reflexivity|]. split; [destruct Hcases as [[-> _] | [-> _]]; lia|].
  destruct Hcases as [[-> Hle] | [-> Hlt]]; nia.
Qed.

(** The square root of a positive normal number. *)
Lemma sqrt_normal (mx : positive) (ex : Z) :
  2 ^ 52 <= Z.pos mx < 2 ^ 53 -> -1074 <= ex <= 971 ->
  exists ms es sh,
    SFsqrt prec emax (S754_finite false mx ex) = S754_finite false ms es /\
    2 ^ 52 <= Z.pos ms < 2 ^ 53 /\
    (sh = 52 \/ sh = 53) /\
    ex = 2 * es + sh /\
    Z.pos ms * Z.pos ms - Z.pos ms <= Z.pos mx * 2 ^ sh
      <= Z.pos ms * Z.pos ms + Z.pos ms.
Proof.
  intros Hmx Hex.
  set (k := ex / 2).
  assert (Hk : ex = 2 * k \/ ex = 2 * k + 1).
  { unfold k. pose proof (Z.div_mod ex 2 ltac:(lia)).
    pose proof (Z.mod_pos_bound ex 2 ltac:(lia)). lia. }
  assert (Hk1 : (53 + ex + 1) / 2 = 27 + k).
  { destruct Hk as [Hk | Hk]; rewrite Hk.
    - replace (53 + 2 * k + 1) with ((27 + k) * 2) by lia.
      apply Z.div_mul. lia.
    - symmetry. apply (Z.div_unique _ _ _ 1); lia. }
  assert (Hsh : exists sh, (sh = 52 \/ sh = 53) /\ ex = 2 * (k - 26) + sh)
    by (destruct Hk; [exists 52 | exists 53]; lia).
  destruct Hsh as (sh & Hsh & Hs).
  destruct (sqrt_core mx ex (k - 26) sh) as (ms & Hsqrt & Hms & Hclose).
  - rewrite (Zdigits2_unique (Z.pos mx) 53) by lia.
    rewrite !Z.div2_div. fold k. rewrite Hk1, fexp_normal by lia. lia.
  - exact Hs.
  - lia.
  - destruct Hsh as [-> | ->]; lia.
  - destruct Hsh as [-> | ->]; lia.
  - lia.
  - exists ms, (k - 26), sh. auto.
Qed.

(** The square of such a root: a mantissa [mp] of 53 digits at the exponent
    [2 * es + np], for [np = 52] or [np = 53], within [2^53] of [ms^2] in
    units of [2^(2 * es)]. *)
Lemma square_normal (ms : positive) (es : Z) :
  2 ^ 52 <= Z.pos ms < 2 ^ 53 -> -563 <= es <= 459 ->
  exists mp np,
    SFmul prec emax (S754_finite false ms es) (S754_finite false ms es)
    = S754_finite false mp (2 * es + np) /\
    2 ^ 52 <= Z.pos mp < 2 ^ 53 /\
    (np = 52 \/ np = 53) /\
    Z.pos ms * Z.pos ms - 2 ^ 53 <= Z.pos mp * 2 ^ np
      <= Z.pos ms * Z.pos ms + 2 ^ 53.
Proof.
  intros Hms Hes. cbn [SFmul xorb]. rewrite Pos2Z.inj_mul.
  set (P := Z.pos ms * Z.pos ms).
  assert (HP : 2 ^ 104 <= P <= 2 ^ 106 - 2 ^ 54 + 1) by (unfold P; nia).
  replace (es + es) with (2 * es) by lia.
  destruct (Z.lt_ge_cases P (2 ^ 105)) as [Hlt | Hge].
  - destruct (binary_round_aux_normal P (2 * es) loc_Exact 52)
      as (m2 & Hm2 & _ & ->); [lia | simpl; lia | lia|].
    pose proof (Z.div_mod P (2 ^ 52) ltac:(lia)) as Hdm.
    pose proof (Z.mod_pos_bound P (2 ^ 52) ltac:(lia)) as Hmod.
    assert (Hq : 2 ^ 52 <= P / 2 ^ 52 < 2 ^ 53) by lia.
    destruct (Z.ltb_spec m2 (2 ^ 53)) as [Hsmall | Hbig].
    + replace (2 * es + 52 <=? 971) with true
        by (symmetry; apply Z.leb_le; lia).
      exists (Z.to_pos m2), 52. rewrite Z2Pos.id by lia.
      split; [reflexivity|]. split; [lia|]. split; [auto|]. lia.
    + replace (2 * es + 52 + 1 <=? 971) with true
        by (symmetry; apply Z.leb_le; lia).
      exists (Z.to_pos (2 ^ 52)), 53.
      replace (2 * es + 52 + 1) with (2 * es + 53) by lia.
      rewrite Z2Pos.id by (simpl; lia).
      split; [reflexivity|]. split; [simpl; lia|]. split; [auto|]. lia.
  - destruct (binary_round_aux_normal P (2 * es) loc_Exact 53)
      as (m2 & Hm2 & _ & ->); [lia | simpl; lia | lia|].
    pose proof (Z.div_mod P (2 ^ 53) ltac:(lia)) as Hdm.
    pose proof (Z.mod_pos_bound P (2 ^ 53) ltac:(lia)) as Hmod.
    assert (Hq : 2 ^ 52 <= P / 2 ^ 53 <= 2 ^ 53 - 2) by lia.
    replace (m2 <? 2 ^ 53) with true by (symmetry; apply Z.ltb_lt; lia).
    replace (2 * es + 53 <=? 971) with true
      by (symmetry; apply Z.leb_le; lia).
    exists (Z.to_pos m2), 53. rewrite Z2Pos.id by lia.
    split; [reflexivity|]. split; [lia|]. split; [auto|]. lia.
Qed.

(** The quotient of two positive normal numbers whose values are close: a
    mantissa of 53 digits, at the exponent [-52] and at most [9] above
    [2^52], or at the exponent [-53] and at most [8] below [2^53]. *)
Lemma div_close (mx mp : positive) (es sh np : Z) :
  2 ^ 52 <= Z.pos mx < 2 ^ 53 ->
  2 ^ 52 <= Z.pos mp < 2 ^ 53 ->
  (sh = 52 \/ sh = 53) -> (np = 52 \/ np = 53) ->
  Z.pos mx * 2 ^ sh - 2 ^ 54 <= Z.pos mp * 2 ^ np
    <= Z.pos mx * 2 ^ sh + 2 ^ 54 ->
  exists mq eq,
    SFdiv prec emax (S754_finite false mx (2 * es + sh))
                    (S754_finite false mp (2 * es + np))
    = S754_finite false mq eq /\
    ((eq = -52 /\ 2 ^ 52 <= Z.pos mq <= 2 ^ 52 + 9) \/
     (eq = -53 /\ 2 ^ 53 - 8 <= Z.pos mq < 2 ^ 53)).
Proof.
  intros Hmx Hmp Hsh Hnp Hclose. cbn [SFdiv xorb].
  unfold SFdiv_core_binary.
  rewrite (Zdigits2_unique (Z.pos mx) 53), (Zdigits2_unique (Z.pos mp) 53)
    by lia.
  replace (53 + (2 * es + sh) - (53 + (2 * es + np))) with (sh - np) by lia.
  replace (2 * es + sh - (2 * es + np)) with (sh - np) by lia.
  rewrite fexp_normal by lia.
  replace (Z.min (sh - np - 53) (sh - np)) with (sh - np - 53) by lia.
  replace (sh - np - (sh - np - 53)) with 53 by lia.
  cbv beta iota. rewrite Z.shiftl_mul_pow2 by lia.
  pose proof (Z.div_eucl_eq (Z.pos mx * 2 ^ 53) (Z.pos mp) ltac:(lia)) as Hdiv.
  pose proof (Z.mod_pos_bound (Z.pos mx * 2 ^ 53) (Z.pos mp) ltac:(lia)) as Hrem.
  unfold Z.modulo in Hrem.
  destruct (Z.div_eucl (Z.pos mx * 2 ^ 53) (Z.pos mp)) as [Q R].
  set (l := new_location (Z.pos mp) R). clearbody l.
  (* [Q] is within 8 of [2^T], [T = 53 + np - sh] *)
  assert (HQ : 2 ^ (53 + np - sh) - 8 <= Q <= 2 ^ (53 + np - sh) + 8).
  { destruct Hsh as [-> | ->], Hnp as [-> | ->]; simpl Z.pow in *; nia. }
  assert (HQ52 : 2 ^ 52 <= Q < 2 ^ 54) by nia.
  destruct (Z.lt_ge_cases Q (2 ^ 53)) as [Hlt | Hge].
  - (* 53 digits *)
    destruct (binary_round_aux_normal Q (sh - np - 53) l 0)
      as (m2 & Hm2 & _ & ->); [lia | simpl; lia | lia|].
    rewrite Z.pow_0_r, Z.div_1_r in Hm2.
    destruct (Z.ltb_spec m2 (2 ^ 53)) as [Hsmall | Hbig].
    + replace (sh - np - 53 + 0 <=? 971) with true
        by (symmetry; apply Z.leb_le; lia).
      exists (Z.to_pos m2), (sh - np - 53 + 0). rewrite Z2Pos.id by lia.
      split; [reflexivity|].
      destruct Hsh as [-> | ->], Hnp as [-> | ->]; simpl Z.pow in *; lia.
    + replace (sh - np - 53 + 0 + 1 <=? 971) with true
        by (symmetry; apply Z.leb_le; lia).
      exists (Z.to_pos (2 ^ 52)), (sh - np - 53 + 0 + 1).
      rewrite Z2Pos.id by (simpl; lia). split; [reflexivity|].
      destruct Hsh as [-> | ->], Hnp as [-> | ->]; simpl Z.pow in *; lia.
  - (* 54 digits *)
    destruct (binary_round_aux_normal Q (sh - np - 53) l 1)
      as (m2 & Hm2 & _ & ->); [lia | simpl; lia | lia|].
    pose proof (Z.div_mod Q (2 ^ 1) ltac:(lia)) as Hdm.
    pose proof (Z.mod_pos_bound Q (2 ^ 1) ltac:(lia)) as Hmod.
    destruct (Z.ltb_spec m2 (2 ^ 53)) as [Hsmall | Hbig].
    + replace (sh - np - 53 + 1 <=? 971) with true
        by (symmetry; apply Z.leb_le; lia).
      exists (Z.to_pos m2), (sh - np - 53 + 1). rewrite Z2Pos.id by lia.
      split; [reflexivity|].
      destruct Hsh as [-> | ->], Hnp as [-> | ->]; simpl Z.pow in *; lia.
    + replace (sh - np - 53 + 1 + 1 <=? 971) with true
        by (symmetry; apply Z.leb_le; lia).
      exists (Z.to_pos (2 ^ 52)), (sh - np - 53 + 1 + 1).
      rewrite Z2Pos.id by (simpl; lia). split; [reflexivity|].
      destruct Hsh as [-> | ->], Hnp as [-> | ->]; simpl Z.pow in *; lia.
Qed.


(** A number below [2^k] has at most [k] digits. *)
Lemma Zdigits2_le (m k : Z) : 0 < m < 2 ^ k -> 0 <= k -> Zdigits2 m <= k.
Proof.
  intros [Hpos Hlt] Hk. destruct m as [|p|p]; try lia. cbn [Zdigits2].
  pose proof (digits2_pos_bounds p) as [Hl _].
  destruct (Z.le_gt_cases (Z.pos (digits2_pos p)) k) as [Hle | Hgt];
    [exact Hle|].
  assert (2 ^ k <= 2 ^ (Z.pos (digits2_pos p) - 1))
    by (apply Z.pow_le_mono_r; lia).
  lia.
Qed.

(** [2^n] is twice [2^(n-1)]. *)
Lemma pow2_pred (n : Z) : 0 < n -> 2 ^ n = 2 ^ (n - 1) * 2.
Proof.
  intros Hn. replace n with (Z.succ (n - 1)) at 1 by lia.
  rewrite Z.pow_succ_r by lia. lia.
Qed.

(** One shift to the right remembers the digit it drops, and whether a
    digit dropped before was set. *)
Lemma shr_1_r (mrs : shr_record) :
  0 <= shr_m mrs -> shr_r (shr_1 mrs) = Z.odd (shr_m mrs).
Proof.
  destruct mrs as [m r s]. cbn [shr_m shr_1]. intros Hm.
  destruct m as [|[p|p|]|p]; try reflexivity. lia.
Qed.

Lemma shr_1_s (mrs : shr_record) :
  shr_s (shr_1 mrs) = shr_r mrs || shr_s mrs.
Proof.
  destruct mrs as [m r s]. cbn [shr_r shr_s shr_1].
  destruct m as [|[p|p|]|[p|p|]]; reflexivity.
Qed.

(** After [n] shifts to the right of [m]: the quotient by [2^n], the digit
    of weight [2^(n-1)], and whether a digit of lower weight is set. *)
Lemma shr_iter_loc (m : Z) (n : positive) :
  0 <= m ->
  let mrs := SpecFloat.iter_pos shr_1 n (Build_shr_record m false false) in
  shr_m mrs = m / 2 ^ Z.pos n /\
  shr_r mrs = Z.odd (m / 2 ^ (Z.pos n - 1)) /\
  shr_s mrs = negb (m mod 2 ^ (Z.pos n - 1) =? 0).
Proof.
  intros Hm. cbv zeta. rewrite iter_pos_iter.
  induction n as [|n IH] using Pos.peano_ind.
  - cbn [Pos.iter]. rewrite shr_1_m, shr_1_r, shr_1_s by exact Hm.
    cbn [shr_m shr_r shr_s]. change (2 ^ (1 - 1)) with 1.
    rewrite Z.div_1_r, Z.mod_1_r. auto.
  - destruct IH as (IHm & IHr & IHs).
    rewrite Pos.iter_succ.
    set (h := 2 ^ (Z.pos n - 1)) in *.
    assert (Hh : 0 < h) by (apply Z.pow_pos_nonneg; lia).
    assert (Hpow : 2 ^ Z.pos n = h * 2)
      by (apply pow2_pred; lia).
    replace (Z.pos (Pos.succ n) - 1) with (Z.pos n) by lia.
    assert (Hq : 0 <= m / 2 ^ Z.pos n) by (apply Z.div_pos; lia).
    split; [|split].
    + rewrite shr_1_m by (rewrite IHm; exact Hq).
      rewrite IHm, Pos2Z.inj_succ, Z.pow_succ_r by lia.
      rewrite Z.div_div by lia. f_equal. lia.
    + rewrite shr_1_r by (rewrite IHm; exact Hq). rewrite IHm. reflexivity.
    + rewrite shr_1_s, IHr, IHs, Hpow.
      rewrite Z.rem_mul_r by lia. rewrite (Zmod_odd (m / h)).
      pose proof (Z.mod_pos_bound m h Hh) as Hb.
      destruct (Z.odd (m / h)) eqn:Hodd.
      * destruct (Z.eqb_spec (m mod h + h * 1) 0); [lia|].
        destruct (m mod h =? 0); reflexivity.
      * rewrite Z.mul_0_r, Z.add_0_r. reflexivity.
Qed.

(** Shifting a number that is less than half a unit away from [mx * 2^n]
    and rounding to nearest gives [mx]. *)
Lemma shr_round_nearest (P mx : Z) (n : positive) :
  0 < mx ->
  mx * 2 ^ Z.pos n - 2 ^ (Z.pos n - 1) < P
    < mx * 2 ^ Z.pos n + 2 ^ (Z.pos n - 1) ->
  let mrs := SpecFloat.iter_pos shr_1 n (Build_shr_record P false false) in
  round_nearest_even (shr_m mrs) (loc_of_shr_record mrs) = mx.
Proof.
  intros Hmx Hclose. cbv zeta.
  set (h := 2 ^ (Z.pos n - 1)) in *.
  assert (Hh : 0 < h) by (apply Z.pow_pos_nonneg; lia).
  assert (Hpow : 2 ^ Z.pos n = h * 2)
    by (apply pow2_pred; lia).
  rewrite Hpow in Hclose.
  assert (HP : 0 <= P) by nia.
  destruct (shr_iter_loc P n HP) as (Hm & Hr & Hs). fold h in Hr, Hs.
  rewrite Hpow in Hm.
  unfold loc_of_shr_record.
  destruct (SpecFloat.iter_pos shr_1 n (Build_shr_record P false false))
    as [m r s].
  cbn [shr_m shr_r shr_s] in *. subst m r s.
  destruct (Z.le_gt_cases (mx * (h * 2)) P) as [Hge | Hlt].
  - (* at or above [mx * 2^n] *)
    assert (Hq : P / (h * 2) = mx)
      by (symmetry; apply (Z.div_unique _ _ _ (P - mx * (h * 2))); lia).
    assert (Hq' : P / h = 2 * mx)
      by (symmetry; apply (Z.div_unique _ _ _ (P - mx * (h * 2))); lia).
    rewrite Hq, Hq', Z.odd_mul. cbn [Z.odd andb].
    destruct (negb (P mod h =? 0)); reflexivity.
  - (* below *)
    assert (Hq : P / (h * 2) = mx - 1)
      by (symmetry; apply (Z.div_unique _ _ _ (P - (mx - 1) * (h * 2))); lia).
    assert (Hq' : P / h = 2 * (mx - 1) + 1)
      by (symmetry;
          apply (Z.div_unique _ _ _ (P - (2 * (mx - 1) + 1) * h)); lia).
    assert (Hr : P mod h = P - (2 * (mx - 1) + 1) * h)
      by (symmetry; apply (Z.mod_unique _ _ (2 * (mx - 1) + 1)); lia).
    rewrite Hq, Hq', Hr.
    rewrite Z.odd_add, Z.odd_mul. cbn [Z.odd andb xorb].
    replace (P - (2 * (mx - 1) + 1) * h =? 0) with false
      by (symmetry; apply Z.eqb_neq; lia).
    cbn [negb round_nearest_even]. lia.
Qed.

(** Rounding, at the least exponent, a number that is less than half a unit
    away from [mx * 2^n]: the mantissa [mx] itself. *)
Lemma binary_round_aux_least (P e mx : Z) (n : positive) :
  0 < mx < 2 ^ 53 -> e + Z.pos n = -1074 ->
  mx * 2 ^ Z.pos n - 2 ^ (Z.pos n - 1) < P
    < mx * 2 ^ Z.pos n + 2 ^ (Z.pos n - 1) ->
  binary_round_aux prec emax false P e loc_Exact
  = S754_finite false (Z.to_pos mx) (-1074).
Proof.
  intros Hmx He Hclose.
  assert (Hh : 0 < 2 ^ (Z.pos n - 1)) by (apply Z.pow_pos_nonneg; lia).
  assert (Hpow : 2 ^ Z.pos n = 2 ^ (Z.pos n - 1) * 2)
    by (apply pow2_pred; lia).
  assert (HP : 0 < P < 2 ^ (53 + Z.pos n)).
  { rewrite Z.pow_add_r by lia. nia. }
  pose proof (Zdigits2_le P (53 + Z.pos n) HP ltac:(lia)) as Hd.
  unfold binary_round_aux, shr_fexp at 1.
  replace (fexp prec emax (Zdigits2 P + e) - e) with (Z.pos n)
    by (unfold fexp, emin, prec, emax; lia).
  cbn [shr shr_record_of_loc].
  rewrite (shr_round_nearest P mx n) by lia.
  unfold shr_fexp.
  assert (Hd' : Zdigits2 mx <= 53) by (apply Zdigits2_le; lia).
  replace (fexp prec emax (Zdigits2 mx + (e + Z.pos n)) - (e + Z.pos n))
    with 0 by (unfold fexp, emin, prec, emax; lia).
  cbn [shr shr_record_of_loc shr_m]. rewrite He.
  destruct mx as [|p|p]; try lia. reflexivity.
Qed.

(** A positive subnormal number: a mantissa of at most 52 digits at the
    least exponent. *)
Lemma subnormal_spec (m : float) :
  classify m = PSubn ->
  exists mx,
    Prim2SF m = S754_finite false mx (-1074) /\ Z.pos mx < 2 ^ 52.
Proof.
  rewrite FloatAxioms.classify_spec. intros Hc.
  pose proof (FloatAxioms.Prim2SF_valid m) as Hv.
  unfold SF64classify, SFclassify in Hc.
  destruct (Prim2SF m) as [s|s| |s mx ex];
    try (destruct s; discriminate); try discriminate.
  destruct s;
    destruct (Z.eqb_spec (Z.pos (digits2_pos mx)) prec) as [Hd | Hd];
    try discriminate.
  unfold prec in Hd. pose proof (digits2_pos_bounds mx) as Hb.
  cbn [valid_binary] in Hv. unfold bounded, canonical_mantissa in Hv.
  apply andb_prop in Hv as [Hcan Hle].
  apply Z.eqb_eq in Hcan. unfold fexp, emin, prec, emax in Hcan.
  assert (Hex : ex = -1074) by lia. subst ex.
  exists mx. split; [reflexivity|].
  assert (2 ^ Z.pos (digits2_pos mx) <= 2 ^ 52)
    by (apply Z.pow_le_mono_r; lia).
  lia.
Qed.

(** The square root of a positive subnormal number. *)
Lemma sqrt_subnormal (mx : positive) :
  Z.pos mx < 2 ^ 52 ->
  exists ms es sh,
    SFsqrt prec emax (S754_finite false mx (-1074)) = S754_finite false ms es /\
    2 ^ 52 <= Z.pos ms < 2 ^ 53 /\
    54 <= sh /\
    -1074 = 2 * es + sh /\
    Z.pos ms * Z.pos ms - Z.pos ms <= Z.pos mx * 2 ^ sh
      <= Z.pos ms * Z.pos ms + Z.pos ms.
Proof.
  intros Hmx.
  pose proof (digits2_pos_bounds mx) as Hb.
  set (d := Z.pos (digits2_pos mx)) in *.
  assert (Hd : 1 <= d <= 52).
  { split; [unfold d; lia|].
    destruct (Z.le_gt_cases d 52) as [Hle | Hgt]; [exact Hle|].
    assert (2 ^ 52 <= 2 ^ (d - 1)) by (apply Z.pow_le_mono_r; lia). lia. }
  set (u := (d - 1073) / 2).
  assert (Hu : d - 1073 = 2 * u \/ d - 1073 = 2 * u + 1).
  { unfold u. pose proof (Z.div_mod (d - 1073) 2 ltac:(lia)).
    pose proof (Z.mod_pos_bound (d - 1073) 2 ltac:(lia)). lia. }
  set (sh := -968 - 2 * u).
  assert (Hlow : 2 ^ (d - 1) * 2 ^ sh = 2 ^ (d - 1 + sh))
    by (rewrite Z.pow_add_r by lia; reflexivity).
  assert (Hhigh : 2 ^ d * 2 ^ sh = 2 ^ (d + sh))
    by (rewrite Z.pow_add_r by lia; reflexivity).
  assert (Hsh : 0 < 2 ^ sh) by (apply Z.pow_pos_nonneg; lia).
  destruct (sqrt_core mx (-1074) (u - 53) sh) as (ms & Hsqrt & Hms & Hclose).
  - cbn [Zdigits2]. fold d.
    replace (d + -1074 + 1) with (d - 1073) by lia.
    rewrite Z.div2_div. fold u.
    change (Z.div2 (-1074)) with (-537).
    unfold fexp, emin, prec, emax. lia.
  - lia.
  - lia.
  - destruct Hu as [Hu | Hu].
    + replace (d - 1 + sh) with 104 in Hlow by lia.
      replace (d + sh) with 105 in Hhigh by lia. nia.
    + replace (d - 1 + sh) with 105 in Hlow by lia.
      replace (d + sh) with 106 in Hhigh by lia. nia.
  - lia.
  - lia.
  - exists ms, (u - 53), sh. repeat split; try lia; tauto.
Qed.

(** For a positive subnormal [m], [sqrt m * sqrt m] gives [m] back. *)
Lemma square_sqrt_subnormal (m : float) :
  classify m = PSubn -> (sqrt m * sqrt m)%float = m.
Proof.
  intros Hc. destruct (subnormal_spec m Hc) as (mx & Hm & Hmx).
  destruct (sqrt_subnormal mx Hmx) as (ms & es & sh & Hsqrt & Hms & Hsh & Hex
                                        & Hclose).
  apply Prim2SF_inj.
  rewrite FloatAxioms.mul_spec, FloatAxioms.sqrt_spec, Hm.
  unfold SF64mul, SF64sqrt. rewrite Hsqrt.
  cbn [SFmul xorb]. rewrite Pos2Z.inj_mul.
  destruct sh as [|n|n]; try lia.
  assert (Hhalf : 2 ^ 53 <= 2 ^ (Z.pos n - 1))
    by (apply Z.pow_le_mono_r; lia).
  rewrite (binary_round_aux_least _ (es + es) (Z.pos mx) n) by lia.
  reflexivity.
Qed.

(** For a positive normal [m], the quotient [m / (sqrt m * sqrt m)] has its
    mantissa at most [9] above that of [1], or at most [8] below that of
    [2] at the exponent below. *)
Lemma self_quotient_normal (m : float) :
  classify m = PNormal ->
  exists mq eq,
    Prim2SF (m / (sqrt m * sqrt m)) = S754_finite false mq eq /\
    ((eq = -52 /\ 2 ^ 52 <= Z.pos mq <= 2 ^ 52 + 9) \/
     (eq = -53 /\ 2 ^ 53 - 8 <= Z.pos mq < 2 ^ 53)).
Proof.
  intros Hc. destruct (normal_spec m Hc) as (mx & ex & Hm & Hmx & Hex).
  destruct (sqrt_normal mx ex Hmx Hex)
    as (ms & es & sh & Hsqrt & Hms & Hsh & Hes & Hclose).
  destruct (square_normal ms es Hms ltac:(lia))
    as (mp & np & Hmul & Hmp & Hnp & Hclose').
  rewrite FloatAxioms.div_spec, FloatAxioms.mul_spec, FloatAxioms.sqrt_spec.
  rewrite Hm. unfold SF64div, SF64mul, SF64sqrt. rewrite Hsqrt, Hmul, Hes.
  apply div_close; try assumption. lia.
Qed.

(** [x / x] is [1] for a number with a mantissa. *)
Lemma div_self_mantissa (x : float) (s : bool) (mx : positive) (ex : Z) :
  Prim2SF x = S754_finite s mx ex -> (x / x)%float = 1%float.
Proof.
  intros Hx. apply Prim2SF_inj. rewrite FloatAxioms.div_spec, Hx.
  apply Binary64.SFdiv_self.
Qed.

(** A positive number below infinity is normal or subnormal, and no zero. *)
Lemma positive_finite_spec (m : float) :
  (0 <? m)%float = true -> (m <? infinity)%float = true ->
  (m =? 0)%float = false /\ (classify m = PNormal \/ classify m = PSubn).
Proof.
  rewrite !FloatAxioms.ltb_spec, FloatAxioms.eqb_spec,
    FloatAxioms.classify_spec.
  replace (Prim2SF 0) with (S754_zero false) by reflexivity.
  replace (Prim2SF infinity) with (S754_infinity false) by reflexivity.
  unfold SF64classify, SFclassify, SFltb, SFeqb.
  destruct (Prim2SF m) as [s|s| |s mx ex]; cbn [SFcompare];
    try discriminate; try (destruct s; discriminate).
  destruct s; [discriminate|]. intros _ _. split; [reflexivity|].
  destruct (Z.pos (digits2_pos mx) =? prec); auto.
Qed.

(** The numbers with the mantissas that [self_quotient_normal] leaves are
    within [2^-48] of [1]. *)
Lemma near_one_above (j : Z) :
  0 <= j <= 9 ->
  (abs (SF2Prim (S754_finite false (Z.to_pos (2 ^ 52 + j)) (-52)) - 1)
     <=? 0x1p-48)%float = true.
Proof.
  intros Hj.
  assert (Hall : forallb
            (fun j => (abs (SF2Prim (S754_finite false
                                       (Z.to_pos (2 ^ 52 + Z.of_nat j)) (-52))
                            - 1) <=? 0x1p-48)%float)
            (seq 0 10) = true) by (vm_compute; reflexivity).
  rewrite forallb_forall in Hall.
  specialize (Hall (Z.to_nat j)). rewrite Z2Nat.id in Hall by lia.
  apply Hall, in_seq. lia.
Qed.

Lemma near_one_below (j : Z) :
  1 <= j <= 8 ->
  (abs (SF2Prim (S754_finite false (Z.to_pos (2 ^ 53 - j)) (-53)) - 1)
     <=? 0x1p-48)%float = true.
Proof.
  intros Hj.
  assert (Hall : forallb
            (fun j => (abs (SF2Prim (S754_finite false
                                       (Z.to_pos (2 ^ 53 - Z.of_nat j)) (-53))
                            - 1) <=? 0x1p-48)%float)
            (seq 1 8) = true) by (vm_compute; reflexivity).
  rewrite forallb_forall in Hall.
  specialize (Hall (Z.to_nat j)). rewrite Z2Nat.id in Hall by lia.
  apply Hall, in_seq. lia.
Qed.

(** For a positive [m] below infinity, the binary64 quotient
    [m / (sqrt m * sqrt m)] is within [2^-48] of [1]. *)
Lemma self_quotient_near_one (m : float) :
  (0 <? m)%float = true -> (m <? infinity)%float = true ->
  (abs (m / (sqrt m * sqrt m) - 1) <=? 0x1p-48)%float = true.
Proof.
  intros Hpos Hfin.
  destruct (positive_finite_spec m Hpos Hfin) as [_ [Hc | Hc]].
  - destruct (self_quotient_normal m Hc) as (mq & eq & Hq & Hcases).
    rewrite <- (SF2Prim_Prim2SF (m / (sqrt m * sqrt m))), Hq.
    destruct Hcases as [[-> Hmq] | [-> Hmq]].
    + replace mq with (Z.to_pos (2 ^ 52 + (Z.pos mq - 2 ^ 52))) by lia.
      apply near_one_above. lia.
    + replace mq with (Z.to_pos (2 ^ 53 - (2 ^ 53 - Z.pos mq))) by lia.
      apply near_one_below. lia.
  - rewrite (square_sqrt_subnormal m Hc).
    destruct (subnormal_spec m Hc) as (mx & Hm & _).
    rewrite (div_self_mantissa m _ _ _ Hm). reflexivity.
Qed.

End Binary64Rounding.

(** ** Integers in binary64

    Integers of magnitude at most [2^53] are binary64 numbers, and the
    subtraction and the comparison of the TTL filter are exact on them. *)

Module Binary64Integers.
Import Binary64Rounding.

(** Rounding a negative number is rounding its opposite. *)
Lemma binary_round_aux_opp (m e : Z) (l : location) :
  binary_round_aux prec emax true m e l
  = SFopp (binary_round_aux prec emax false m e l).
Proof.
  unfold binary_round_aux.
  destruct (shr_fexp prec emax m e l) as [mrs' e'].
  destruct (shr_fexp prec emax
              (round_nearest_even (shr_m mrs') (loc_of_shr_record mrs')) e'
              loc_Exact) as [mrs'' e''].
  destruct (shr_m mrs'') as [|p|p]; try reflexivity.
  destruct (e'' <=? emax - prec); reflexivity.
Qed.

(** Rounding a mantissa of 53 digits followed by [n] zeros drops the
    zeros. *)
Lemma binary_round_aux_exact (s : bool) (mx e n : Z) :
  2 ^ 52 <= mx < 2 ^ 53 -> 0 <= n -> -1074 <= e + n <= 971 ->
  binary_round_aux prec emax s (mx * 2 ^ n) e loc_Exact
  = S754_finite s (Z.to_pos mx) (e + n).
Proof.
  intros Hmx Hn He.
  assert (Hfalse : binary_round_aux prec emax false (mx * 2 ^ n) e loc_Exact
                   = S754_finite false (Z.to_pos mx) (e + n)).
  { destruct n as [|n|n]; try lia.
    - rewrite Z.pow_0_r, Z.mul_1_r.
      destruct (binary_round_aux_normal mx e loc_Exact 0)
        as (m2 & _ & Hm2 & ->); [lia | simpl; lia | lia|].
      rewrite (Hm2 eq_refl). cbn [round_nearest_even].
      replace (mx <? 2 ^ 53) with true by (symmetry; apply Z.ltb_lt; lia).
      replace (e + 0 <=? 971) with true by (symmetry; apply Z.leb_le; lia).
      reflexivity.
    - assert (Hp : 0 < 2 ^ Z.pos n) by (apply Z.pow_pos_nonneg; lia).
      assert (Hh : 0 < 2 ^ (Z.pos n - 1)) by (apply Z.pow_pos_nonneg; lia).
      assert (Hd : Zdigits2 (mx * 2 ^ Z.pos n) = 53 + Z.pos n).
      { apply Zdigits2_unique; [lia|].
        replace (53 + Z.pos n - 1) with (52 + Z.pos n) by lia.
        rewrite !Z.pow_add_r by lia. nia. }
      unfold binary_round_aux, shr_fexp at 1. rewrite Hd, fexp_normal by lia.
      replace (53 + Z.pos n + e - 53 - e) with (Z.pos n) by lia.
      cbn [shr shr_record_of_loc].
      rewrite (shr_round_nearest (mx * 2 ^ Z.pos n) mx n) by lia.
      unfold shr_fexp. rewrite (Zdigits2_unique mx 53) by lia.
      rewrite fexp_normal by lia.
      replace (53 + (e + Z.pos n) - 53 - (e + Z.pos n)) with 0 by lia.
      cbn [shr shr_record_of_loc shr_m].
      destruct mx as [|p|p]; try lia.
      replace (e + Z.pos n <=? emax - prec) with true
        by (symmetry; apply Z.leb_le; unfold emax, prec; lia).
      reflexivity. }
  destruct s; [rewrite binary_round_aux_opp, Hfalse|exact Hfalse].
  reflexivity.
Qed.

(** [d] shifts to the left multiply by [2^d]. *)
Lemma iter_xO (m d : positive) :
  Z.pos (Pos.iter xO m d) = Z.pos m * 2 ^ Z.pos d.
Proof.
  induction d as [|d IH] using Pos.peano_ind.
  - cbn [Pos.iter]. lia.
  - rewrite Pos.iter_succ, Pos2Z.inj_xO, IH, Pos2Z.inj_succ,
      Z.pow_succ_r by lia. lia.
Qed.

(** Rounding the integer [z = M * 2^e] of magnitude at most [2^53] is
    exact. *)
Lemma binary_round_integer (s : bool) (M : positive) (e z : Z) :
  -52 <= e <= 1 -> 0 < z <= 2 ^ 53 ->
  z * 2 ^ 52 = Z.pos M * 2 ^ (e + 52) ->
  representsInteger (binary_round prec emax s M e) (cond_Zopp s z).
Proof.
  intros He Hz Hval.
  pose proof (digits2_pos_bounds M) as Hb.
  set (d := Z.pos (digits2_pos M)) in *.
  assert (Hd1 : 1 <= d) by (unfold d; lia).
  assert (Hpe : 0 < 2 ^ (e + 52)) by (apply Z.pow_pos_nonneg; lia).
  (* the exponent of the result is between -52 and 1 *)
  assert (Hlow : 1 <= d + e).
  { assert (Hlt : 2 ^ 52 < 2 ^ (d + (e + 52))).
    { rewrite Z.pow_add_r by lia. nia. }
    apply Z.pow_lt_mono_r_iff in Hlt; lia. }
  assert (Hhigh : d + e <= 54).
  { assert (Hle : 2 ^ (d - 1 + (e + 52)) <= 2 ^ 105).
    { rewrite Z.pow_add_r by lia. nia. }
    apply Z.pow_le_mono_r_iff in Hle; lia. }
  unfold binary_round. fold d. rewrite fexp_normal by lia.
  unfold shl_align.
  replace (d + e - 53 - e) with (d - 53) by lia.
  destruct (d - 53) as [|k|k] eqn:Hk.
  - (* 53 digits *)
    replace (Z.pos M) with (Z.pos M * 2 ^ 0) by (rewrite Z.pow_0_r; lia).
    assert (Hd : d = 53) by lia. rewrite Hd in Hb.
    rewrite binary_round_aux_exact by (simpl in Hb |- *; lia).
    cbn [representsInteger]. rewrite Z2Pos.id by lia.
    split; [simpl in Hb |- *; lia|]. split; [lia|].
    rewrite Z.add_0_r. destruct s; cbn [cond_Zopp]; lia.
  - (* more than 53 digits: the digits dropped are zeros *)
    assert (Hd : d = 53 + Z.pos k) by lia.
    assert (Hpk : 0 < 2 ^ Z.pos k) by (apply Z.pow_pos_nonneg; lia).
    assert (Hmult : exists mx, Z.pos M = mx * 2 ^ Z.pos k).
    { assert (He0 : e <= 0) by lia.
      assert (HM : Z.pos M = z * 2 ^ (- e)).
      { assert (H52 : 2 ^ 52 = 2 ^ (- e) * 2 ^ (e + 52))
          by (rewrite <- Z.pow_add_r by lia; f_equal; lia).
        rewrite H52 in Hval. nia. }
      destruct (Z.le_gt_cases (Z.pos k) (- e)) as [Hle | Hgt].
      - exists (z * 2 ^ (- e - Z.pos k)).
        rewrite HM, <- Z.mul_assoc, <- Z.pow_add_r by lia.
        do 2 f_equal. lia.
      - assert (Hk1 : Z.pos k = 1 - e) by lia.
        exists (2 ^ 52).
        assert (Hz53 : z = 2 ^ 53).
        { assert (Hpn : 0 < 2 ^ (- e)) by (apply Z.pow_pos_nonneg; lia).
          assert (H1 : 2 ^ (d - 1) = 2 ^ 53 * 2 ^ (- e))
            by (rewrite <- Z.pow_add_r by lia; f_equal; lia).
          nia. }
        rewrite HM, Hz53, Hk1, <- !Z.pow_add_r by lia. f_equal. lia. }
    destruct Hmult as (mx & HM).
    assert (Hmx : 2 ^ 52 <= mx < 2 ^ 53).
    { rewrite Hd in Hb.
      replace (53 + Z.pos k - 1) with (52 + Z.pos k) in Hb by lia.
      rewrite !Z.pow_add_r in Hb by lia. nia. }
    rewrite HM, binary_round_aux_exact by lia.
    cbn [representsInteger]. rewrite Z2Pos.id by lia.
    split; [exact Hmx|]. split; [lia|].
    assert (Hp : 2 ^ (e + Z.pos k + 52) = 2 ^ Z.pos k * 2 ^ (e + 52))
      by (rewrite <- Z.pow_add_r by lia; f_equal; lia).
    rewrite Hp. destruct s; cbn [cond_Zopp]; nia.
  - (* fewer than 53 digits: zeros are added *)
    assert (Hd : d = 53 - Z.pos k) by lia.
    assert (Hpk : 0 < 2 ^ Z.pos k) by (apply Z.pow_pos_nonneg; lia).
    rewrite iter_xO.
    replace (Z.pos M * 2 ^ Z.pos k)
      with (Z.pos M * 2 ^ Z.pos k * 2 ^ 0) by (rewrite Z.pow_0_r; lia).
    assert (Hmx : 2 ^ 52 <= Z.pos M * 2 ^ Z.pos k < 2 ^ 53).
    { assert (H52 : 2 ^ 52 = 2 ^ (d - 1) * 2 ^ Z.pos k)
        by (rewrite <- Z.pow_add_r by lia; f_equal; lia).
      assert (H53 : 2 ^ 53 = 2 ^ d * 2 ^ Z.pos k)
        by (rewrite <- Z.pow_add_r by lia; f_equal; lia).
      rewrite H52, H53. nia. }
    rewrite binary_round_aux_exact by lia.
    cbn [representsInteger]. rewrite Z2Pos.id by lia.
    split; [exact Hmx|]. split; [lia|].
    assert (Hp : 2 ^ (e + 52) = 2 ^ Z.pos k * 2 ^ (d + e - 53 + 0 + 52))
      by (rewrite <- Z.pow_add_r by lia; f_equal; lia).
    rewrite Hp in Hval. destruct s; cbn [cond_Zopp]; nia.
Qed.


(** Normalising the integer [z = M * 2^e] of magnitude at most [2^53]. *)
Lemma binary_normalize_integer (M e z : Z) :
  -52 <= e <= 1 -> - 2 ^ 53 <= z <= 2 ^ 53 ->
  z * 2 ^ 52 = M * 2 ^ (e + 52) ->
  representsInteger (binary_normalize prec emax M e false) z.
Proof.
  intros He Hz Hval.
  assert (Hpe : 0 < 2 ^ (e + 52)) by (apply Z.pow_pos_nonneg; lia).
  destruct M as [|M|M]; cbn [binary_normalize].
  - cbn [representsInteger]. lia.
  - change z with (cond_Zopp false z).
    apply binary_round_integer; [lia | nia | exact Hval].
  - replace z with (cond_Zopp true (- z)) by (cbn [cond_Zopp]; lia).
    apply binary_round_integer; [lia | nia|].
    rewrite <- Pos2Z.opp_pos in Hval. lia.
Qed.

(** The mantissa that [shl_align] brings to a lower exponent. *)
Lemma shl_align_fst (m : positive) (e e' : Z) :
  e' <= e -> Z.pos (fst (shl_align m e e')) = Z.pos m * 2 ^ (e - e').
Proof.
  intros Hle. unfold shl_align. destruct (e' - e) as [|k|k] eqn:Hk;
    cbn [fst].
  - replace (e - e') with 0 by lia. lia.
  - lia.
  - rewrite iter_xO. do 2 f_equal. lia.
Qed.

(** The difference of two integers, when its magnitude is at most [2^53],
    is exact. *)
Lemma SFsub_integer (x y : spec_float) (X Y : Z) :
  representsInteger x X -> representsInteger y Y ->
  - 2 ^ 53 <= X - Y <= 2 ^ 53 ->
  representsInteger (SFsub prec emax x y) (X - Y).
Proof.
  destruct x as [sx|sx| |sx mx ex], y as [sy|sy| |sy my ey];
    cbn [representsInteger]; try tauto.
  - intros -> -> _. destruct sx, sy; reflexivity.
  - intros -> (Hm & He & Hv) _. cbn [SFsub representsInteger].
    split; [exact Hm|]. split; [exact He|].
    destruct sy; cbn [negb cond_Zopp] in *; lia.
  - intros (Hm & He & Hv) -> _. cbn [SFsub representsInteger].
    rewrite Z.sub_0_r. auto.
  - intros (Hmx & Hex & Hx) (Hmy & Hey & Hy) Hd. cbn [SFsub].
    set (ez := Z.min ex ey).
    apply binary_normalize_integer; [unfold ez; lia | exact Hd|].
    rewrite !shl_align_fst by (unfold ez; lia).
    assert (Hpx : 2 ^ (ex + 52) = 2 ^ (ex - ez) * 2 ^ (ez + 52))
      by (rewrite <- Z.pow_add_r by (unfold ez; lia); f_equal; lia).
    assert (Hpy : 2 ^ (ey + 52) = 2 ^ (ey - ez) * 2 ^ (ez + 52))
      by (rewrite <- Z.pow_add_r by (unfold ez; lia); f_equal; lia).
    rewrite Hpx in Hx. rewrite Hpy in Hy.
    destruct sx, sy; cbn [cond_Zopp] in *; lia.
Qed.

(** Mantissas of 53 digits are ordered by their exponents first. *)
Lemma scaled_lt (m1 m2 e1 e2 : Z) :
  2 ^ 52 <= m1 < 2 ^ 53 -> 2 ^ 52 <= m2 < 2 ^ 53 -> 0 <= e1 < e2 ->
  m1 * 2 ^ e1 < m2 * 2 ^ e2.
Proof.
  intros H1 H2 He.
  assert (Hp : 0 < 2 ^ e1) by (apply Z.pow_pos_nonneg; lia).
  assert (Hs : 2 ^ e2 = 2 ^ (e2 - e1) * 2 ^ e1)
    by (rewrite <- Z.pow_add_r by lia; f_equal; lia).
  assert (H2' : 2 ^ 1 <= 2 ^ (e2 - e1)) by (apply Z.pow_le_mono_r; lia).
  rewrite Hs. simpl Z.pow in *. nia.
Qed.

(** The comparison of binary64 is that of the integers. *)
Lemma SFcompare_integer (x y : spec_float) (X Y : Z) :
  representsInteger x X -> representsInteger y Y ->
  SFcompare x y = Some (X ?= Y).
Proof.
  destruct x as [sx|sx| |sx mx ex], y as [sy|sy| |sy my ey];
    cbn [representsInteger]; try tauto.
  - intros -> ->. reflexivity.
  - intros -> (Hm & He & Hv). cbn [SFcompare]. f_equal. symmetry.
    assert (Hp : 0 < 2 ^ (ey + 52)) by (apply Z.pow_pos_nonneg; lia).
    destruct sy; cbn [cond_Zopp] in Hv.
    + apply Z.compare_gt_iff. nia.
    + apply Z.compare_lt_iff. nia.
  - intros (Hm & He & Hv) ->. cbn [SFcompare]. f_equal. symmetry.
    assert (Hp : 0 < 2 ^ (ex + 52)) by (apply Z.pow_pos_nonneg; lia).
    destruct sx; cbn [cond_Zopp] in Hv.
    + apply Z.compare_lt_iff. nia.
    + apply Z.compare_gt_iff. nia.
  - intros (Hmx & Hex & Hx) (Hmy & Hey & Hy). cbn [SFcompare]. f_equal.
    assert (Hpx : 0 < 2 ^ (ex + 52)) by (apply Z.pow_pos_nonneg; lia).
    assert (Hpy : 0 < 2 ^ (ey + 52)) by (apply Z.pow_pos_nonneg; lia).
    symmetry.
    destruct sx, sy; cbn [cond_Zopp] in Hx, Hy.
    + (* both negative *)
      destruct (Z.compare_spec ex ey) as [Heq | Hlt | Hgt].
      * subst ey. change (Pos.compare_cont Eq mx my) with (mx ?= my)%positive.
        rewrite Pos2Z.inj_compare.
        destruct (Z.compare_spec (Z.pos mx) (Z.pos my)) as [H | H | H];
          cbn [CompOpp].
        -- apply Z.compare_eq_iff. nia.
        -- apply Z.compare_gt_iff. nia.
        -- apply Z.compare_lt_iff. nia.
      * pose proof (scaled_lt (Z.pos mx) (Z.pos my) (ex + 52) (ey + 52)
                      Hmx Hmy ltac:(lia)).
        apply Z.compare_gt_iff. lia.
      * pose proof (scaled_lt (Z.pos my) (Z.pos mx) (ey + 52) (ex + 52)
                      Hmy Hmx ltac:(lia)).
        apply Z.compare_lt_iff. lia.
    + apply Z.compare_lt_iff. nia.
    + apply Z.compare_gt_iff. nia.
    + (* both positive *)
      destruct (Z.compare_spec ex ey) as [Heq | Hlt | Hgt].
      * subst ey. change (Pos.compare_cont Eq mx my) with (mx ?= my)%positive.
        rewrite Pos2Z.inj_compare.
        destruct (Z.compare_spec (Z.pos mx) (Z.pos my)) as [H | H | H].
        -- apply Z.compare_eq_iff. nia.
        -- apply Z.compare_lt_iff. nia.
        -- apply Z.compare_gt_iff. nia.
      * pose proof (scaled_lt (Z.pos mx) (Z.pos my) (ex + 52) (ey + 52)
                      Hmx Hmy ltac:(lia)).
        apply Z.compare_lt_iff. lia.
      * pose proof (scaled_lt (Z.pos my) (Z.pos mx) (ey + 52) (ex + 52)
                      Hmy Hmx ltac:(lia)).
        apply Z.compare_gt_iff. lia.
Qed.

(** What representsInteger an integer is a binary64 number. *)
Lemma representsInteger_valid (f : spec_float) (z : Z) :
  representsInteger f z -> valid_binary f = true.
Proof.
  destruct f as [s|s| |s m e]; cbn [representsInteger]; try tauto.
  intros (Hm & He & _). unfold valid_binary. cbn [SpecFloat.valid_binary].
  unfold bounded, canonical_mantissa.
  pose proof (Zdigits2_unique (Z.pos m) 53 ltac:(lia) Hm) as Hd.
  cbn [Zdigits2] in Hd. rewrite Hd, fexp_normal by lia.
  apply andb_true_intro. split; [apply Z.eqb_eq; lia|].
  apply Z.leb_le. unfold emax, prec. lia.
Qed.

(** The number of an integer of magnitude at most [2^53] is that
    integer. *)
Lemma numberOfZ_integer (z : Z) :
  - 2 ^ 53 <= z <= 2 ^ 53 -> representsInteger (Prim2SF (numberOfZ z)) z.
Proof.
  intros Hz. unfold numberOfZ.
  assert (H : representsInteger (binary_normalize prec emax z 0 false) z)
    by (apply binary_normalize_integer; [lia | exact Hz | reflexivity]).
  rewrite Prim2SF_SF2Prim by (exact (representsInteger_valid _ _ H)). exact H.
Qed.

(** [a - b <= c] in binary64 is [a - b <= c] on the integers, for integers
    of magnitude at most [2^53] whose difference is of magnitude at most
    [2^53]. *)
Lemma leb_sub_integers (a b c : Z) :
  - 2 ^ 53 <= a <= 2 ^ 53 -> - 2 ^ 53 <= b <= 2 ^ 53 ->
  - 2 ^ 53 <= c <= 2 ^ 53 -> - 2 ^ 53 <= a - b <= 2 ^ 53 ->
  (numberOfZ a - numberOfZ b <=? numberOfZ c)%float = (a - b <=? c).
Proof.
  intros Ha Hb Hc Hd.
  rewrite FloatAxioms.leb_spec, FloatAxioms.sub_spec.
  unfold SFleb, SF64sub.
  rewrite (SFcompare_integer _ _ (a - b) c).
  - unfold Z.leb. destruct (a - b ?= c); reflexivity.
  - apply SFsub_integer; [apply numberOfZ_integer, Ha
                            | apply numberOfZ_integer, Hb | exact Hd].
  - apply numberOfZ_integer, Hc.
Qed.

End Binary64Integers.

(** ** cosineSimilarity *)

Section Cosine.

Lemma cosineStep_swap acc ai bi :
  cosineStep (swapMags acc) (bi, ai) = swapMags (cosineStep acc (ai, bi)).
Proof.
  destruct acc as [[dot magA] magB]. simpl.
  rewrite (Binary64.mul_comm bi ai). reflexivity.
Qed.

Lemma cosineLoop_swap (a b : list float) acc :
  fold_left cosineStep (combine b a) (swapMags acc)
  = swapMags (fold_left cosineStep (combine a b) acc).
Proof.
  revert b acc. induction a as [|ai a IH]; intros [|bi b] acc; simpl;
    try reflexivity.
  rewrite cosineStep_swap. apply IH.
Qed.

Lemma cosineSums_swap (a b : list float) :
  cosineSums b a = swapMags (cosineSums a b).
Proof. apply (cosineLoop_swap a b (0%float, 0%float, 0%float)). Qed.

Lemma cosineSimilarity_comm (a b : list float) :
  cosineSimilarity a b = cosineSimilarity b a.
Proof.
  unfold cosineSimilarity. rewrite (cosineSums_swap a b).
  destruct (cosineSums a b) as [[dot magA] magB]. simpl.
  rewrite (orb_comm (magB =? 0)%float (magA =? 0)%float).
  rewrite (Binary64.mul_comm (sqrt magB) (sqrt magA)). reflexivity.
Qed.

Lemma cosineLoop_zero_left (a b : list float) dot magB :
  zeroVector a = true ->
  exists dot' magB',
    fold_left cosineStep (combine a b) (dot, 0%float, magB)
    = (dot', 0%float, magB').
Proof.
  revert b dot magB. induction a as [|ai a IH]; intros b dot magB Hz.
  - simpl. eauto.
  - destruct b as [|bi b]; [simpl; eauto|].
    simpl in Hz. apply andb_prop in Hz as [Hai Ha].
    cbn [combine fold_left cosineStep].
    rewrite (Binary64.add_square_zero ai Hai). apply IH, Ha.
Qed.

Lemma cosineSimilarity_zero_left (a b : list float) :
  zeroVector a = true -> cosineSimilarity a b = 0%float.
Proof.
  intros Hz. unfold cosineSimilarity, cosineSums.
  destruct (cosineLoop_zero_left a b 0%float 0%float Hz) as (d & mB & ->).
  reflexivity.
Qed.

Lemma cosineLoop_self (a : list float) s :
  fold_left cosineStep (combine a a) (s, s, s)
  = (let m := fold_left (fun acc x => (acc + x * x)%float) a s in (m, m, m)).
Proof.
  revert s. induction a as [|x a IH]; intros s; simpl; [reflexivity|].
  apply IH.
Qed.

Lemma cosineSimilarity_self (a : list float) :
  cosineSimilarity a a =
  let m := sumSquares a in
  if (m =? 0)%float then 0%float else (m / (sqrt m * sqrt m))%float.
Proof.
  unfold cosineSimilarity, cosineSums, sumSquares.
  rewrite cosineLoop_self. simpl. rewrite orb_diag. reflexivity.
Qed.

(** The similarity of a vector with itself when its sum of squares is
    computed as infinity: [Infinity / (Infinity * Infinity)], NaN. *)
Lemma cosineSimilarity_self_overflow (a : list float) :
  sumSquares a = infinity -> cosineSimilarity a a = nan.
Proof.
  intros Hm. rewrite cosineSimilarity_self. cbv zeta. rewrite Hm.
  reflexivity.
Qed.

(** C9, as the code has it: the similarity is commutative; it is exactly [0]
    as soon as one of the two vectors is all zeros; the similarity of a
    vector with itself is within [2^-48] of [1] whenever the sum of squares
    that the loop computes is positive and below infinity; it is NaN when
    that sum is infinity, and [0] when that sum is a zero. *)
Theorem cosineSimilarity_properties :
  (forall a b : list float, cosineSimilarity a b = cosineSimilarity b a) /\
  (forall a b : list float,
      zeroVector a = true \/ zeroVector b = true ->
      cosineSimilarity a b = 0%float) /\
  (forall a : list float,
      (0 <? sumSquares a)%float = true ->
      (sumSquares a <? infinity)%float = true ->
      (abs (cosineSimilarity a a - 1) <=? 0x1p-48)%float = true) /\
  (forall a : list float,
      sumSquares a = infinity -> cosineSimilarity a a = nan) /\
  (forall a : list float,
      (sumSquares a =? 0)%float = true -> cosineSimilarity a a = 0%float).
Proof.
  split; [exact cosineSimilarity_comm|]. split; [|split; [|split]].
  - intros a b [Hz | Hz].
    + apply cosineSimilarity_zero_left, Hz.
    + rewrite cosineSimilarity_comm. apply cosineSimilarity_zero_left, Hz.
  - intros a Hpos Hfin. rewrite cosineSimilarity_self. cbv zeta.
    destruct (Binary64Rounding.positive_finite_spec _ Hpos Hfin) as [-> _].
    apply Binary64Rounding.self_quotient_near_one; assumption.
  - exact cosineSimilarity_self_overflow.
  - intros a Hz. rewrite cosineSimilarity_self. cbv zeta. rewrite Hz.
    reflexivity.
Qed.

(** The properties at vectors of the tests and beside them: a zero vector
    gives [0] on either side; [[3, 4]], [[0.1, 0.7]] and the subnormal
    [[2^-530]] with themselves are within [2^-48] of [1]; [[2^600]] with
    itself gives NaN and [[2^-600]] with itself gives [0]. *)
Lemma cosineSimilarity_properties_witness :
  cosineSimilarity [1; 0]%float [0; 0]%float = 0%float /\
  cosineSimilarity [0; 0]%float [1; 0]%float = 0%float /\
  (abs (cosineSimilarity [3; 4]%float [3; 4]%float - 1)
     <=? 0x1p-48)%float = true /\
  (abs (cosineSimilarity [0x1.999999999999ap-4; 0x1.6666666666666p-1]%float
                         [0x1.999999999999ap-4; 0x1.6666666666666p-1]%float - 1)
     <=? 0x1p-48)%float = true /\
  (abs (cosineSimilarity [0x1p-530%float] [0x1p-530%float] - 1)
     <=? 0x1p-48)%float = true /\
  cosineSimilarity [0x1p+600%float] [0x1p+600%float] = nan /\
  cosineSimilarity [0x1p-600%float] [0x1p-600%float] = 0%float.
Proof.
  destruct cosineSimilarity_properties
    as (Hcomm & Hzero & Hnear & Hover & Hunder).
  split; [apply Hzero; right; reflexivity|].
  split; [apply Hzero; left; reflexivity|].
  split; [apply Hnear; reflexivity|].
  split; [apply Hnear; reflexivity|].
  split; [apply Hnear; reflexivity|].
  split; [apply Hover; reflexivity|].
  apply Hunder; reflexivity.
Defined.

(** C9 as stated fails: the vector [[2^600]] is not a zero vector, yet its
    sum of squares overflows to infinity and its similarity with itself is
    NaN, not within any tolerance of [1]. *)
Lemma self_similarity_overflow :
  zeroVector [0x1p+600%float] = false /\
  cosineSimilarity [0x1p+600%float] [0x1p+600%float] = nan /\
  (abs (cosineSimilarity [0x1p+600%float] [0x1p+600%float] - 1)
     <=? 0x1p-17)%float = false.
Proof. repeat split; reflexivity. Qed.

(** The same at the other end of the range: the square of [2^-600]
    underflows to [0] and the similarity is [0]. *)
Lemma self_similarity_underflow :
  zeroVector [0x1p-600%float] = false /\
  cosineSimilarity [0x1p-600%float] [0x1p-600%float] = 0%float.
Proof. split; reflexivity. Qed.

End Cosine.

(** ** scoreEntry, field by field *)

Section ScoreFields.
Context `{Platform} {W EE : Type}.
Variables (requested cached : Params) (fuzzy : FuzzyParamsSpec).
Variable embed : EmbedFn W EE.

(** A field without a rule. *)
Lemma scoreFields_exact_field key keys s x (w : W) :
  fuzzy !! key = None ->
  inheritedKey key = false ->
  scoreFields requested cached fuzzy embed (key :: keys) s x w =
  if Equal_equals (getField requested key) (getField cached key)
  then scoreFields requested cached fuzzy embed keys (s + 1)%float x w
  else (Success disqualified, w).
Proof.
  intros Hk Hown. cbn [scoreFields]. rewrite Hk, Hown.
  destruct (Equal_equals _ _); reflexivity.
Qed.

(** A field without a rule whose name is a member of [Object.prototype] is
    passed over. *)
Lemma scoreFields_inherited_field key keys s x (w : W) :
  fuzzy !! key = None ->
  inheritedKey key = true ->
  scoreFields requested cached fuzzy embed (key :: keys) s x w =
  scoreFields requested cached fuzzy embed keys s x w.
Proof. intros Hk Hin. cbn [scoreFields]. rewrite Hk, Hin. reflexivity. Qed.


Lemma append_inj_l (p s1 s2 : string) : (p ++ s1 = p ++ s2)%string -> s1 = s2.
Proof.
  induction p as [|ch p IH]; simpl; intros Heq; [exact Heq|].
  injection Heq as Heq. apply IH, Heq.
Qed.

Lemma URL_toString_inj_fragment (ua ub : URL) :
  url_base ua = url_base ub ->
  (URL_toString ua = URL_toString ub <-> url_fragment ua = url_fragment ub).
Proof.
  intros Hb. unfold URL_toString. rewrite Hb. split.
  - intros Heq. apply append_inj_l in Heq.
    destruct (url_fragment ua) as [fa|], (url_fragment ub) as [fb|];
      cbv [String.append] in Heq; try discriminate; [|reflexivity].
    injection Heq as ->. reflexivity.
  - intros ->. reflexivity.
Qed.

Lemma strictEquals_VStr (a b : string) :
  strictEquals (VStr a) (VStr b) = true <-> a = b.
Proof. simpl. apply String.eqb_eq. Qed.

Lemma normalizeUrl_parsed (a : string) (ua : URL) (spec : ExactURLSpec) :
  parseURL a = Some ua ->
  normalizeUrl (VStr a) spec =
  VStr (URL_toString (if truthy (excludeHash spec) then URL_clearHash ua
                      else ua)).
Proof. intros Hp. unfold normalizeUrl. simpl. rewrite Hp. reflexivity. Qed.

(** The normal forms of two URLs that differ in the fragment at most: equal
    when the fragment is excluded, and otherwise equal exactly when the
    parsed fragments are. *)
Lemma normalizeUrl_sameUpToFragment (a b : string) (ua ub : URL) spec :
  parseURL a = Some ua -> parseURL b = Some ub ->
  url_base ua = url_base ub ->
  (normalizeUrl (VStr a) spec = normalizeUrl (VStr b) spec <->
   truthy (excludeHash spec) = true \/ url_fragment ua = url_fragment ub).
Proof.
  intros Ha Hb Hbase.
  rewrite (normalizeUrl_parsed a ua spec Ha), (normalizeUrl_parsed b ub spec Hb).
  destruct (truthy (excludeHash spec)).
  - split; [auto|]. intros _. unfold URL_toString, URL_clearHash. simpl.
    rewrite Hbase. reflexivity.
  - split.
    + intros Heq. right. injection Heq as Heq.
      apply (URL_toString_inj_fragment ua ub Hbase), Heq.
    + intros [Hf | Hf]; [discriminate|].
      f_equal. apply (URL_toString_inj_fragment ua ub Hbase), Hf.
Qed.

(** C6, as the code has it: for a requested URL [a] and a stored URL [b]
    that the platform parses to the same URL up to the fragment, the
    [ExactURL] rule with [excludeHash: true] finds the normal forms equal and
    goes on with the score raised by one; with [excludeHash] false or unset
    the normal forms are equal exactly when the parsed fragments are equal
    (so always when [a] and [b] are the same string), the loop going on in
    that case and disqualifying the candidate otherwise. *)
Theorem exactURL_field key keys s x (a b : string) (ua ub : URL)
    (spec : ExactURLSpec) (w : W) :
  fuzzy !! key = Some (ExactURL spec) ->
  getField requested key = VStr a ->
  getField cached key = VStr b ->
  parseURL a = Some ua -> parseURL b = Some ub ->
  url_base ua = url_base ub ->
  (truthy (excludeHash spec) = true ->
     normalizeUrl (VStr a) spec = normalizeUrl (VStr b) spec /\
     scoreFields requested cached fuzzy embed (key :: keys) s x w
     = scoreFields requested cached fuzzy embed keys (s + 1)%float x w) /\
  (truthy (excludeHash spec) = false ->
     (normalizeUrl (VStr a) spec = normalizeUrl (VStr b) spec <->
      url_fragment ua = url_fragment ub) /\
     (a = b -> url_fragment ua = url_fragment ub) /\
     scoreFields requested cached fuzzy embed (key :: keys) s x w
     = if decide (url_fragment ua = url_fragment ub)
       then scoreFields requested cached fuzzy embed keys (s + 1)%float x w
       else (Success disqualified, w)).
Proof.
  intros Hk Hr Hc Ha Hb Hbase.
  pose proof (normalizeUrl_sameUpToFragment a b ua ub spec Ha Hb Hbase) as Hn.
  cbn [scoreFields]. rewrite Hk, Hr, Hc. cbv zeta.
  rewrite (normalizeUrl_parsed a ua spec Ha), (normalizeUrl_parsed b ub spec Hb)
    in *.
  split; intros Ht; rewrite Ht in *.
  - assert (Heq : VStr (URL_toString (URL_clearHash ua))
                  = VStr (URL_toString (URL_clearHash ub)))
      by (apply Hn; auto).
    split; [exact Heq|].
    injection Heq as Heq. rewrite Heq. simpl. rewrite String.eqb_refl.
    reflexivity.
  - split; [|split].
    + rewrite Hn. split; [intros [Hf | Hf]; [discriminate | exact Hf] | auto].
    + intros ->. rewrite Ha in Hb. injection Hb as ->. reflexivity.
    + destruct (decide (url_fragment ua = url_fragment ub)) as [Hf | Hf].
      * assert (Heq : VStr (URL_toString ua) = VStr (URL_toString ub))
          by (apply Hn; auto).
        injection Heq as Heq. rewrite Heq. simpl. rewrite String.eqb_refl.
        reflexivity.
      * destruct (strictEquals (VStr (URL_toString ua))
                               (VStr (URL_toString ub))) eqn:Hs;
          [|reflexivity].
        apply strictEquals_VStr in Hs. exfalso. apply Hf.
        assert (Hor : false = true \/ url_fragment ua = url_fragment ub)
          by (apply Hn; f_equal; exact Hs).
        destruct Hor as [Hor | Hor]; [discriminate | exact Hor].
Qed.

End ScoreFields.

(** ** matchBestEntry *)

Section MatchBest.
Context `{Platform} {W EE E A : Type}.
Variables (requested : Params) (fuzzy : FuzzyParamsSpec).
Variable embed : EmbedFn W EE.

(** The loop scores the entries in order and then picks among them. *)
Lemma bestLoop_scoreAll (l : list (CacheEntry E A)) best (w : W) :
  bestLoop requested fuzzy embed l best w =
  (let* rs := scoreAll requested fuzzy embed l in
   succeed (pickBest (combine l rs) best)) w.
Proof.
  revert best w. induction l as [|e l IH]; intros best w; [reflexivity|].
  cbn [bestLoop scoreAll]. unfold bind, succeed.
  destruct (scoreEntry requested (entry_params e) fuzzy embed w)
    as [[r | c] w1]; [|reflexivity].
  destruct (negb (ok r)) eqn:Hok;
    [|destruct (replacesBest best r) eqn:Hrep];
    rewrite IH; unfold bind, succeed;
    destruct (scoreAll requested fuzzy embed l w1) as [[rs | c] w2];
    try reflexivity;
    cbn [combine pickBest]; rewrite Hok; try rewrite Hrep; reflexivity.
Qed.

(** Whatever is picked is the running best or one of the scored entries. *)
Lemma pickBest_origin (scored : list (CacheEntry E A * ScoreResult)) best b :
  pickBest scored best = Some b ->
  best = Some b \/ In (best_entry b) (map fst scored).
Proof.
  revert best. induction scored as [|[e r] scored IH]; intros best Hp.
  - left. exact Hp.
  - cbn [pickBest] in Hp. cbn [map fst In].
    destruct (negb (ok r)).
    + destruct (IH _ Hp) as [Hb | Hin]; auto.
    + destruct (replacesBest best r).
      * destruct (IH _ Hp) as [Hb | Hin]; [|auto].
        injection Hb as <-. right. left. reflexivity.
      * destruct (IH _ Hp) as [Hb | Hin]; auto.
Qed.

Lemma In_map_fst_combine {X Y} (l : list X) (l' : list Y) x :
  In x (map fst (combine l l')) -> In x l.
Proof.
  revert l'. induction l as [|a l IH]; intros [|b l'] Hin; simpl in *;
    try contradiction.
  destruct Hin as [-> | Hin]; [left; reflexivity | right; eapply IH, Hin].
Qed.

(** Once the running best scores at least as much as every usable entry
    still to come, it stays. *)
Lemma pickBest_keeps (scored : list (CacheEntry E A * ScoreResult)) b :
  (forall e r, In (e, r) scored -> ok r = true ->
               (score r <=? best_score b)%float = true) ->
  pickBest scored (Some b) = Some b.
Proof.
  induction scored as [|[e r] scored IH]; intros Hle; [reflexivity|].
  cbn [pickBest]. destruct (ok r) eqn:Hok; simpl.
  - unfold gtb.
    rewrite (Binary64.leb_not_gt _ _ (Hle e r (or_introl eq_refl) Hok)).
    apply IH. intros e' r' Hin. apply (Hle e' r'). right. exact Hin.
  - apply IH. intros e' r' Hin. apply (Hle e' r'). right. exact Hin.
Qed.

(** While every usable entry scores strictly less than [s], so does the
    running best. *)
Lemma pickBest_below (scored : list (CacheEntry E A * ScoreResult)) best s :
  (forall e r, In (e, r) scored -> ok r = true ->
               (score r <? s)%float = true) ->
  (forall b, best = Some b -> (best_score b <? s)%float = true) ->
  forall b, pickBest scored best = Some b -> (best_score b <? s)%float = true.
Proof.
  revert best. induction scored as [|[e r] scored IH]; intros best Hlt Hbest b Hp.
  - apply Hbest, Hp.
  - cbn [pickBest] in Hp.
    assert (Hrest : forall e' r', In (e', r') scored -> ok r' = true ->
                                  (score r' <? s)%float = true)
      by (intros e' r' Hin; apply (Hlt e' r'); right; exact Hin).
    destruct (ok r) eqn:Hok; simpl in Hp.
    + destruct (replacesBest best r).
      * apply (IH _ Hrest) with (b := b) in Hp; [exact Hp|].
        intros b' Hb'. injection Hb' as <-. simpl.
        apply (Hlt e r); [left; reflexivity | exact Hok].
      * apply (IH _ Hrest Hbest b Hp).
    + apply (IH _ Hrest Hbest b Hp).
Qed.

Lemma combine_app_same_length {X Y} (l1 l2 : list X) (r1 r2 : list Y) :
  length r1 = length l1 ->
  combine (l1 ++ l2) (r1 ++ r2) = (combine l1 r1 ++ combine l2 r2)%list.
Proof.
  revert r1. induction l1 as [|a l1 IH]; intros [|b r1] Hlen; simpl in *;
    try discriminate; [reflexivity|].
  f_equal. apply IH. lia.
Qed.

Lemma pickBest_app (s1 s2 : list (CacheEntry E A * ScoreResult)) best :
  pickBest (s1 ++ s2) best = pickBest s2 (pickBest s1 best).
Proof.
  revert best. induction s1 as [|[e r] s1 IH]; intros best; [reflexivity|].
  cbn [app pickBest]. destruct (negb (ok r)); [apply IH|].
  destruct (replacesBest best r); apply IH.
Qed.

(** The earliest entry whose score is maximal is the one picked. *)
Lemma pickBest_first_max (l1 l2 : list (CacheEntry E A)) e
    (rs1 rs2 : list ScoreResult) r :
  length rs1 = length l1 ->
  ok r = true ->
  (forall r', In r' rs1 -> ok r' = true -> (score r' <? score r)%float = true) ->
  (forall r', In r' rs2 -> ok r' = true -> (score r' <=? score r)%float = true) ->
  pickBest (combine (l1 ++ e :: l2) (rs1 ++ r :: rs2)) None
  = Some {| best_entry := e; best_score := score r; best_exact := exact r |}.
Proof.
  intros Hlen Hok Hbefore Hafter.
  rewrite (combine_app_same_length l1 (e :: l2) rs1 (r :: rs2) Hlen).
  rewrite pickBest_app. cbn [combine pickBest]. rewrite Hok. cbn [negb].
  assert (Hrep : replacesBest (pickBest (combine l1 rs1) None) r = true).
  { destruct (pickBest (combine l1 rs1) None) as [b|] eqn:Hp; [|reflexivity].
    simpl. unfold gtb.
    apply (pickBest_below (combine l1 rs1) None (score r)) with (b := b).
    - intros e' r' Hin. apply Hbefore. eapply in_combine_r, Hin.
    - discriminate.
    - exact Hp. }
  rewrite Hrep. apply pickBest_keeps. simpl.
  intros e' r' Hin. apply Hafter. eapply in_combine_r, Hin.
Qed.

End MatchBest.

Section MatchBestEntry.
Context `{Platform} {W EE E A : Type}.

(** [matchBestEntry] scores the fresh entries, in order, and picks among
    them. *)
Lemma matchBestEntry_scoreAll (args : MatchArgs W EE E A) (w : W) :
  matchBestEntry args w =
  (let fresh := List.filter (isFresh (now args) (ttl args)) (entries args) in
   let* rs := scoreAll (params args) (default ∅ (args_fuzzyParams args))
                (args_embed args) fresh in
   succeed (toMatchResult (pickBest (combine fresh rs) None))) w.
Proof.
  unfold matchBestEntry. cbv zeta.
  destruct (List.filter (isFresh (now args) (ttl args)) (entries args))
    as [|e fresh] eqn:Hf; [reflexivity|].
  cbn [length Nat.eqb]. unfold bind at 1.
  rewrite bestLoop_scoreAll. unfold bind, succeed.
  destruct (scoreAll _ _ _ (e :: fresh) w) as [[rs | c] w1]; reflexivity.
Qed.

Lemma isFresh_spec (t l : Z) (e : CacheEntry E A) :
  isFresh t l e = true <-> t - createdAt e <= l.
Proof. unfold isFresh. apply Z.leb_le. Qed.

(** A safe integer is between [-2^53] and [2^53]. *)
Lemma safeInteger_spec (z : Z) :
  safeInteger z = true <-> - 2 ^ 53 <= z <= 2 ^ 53.
Proof.
  unfold safeInteger. rewrite andb_true_iff, !Z.leb_le. reflexivity.
Qed.

(** On safe times the filter of binary64 keeps the entries that the filter
    on the integers keeps. *)
Lemma isFreshNumber_isFresh (args : MatchArgs W EE E A) :
  safeTimes args = true ->
  List.filter (isFreshNumber (now args) (ttl args)) (entries args)
  = List.filter (isFresh (now args) (ttl args)) (entries args).
Proof.
  unfold safeTimes. rewrite !andb_true_iff, forallb_forall.
  intros [[Hnow Httl] Hentries]. apply List.filter_ext_in. intros e He.
  specialize (Hentries e He). apply andb_true_iff in Hentries as [Hc Hage].
  apply safeInteger_spec in Hnow, Httl, Hc, Hage.
  apply Binary64Integers.leb_sub_integers; assumption.
Qed.

(** C7: on safe times, [matchBestEntry] scores exactly the entries that the
    binary64 test [now - createdAt <= ttl] keeps, and picks among them;
    these are the entries with [now - createdAt <= ttl] on the integers, the
    boundary included; a match is one of these entries; and when every entry
    is older, as when there is none, the result is [null] and nothing else
    happens. *)
Theorem matchBestEntry_ttl_filter (args : MatchArgs W EE E A) (w : W) :
  safeTimes args = true ->
  let fresh :=
    List.filter (fun e => (numberOfZ (now args) - numberOfZ (createdAt e)
                           <=? numberOfZ (ttl args))%float) (entries args) in
  matchBestEntry args w =
    (let* rs := scoreAll (params args) (default ∅ (args_fuzzyParams args))
                  (args_embed args) fresh in
     succeed (toMatchResult (pickBest (combine fresh rs) None))) w
  /\ (forall e, In e fresh <->
                In e (entries args) /\ now args - createdAt e <= ttl args)
  /\ (forall m w', matchBestEntry args w = (Success (Some m), w') ->
                   In (entry m) (entries args) /\
                   now args - createdAt (entry m) <= ttl args)
  /\ ((forall e, In e (entries args) -> ttl args < now args - createdAt e) ->
      matchBestEntry args w = (Success None, w)).
Proof.
  intros Hsafe. cbv zeta.
  change (fun e : CacheEntry E A =>
            (numberOfZ (now args) - numberOfZ (createdAt e)
             <=? numberOfZ (ttl args))%float)
    with (@isFreshNumber E A (now args) (ttl args)).
  rewrite (isFreshNumber_isFresh args Hsafe).
  assert (Hin : forall e,
             In e (List.filter (isFresh (now args) (ttl args)) (entries args))
             <-> In e (entries args) /\ now args - createdAt e <= ttl args).
  { intros e. rewrite List.filter_In, isFresh_spec. reflexivity. }
  split; [apply matchBestEntry_scoreAll|]. split; [exact Hin|]. split.
  - intros m w' Hm. apply Hin.
    rewrite matchBestEntry_scoreAll in Hm. cbv zeta in Hm.
    unfold bind, succeed in Hm.
    destruct (scoreAll _ _ _ _ w) as [[rs | c] w1]; [|discriminate].
    injection Hm as Hm _.
    destruct (pickBest _ None) as [b|] eqn:Hp; [|discriminate].
    injection Hm as <-. simpl.
    destruct (pickBest_origin _ _ _ Hp) as [Hb | Hb]; [discriminate|].
    eapply In_map_fst_combine, Hb.
  - intros Hold. unfold matchBestEntry. cbv zeta.
    assert (Hnil : List.filter (isFresh (now args) (ttl args)) (entries args)
                   = []).
    { destruct (List.filter _ _) as [|e l] eqn:Hf; [reflexivity|].
      destruct (proj1 (Hin e) (or_introl eq_refl)) as [He Hfresh].
      specialize (Hold e He). lia. }
    rewrite Hnil. reflexivity.
Qed.

(** C10, as the code has it: ties go to the first seen whenever there is a
    greatest score.  When the scores of the fresh entries are
    [rs1 ++ r :: rs2], the entry [e] scored [r] is usable, every usable
    entry scores [<=] the score of [r] (which no score does once a usable
    entry scores NaN), and no usable entry before [e] scores as much, then
    [matchBestEntry] returns [e]. *)
Theorem matchBestEntry_first_seen_wins (args : MatchArgs W EE E A) (w w' : W)
    (l1 l2 : list (CacheEntry E A)) (e : CacheEntry E A)
    (rs1 rs2 : list ScoreResult) (r : ScoreResult) :
  List.filter (fun e => now args - createdAt e <=? ttl args) (entries args)
    = (l1 ++ e :: l2)%list ->
  scoreAll (params args) (default ∅ (args_fuzzyParams args)) (args_embed args)
    (l1 ++ e :: l2) w = (Success (rs1 ++ r :: rs2)%list, w') ->
  length rs1 = length l1 ->
  ok r = true ->
  (forall r', In r' (rs1 ++ rs2) -> ok r' = true ->
              (score r' <=? score r)%float = true) ->
  (forall r', In r' rs1 -> ok r' = true ->
              (score r' =? score r)%float = false) ->
  matchBestEntry args w =
  (Success
     (Some {| entry := e;
              hitMeta := {| kind := if exact r then exact_hit else fuzzy_hit;
                            hit_score := score r |} |}),
   w').
Proof.
  intros Hfresh Hscores Hlen Hok Hmax Hfirst.
  rewrite matchBestEntry_scoreAll. cbv zeta.
  change (@isFresh E A (now args) (ttl args))
    with (fun e : CacheEntry E A => now args - createdAt e <=? ttl args).
  rewrite Hfresh. unfold bind, succeed. rewrite Hscores.
  rewrite (pickBest_first_max l1 l2 e rs1 rs2 r Hlen Hok); [reflexivity| |].
  - intros r' Hin Hok'. apply Binary64.leb_neq_ltb.
    + apply Hmax; [apply in_or_app; left; exact Hin | exact Hok'].
    + apply Hfirst; assumption.
  - intros r' Hin Hok'.
    apply Hmax; [apply in_or_app; right; exact Hin | exact Hok'].
Qed.

End MatchBestEntry.

(** ** Matching without fuzzy rules *)

Section NoRules.
Context `{Platform} {W EE E A : Type}.
Variable embed : EmbedFn W EE.

Lemma scoreFields_no_rules (requested cached : Params) keys s x (w : W) :
  scoreFields requested cached ∅ embed keys s x w =
  (Success
     (if forallb (fun key => inheritedKey key ||
                             Equal_equals (getField requested key)
                                          (getField cached key)) keys
      then {| ok := true;
              score := fold_left (fun s (_ : string) => (s + 1)%float)
                         (scoredKeys ∅ keys) s;
              exact := x |}
      else disqualified),
   w).
Proof.
  revert s. induction keys as [|key keys IH]; intros s; [reflexivity|].
  unfold scoredKeys. cbn [forallb List.filter]. rewrite lookup_empty.
  destruct (inheritedKey key) eqn:Hin; cbn [negb orb].
  - rewrite scoreFields_inherited_field by (apply lookup_empty || exact Hin).
    apply IH.
  - rewrite scoreFields_exact_field by (apply lookup_empty || exact Hin).
    cbn [fold_left].
    destruct (Equal_equals _ _); [apply IH | reflexivity].
Qed.

Lemma scoreEntry_no_rules (requested cached : Params) (w : W) :
  scoreEntry requested cached ∅ embed w
  = (Success (scoreNoRules requested cached), w).
Proof. unfold scoreEntry. rewrite scoreFields_no_rules. reflexivity. Qed.

Lemma scoreAll_no_rules (requested : Params) (l : list (CacheEntry E A))
    (w : W) :
  scoreAll requested ∅ embed l w
  = (Success (map (fun e => scoreNoRules requested (entry_params e)) l), w).
Proof.
  induction l as [|e l IH]; [reflexivity|].
  cbn [scoreAll map]. unfold bind, succeed.
  rewrite scoreEntry_no_rules, IH. reflexivity.
Qed.

Lemma scoreNoRules_ok (requested cached : Params) :
  ok (scoreNoRules requested cached) = exactMatch requested cached.
Proof. unfold scoreNoRules. destruct (exactMatch _ _); reflexivity. Qed.

Lemma scoreNoRules_usable (requested cached : Params) :
  exactMatch requested cached = true ->
  scoreNoRules requested cached =
  {| ok := true; score := fieldCount (scoredKeys ∅ (objectKeys requested));
     exact := true |}.
Proof. unfold scoreNoRules. intros ->. reflexivity. Qed.

(** All usable entries score the same, so the running best never changes. *)
Lemma pickBest_no_rules_some (requested : Params) (l : list (CacheEntry E A))
    (b : Best E A) :
  best_score b = fieldCount (scoredKeys ∅ (objectKeys requested)) ->
  pickBest (combine l (map (fun e => scoreNoRules requested (entry_params e)) l))
    (Some b) = Some b.
Proof.
  intros Hb. induction l as [|e l IH]; [reflexivity|].
  cbn [map combine pickBest]. rewrite scoreNoRules_ok.
  destruct (exactMatch requested (entry_params e)) eqn:Hm; cbn [negb];
    [|exact IH].
  rewrite (scoreNoRules_usable _ _ Hm). cbn [replacesBest score].
  unfold gtb. rewrite Hb, Binary64.ltb_irrefl. exact IH.
Qed.

Lemma pickBest_no_rules (requested : Params) (l : list (CacheEntry E A)) :
  pickBest (combine l (map (fun e => scoreNoRules requested (entry_params e)) l))
    None
  = option_map
      (fun e => {| best_entry := e;
                   best_score := fieldCount (scoredKeys ∅ (objectKeys requested));
                   best_exact := true |})
      (List.find (fun e => exactMatch requested (entry_params e)) l).
Proof.
  induction l as [|e l IH]; [reflexivity|].
  cbn [map combine pickBest List.find]. rewrite scoreNoRules_ok.
  destruct (exactMatch requested (entry_params e)) eqn:Hm; cbn [negb];
    [|exact IH].
  rewrite (scoreNoRules_usable _ _ Hm). cbn [replacesBest score exact option_map].
  apply pickBest_no_rules_some. reflexivity.
Qed.

(** Without rules, [matchBestEntry] returns the first fresh entry whose
    parameters equal the requested ones, as an exact hit, and touches
    nothing. *)
Lemma matchBestEntry_no_rules (args : MatchArgs W EE E A) (w : W) :
  args_embed args = embed ->
  args_fuzzyParams args = None ->
  matchBestEntry args w =
  (Success
     (option_map
        (fun e => {| entry := e;
                     hitMeta := {| kind := exact_hit;
                                   hit_score :=
                                     fieldCount
                                       (scoredKeys ∅
                                          (objectKeys (params args))) |} |})
        (lookupExact (now args) (ttl args) (params args) (entries args))),
   w).
Proof.
  intros Hembed Hnone. rewrite matchBestEntry_scoreAll. cbv zeta.
  rewrite Hembed, Hnone. cbn [default]. unfold bind, succeed.
  rewrite scoreAll_no_rules, pickBest_no_rules. unfold lookupExact.
  destruct (List.find _ _); reflexivity.
Qed.

End NoRules.

(** ** The store, the embeddings and the wrapper *)

(** Counting the events of a trace that grew by a known list. *)
Ltac count_events :=
  unfold fnCalls, rawEmbedCalls, storeAccesses, logEvent, setClock;
  cbn [trace];
  rewrite ?List.filter_app, ?length_app; simpl; lia.

Section Service.
Context `{Platform} {U E A EE : Type}.
Variable rawEmbed : RawEmbedFn U EE.
Variable fn : WrappedFn U E A.

Lemma exitToEffect_run {W' E' A'} (x : Exit E' A') (w : W') :
  exitToEffect x w = (x, w).
Proof. destruct x; reflexivity. Qed.


(** One call of the wrapper without fuzzy rules: a hit replays the stored
    outcome after one read of the store; a miss invokes the function once
    and appends its outcome. *)
Lemma withCaching_no_rules (config : WithCachingConfig) (p : Params)
    (w : World U E A) :
  invalidTtl config = false ->
  fuzzyParams config = None ->
  withCaching rawEmbed fn config p w =
  let name := cacheName config in
  let old := stored name w in
  match lookupExact (clock w) (default DEFAULT_TTL_MILLIS (ttlMillis config))
                    p old with
  | Some e => (outcome e, logEvent (StoreGetAll name) w)
  | None =>
      let '(r, u') := fn p (outside w) in
      (r, {| clock := clock w;
             mapRef := <[name := (old ++ [{| entry_params := p; outcome := r;
                                             createdAt := clock w |}])%list]>
                         (mapRef w);
             cacheRef := cacheRef w;
             outside := u';
             trace := (trace w ++ [StoreGetAll name; FnCall p; StorePut name])%list
          |})
  end.
Proof.
  intros Hvalid Hnone. unfold withCaching. rewrite Hvalid. cbv zeta.
  unfold bind at 1. unfold currentEpochMillis at 1.
  unfold bind at 1. unfold getAll at 1.
  unfold bind at 1. unfold widen.
  rewrite (matchBestEntry_no_rules (embed rawEmbed)); [|reflexivity|exact Hnone].
  cbn [now ttl params entries]. fold (stored (cacheName config) w).
  destruct (lookupExact _ _ p (stored (cacheName config) w)) as [e|];
    cbn [option_map].
  - apply exitToEffect_run.
  - unfold bind, exit, callOutside, put, logEvent. cbn [outside].
    destruct (fn p (outside w)) as [r u']. cbn.
    rewrite exitToEffect_run. unfold stored. rewrite <- !app_assoc.
    reflexivity.
Qed.

End Service.

(** ** Two calls with the same parameters *)

Section ExactReuse.
Context `{Platform} {U E A EE : Type}.
Variable rawEmbed : RawEmbedFn U EE.
Variable fn : WrappedFn U E A.

Lemma find_app {X} (f : X -> bool) (l1 l2 : list X) :
  List.find f (l1 ++ l2) =
  match List.find f l1 with
  | Some x => Some x
  | None => List.find f l2
  end.
Proof.
  induction l1 as [|x l1 IH]; [reflexivity|].
  simpl. destruct (f x); [reflexivity | exact IH].
Qed.

(** After a miss at [t1], a lookup at a later [t2] within the TTL finds the
    entry the miss stored: no older entry can have become usable. *)
Lemma lookupExact_after_miss (t1 t2 l : Z) (p : Params) (r : Exit E A)
    (old : list (CacheEntry E A)) :
  lookupExact t1 l p old = None ->
  t1 <= t2 -> t2 - t1 <= l ->
  exactMatch p p = true ->
  lookupExact t2 l p
    (old ++ [{| entry_params := p; outcome := r; createdAt := t1 |}])
  = Some {| entry_params := p; outcome := r; createdAt := t1 |}.
Proof.
  unfold lookupExact. intros Hmiss Hle Hin Hself.
  rewrite List.filter_app, find_app.
  destruct (List.find _ (List.filter (isFresh t2 l) old)) as [e|] eqn:Hfind.
  - exfalso. apply List.find_some in Hfind as [He Hmatch].
    apply List.filter_In in He as [He Hfresh].
    assert (Hno : exactMatch p (entry_params e) = false).
    { apply (List.find_none _ _ Hmiss e).
      apply List.filter_In. split; [exact He|].
      unfold isFresh in *. apply Z.leb_le in Hfresh. apply Z.leb_le. lia. }
    rewrite Hno in Hmatch. discriminate.
  - cbn [List.filter].
    replace (isFresh t2 l {| entry_params := p; outcome := r; createdAt := t1 |})
      with true by (symmetry; apply Z.leb_le; simpl; lia).
    cbn [List.find entry_params]. rewrite Hself. reflexivity.
Qed.

(** A call without fuzzy rules invokes the function at most once. *)
Lemma withCaching_no_rules_calls (config : WithCachingConfig) (p : Params)
    (w : World U E A) :
  invalidTtl config = false ->
  fuzzyParams config = None ->
  (fnCalls (snd (withCaching rawEmbed fn config p w)) <= fnCalls w + 1)%nat.
Proof.
  intros Hvalid Hnone.
  rewrite (withCaching_no_rules rawEmbed fn config p w Hvalid Hnone). cbv zeta.
  destruct (lookupExact _ _ p _) as [e|].
  - cbn [snd]. count_events.
  - destruct (fn p (outside w)) as [r u']. cbn [snd]. count_events.
Qed.

(** C1, as the code has it: with no fuzzy rule and parameters [p] none of
    whose fields differs from itself under [Equal.equals] (no NaN), two
    calls in a row (the clock does not run backwards), the second within the
    TTL of the first, invoke the function at most once; when the first one
    invoked it, the second one does not, and returns the outcome the first
    one returned and stored. *)
Theorem withCaching_exact_twice (config : WithCachingConfig) (p : Params)
    (w0 : World U E A) (t1 t2 : Z) :
  invalidTtl config = false ->
  fuzzyParams config = None ->
  exactMatch p p = true ->
  t1 <= t2 ->
  t2 - t1 <= default DEFAULT_TTL_MILLIS (ttlMillis config) ->
  let '(r1, w1) := withCaching rawEmbed fn config p (setClock t1 w0) in
  let '(r2, w2) := withCaching rawEmbed fn config p (setClock t2 w1) in
  (fnCalls w2 <= fnCalls w0 + 1)%nat /\
  (fnCalls w1 = S (fnCalls w0) ->
   fnCalls w2 = fnCalls w1 /\
   r2 = r1 /\
   In {| entry_params := p; outcome := r1; createdAt := t1 |}
      (stored (cacheName config) w1)).
Proof.
  intros Hvalid Hnone Hself Hle Hin.
  pose proof (withCaching_no_rules_calls config p (setClock t2
                (snd (withCaching rawEmbed fn config p (setClock t1 w0))))
                Hvalid Hnone) as Hsecond.
  destruct (withCaching rawEmbed fn config p (setClock t1 w0))
    as [r1 w1] eqn:Hfirst.
  rewrite (withCaching_no_rules rawEmbed fn config p _ Hvalid Hnone) in Hfirst.
  cbv zeta in Hfirst. cbn [snd] in Hsecond.
  change (stored (cacheName config) (setClock t1 w0))
    with (stored (cacheName config) w0) in Hfirst.
  cbn [setClock clock outside trace mapRef cacheRef] in Hfirst.
  destruct (lookupExact t1 _ p (stored (cacheName config) w0)) as [e|] eqn:Hlook.
  - (* the first call is a hit *)
    injection Hfirst as <- <-.
    destruct (withCaching rawEmbed fn config p _) as [r2 w2].
    cbn [snd] in Hsecond.
    assert (Hsame : fnCalls (setClock t2
                      (logEvent (StoreGetAll (cacheName config))
                         (setClock t1 w0))) = fnCalls w0).
    { count_events. }
    assert (Hsame1 : fnCalls (logEvent (StoreGetAll (cacheName config))
                                (setClock t1 w0)) = fnCalls w0).
    { count_events. }
    split; [lia|]. intros Hcalled. lia.
  - (* the first call is a miss *)
    destruct (fn p (outside w0)) as [r u'] eqn:Hfn.
    injection Hfirst as <- <-.
    set (w1 := {| clock := t1;
                  mapRef := <[cacheName config :=
                               (stored (cacheName config) w0 ++
                                [{| entry_params := p; outcome := r;
                                    createdAt := t1 |}])%list]>
                              (mapRef w0);
                  cacheRef := cacheRef w0; outside := u';
                  trace := (trace w0 ++
                              [StoreGetAll (cacheName config); FnCall p;
                               StorePut (cacheName config)])%list |}) in *.
    assert (Hstored : stored (cacheName config) w1
                      = (stored (cacheName config) w0 ++
                         [{| entry_params := p; outcome := r;
                             createdAt := t1 |}])%list).
    { unfold stored, w1. cbn [mapRef]. rewrite lookup_insert_eq. reflexivity. }
    assert (Hcalls1 : fnCalls w1 = S (fnCalls w0)).
    { subst w1. count_events. }
    rewrite (withCaching_no_rules rawEmbed fn config p _ Hvalid Hnone).
    cbv zeta.
    change (stored (cacheName config) (setClock t2 w1))
      with (stored (cacheName config) w1).
    change (clock (setClock t2 w1)) with t2. rewrite Hstored.
    rewrite (lookupExact_after_miss t1 t2 _ p r _ Hlook Hle Hin Hself).
    cbn [outcome].
    assert (Hcalls2 : fnCalls (logEvent (StoreGetAll (cacheName config))
                                 (setClock t2 w1)) = fnCalls w1).
    { subst w1. count_events. }
    split; [lia|]. intros _.
    split; [exact Hcalls2|]. split; [reflexivity|].
    apply in_or_app. right. left. reflexivity.
Qed.

End ExactReuse.

(** ** What scoring leaves untouched *)

Section Frame.
Context `{Platform} {W EE : Type}.
Variable embed : EmbedFn W EE.
Variable R : W -> W -> Prop.
Hypothesis R_refl : forall w, R w w.
Hypothesis R_trans : forall a b c, R a b -> R b c -> R a c.
Hypothesis embed_R : forall text model w r w',
  embed text model w = (r, w') -> R w w'.

Lemma embedOrNull_preserves text model (w : W) r w' :
  embedOrNull embed text model w = (r, w') -> R w w'.
Proof.
  unfold embedOrNull, catchAll, mapEffect, bind, succeed.
  destruct (embed text model w) as [[v | [e | d]] w1] eqn:He;
    intros Hr; injection Hr as _ <-; eapply embed_R, He.
Qed.

(** A relation that every call of [embed] respects holds between the states
    before and after [scoreEntry]. *)
Lemma scoreFields_preserves (requested cached : Params)
    (fuzzy : FuzzyParamsSpec) keys s x (w : W) r w' :
  scoreFields requested cached fuzzy embed keys s x w = (r, w') -> R w w'.
Proof.
  revert s x w. induction keys as [|key keys IH]; intros s x w.
  - cbn [scoreFields]. unfold succeed. intros Hr. injection Hr as _ <-.
    apply R_refl.
  - cbn [scoreFields].
    destruct (fuzzy !! key) as [[spec | | threshold model] |].
    + destruct (negb _); [|apply IH].
      unfold succeed. intros Hr. injection Hr as _ <-. apply R_refl.
    + destruct (lessThan _ _); [|apply IH].
      unfold succeed. intros Hr. injection Hr as _ <-. apply R_refl.
    + unfold all2, bind.
      destruct (embedOrNull embed (String_ (getField requested key)) model w)
        as [[v0 | c0] w1] eqn:H0.
      * apply embedOrNull_preserves in H0.
        destruct (embedOrNull embed (String_ (getField cached key)) model w1)
          as [[v1 | c1] w2] eqn:H1.
        -- apply embedOrNull_preserves in H1.
           assert (H02 : R w w2) by (eapply R_trans; eassumption).
           unfold succeed at 1.
           destruct v0 as [v0|], v1 as [v1|];
             try (unfold succeed; intros Hr; injection Hr as _ <-; exact H02).
           destruct (_ <? threshold)%float.
           ++ unfold succeed. intros Hr. injection Hr as _ <-. exact H02.
           ++ intros Hr. apply IH in Hr. eapply R_trans; eassumption.
        -- apply embedOrNull_preserves in H1.
           intros Hr. injection Hr as _ <-. eapply R_trans; eassumption.
      * apply embedOrNull_preserves in H0.
        intros Hr. injection Hr as _ <-. exact H0.
    + destruct (inheritedKey _); [apply IH|].
      destruct (negb _); [|apply IH].
      unfold succeed. intros Hr. injection Hr as _ <-. apply R_refl.
Qed.

Lemma scoreEntry_preserves (requested cached : Params)
    (fuzzy : FuzzyParamsSpec) (w : W) r w' :
  scoreEntry requested cached fuzzy embed w = (r, w') -> R w w'.
Proof. apply scoreFields_preserves. Qed.

End Frame.

(** ** The embedding memoiser *)

Section Embeddings.
Context {U E A EE : Type}.
Variable rawEmbed : RawEmbedFn U EE.

(** A vector already memoised is returned as it is. *)
Lemma embed_hit text model v (w : World U E A) :
  cacheRef w !! (text, model) = Some v ->
  embed rawEmbed text model w = (Success v, w).
Proof.
  intros Hhit. unfold embed, bind, getCacheRef. rewrite Hhit. reflexivity.
Qed.

(** [embed] reads and writes neither the clock nor the entry store, and does
    not invoke the wrapped function. *)
Lemma embed_frame text model (w : World U E A) r w' :
  embed rawEmbed text model w = (r, w') ->
  clock w' = clock w /\ mapRef w' = mapRef w /\ fnCalls w' = fnCalls w.
Proof.
  unfold embed, bind, getCacheRef, updateCacheRef, callOutside, succeed.
  destruct (cacheRef w !! (text, model)) as [v|].
  - intros Hr. injection Hr as _ <-. auto.
  - destruct (rawEmbed text model (outside w)) as [[v | c] u'];
      intros Hr; injection Hr as _ <-; cbn [clock mapRef];
      (split; [reflexivity|]); (split; [reflexivity|]); count_events.
Qed.

(** C8: a call of [embed] on a pair already memoised returns the stored
    vector and changes nothing.  A call that misses invokes the provider
    once, stores the vector it computed under [(text, model)] and returns
    it; the next call with the same pair returns the stored vector and
    changes nothing, so the provider has been invoked exactly once over the
    two calls. *)
Theorem embed_memoises text model (w : World U E A) :
  (forall v,
      cacheRef w !! (text, model) = Some v ->
      embed rawEmbed text model w = (Success v, w)) /\
  (forall v u1,
      cacheRef w !! (text, model) = None ->
      rawEmbed text model (outside w) = (Success v, u1) ->
      let '(r1, w1) := embed rawEmbed text model w in
      let '(r2, w2) := embed rawEmbed text model w1 in
      r1 = Success v /\
      cacheRef w1 !! (text, model) = Some v /\
      rawEmbedCalls w1 = S (rawEmbedCalls w) /\
      r2 = Success v /\
      w2 = w1 /\
      rawEmbedCalls w2 = S (rawEmbedCalls w)).
Proof.
  split; [intros v; apply embed_hit|].
  intros v u1 Hmiss Hraw.
  destruct (embed rawEmbed text model w) as [r1 w1] eqn:H1.
  unfold embed, bind, getCacheRef, updateCacheRef, callOutside, succeed in H1.
  rewrite Hmiss, Hraw in H1. injection H1 as <- <-.
  set (w1 := {| clock := _; mapRef := _; cacheRef := _; outside := _;
                trace := _ |}).
  assert (Hstored : cacheRef w1 !! (text, model) = Some v)
    by (unfold w1; cbn [cacheRef]; apply lookup_insert_eq).
  rewrite (embed_hit text model v w1 Hstored).
  assert (Hcalls : rawEmbedCalls w1 = S (rawEmbedCalls w))
    by (subst w1; count_events).
  repeat split; assumption.
Qed.

End Embeddings.

(** ** An invalid TTL *)

Section InvalidTtl.
Context `{Platform} {U E A EE : Type}.
Variable rawEmbed : RawEmbedFn U EE.
Variable fn : WrappedFn U E A.

(** C4: with [ttlMillis] defined and not positive, every call of the wrapper
    made by [withCaching] or by [withCachingMeta] dies with the
    configuration message and leaves the state as it was: no read or write
    of the entry store, no invocation of the wrapped function. *)
Theorem invalid_ttl_dies (config : WithCachingConfig) (t : Z) (p : Params)
    (w : World U E A) :
  ttlMillis config = Some t ->
  t <= 0 ->
  (let '(r, w') := withCaching rawEmbed fn config p w in
   r = Failure (Die "WithCachingConfig.ttlMillis must be positive") /\
   w' = w /\
   storeAccesses w' = storeAccesses w /\
   fnCalls w' = fnCalls w) /\
  (let '(r, w') := withCachingMeta rawEmbed fn config p w in
   r = Failure (Die "WithCachingConfig.ttlMillis must be positive") /\
   w' = w /\
   storeAccesses w' = storeAccesses w /\
   fnCalls w' = fnCalls w).
Proof.
  intros Httl Hle.
  assert (Hinvalid : invalidTtl config = true).
  { unfold invalidTtl. rewrite Httl. apply Z.leb_le, Hle. }
  unfold withCaching, withCachingMeta. rewrite Hinvalid.
  split; cbn; repeat split; reflexivity.
Qed.

End InvalidTtl.

(** ** Failures are stored and replayed *)

Section FailureReplay.
Context `{Platform} {U E A EE : Type}.
Variable rawEmbed : RawEmbedFn U EE.
Variable fn : WrappedFn U E A.
Variable config : WithCachingConfig.
Variable X : Params.

(** What the calls can rely on: a property of the embedding cache and of the
    outside world that every call of the wrapper with [X] keeps. *)
Variable Inv : gmap (string * string) (list float) -> U -> Prop.

Hypothesis valid_ttl : invalidTtl config = false.

Hypothesis inv_call : forall (w : World U E A) r w',
  Inv (cacheRef w) (outside w) ->
  withCaching rawEmbed fn config X w = (r, w') ->
  Inv (cacheRef w') (outside w').

(** Under the configured rules the parameters [X] match themselves in every
    such state. *)
Hypothesis self_match : forall w : World U E A,
  Inv (cacheRef w) (outside w) ->
  exists r w',
    scoreEntry X X (default ∅ (fuzzyParams config)) (embed rawEmbed) w
    = (Success r, w') /\ ok r = true.





End FailureReplay.

(** ** Embedding failures during a lookup *)

Section EmbeddingFailures.
Context `{Platform} {W EE : Type}.
Variable embed : EmbedFn W EE.

Lemma embedOrNull_succeeds text model (w : W) :
  neverDies embed ->
  exists v w', embedOrNull embed text model w = (Success v, w').
Proof.
  intros Hnd. unfold embedOrNull, catchAll, mapEffect, bind, succeed.
  destruct (embed text model w) as [[v | [e | d]] w1] eqn:He; eauto.
  exfalso. eapply Hnd, He.
Qed.

(** An expected failure of the provider on the requested or on the stored
    text disqualifies the candidate. *)
Lemma scoreFields_embedding_failure (requested cached : Params)
    (fuzzy : FuzzyParamsSpec) key keys s x threshold model (w : W) :
  fuzzy !! key = Some (CosineSimilarity threshold model) ->
  neverDies embed ->
  (exists e w1,
      embed (String_ (getField requested key)) model w = (Failure (Fail e), w1))
  \/ (exists v w1 e w2,
      embed (String_ (getField requested key)) model w = (Success v, w1) /\
      embed (String_ (getField cached key)) model w1 = (Failure (Fail e), w2)) ->
  exists w',
    scoreFields requested cached fuzzy embed (key :: keys) s x w
    = (Success disqualified, w').
Proof.
  intros Hk Hnd Hfail. cbn [scoreFields]. rewrite Hk.
  unfold all2, bind, embedOrNull, catchAll, mapEffect, bind, succeed.
  destruct Hfail as [(e & w1 & H0) | (v & w1 & e & w2 & H0 & H1)].
  - rewrite H0.
    destruct (embed (String_ (getField cached key)) model w1)
      as [[v1 | [e1 | d1]] w2] eqn:H1; eauto.
    exfalso. eapply Hnd, H1.
  - rewrite H0, H1. eauto.
Qed.

(** With such a provider scoring always ends with a result. *)
Lemma scoreFields_succeeds (requested cached : Params)
    (fuzzy : FuzzyParamsSpec) keys s x (w : W) :
  neverDies embed ->
  exists r w',
    scoreFields requested cached fuzzy embed keys s x w = (Success r, w').
Proof.
  intros Hnd. revert s x w.
  induction keys as [|key keys IH]; intros s x w.
  - cbn [scoreFields]. unfold succeed. eauto.
  - cbn [scoreFields].
    destruct (fuzzy !! key) as [[spec | | threshold model] |].
    + destruct (negb _); [unfold succeed; eauto | apply IH].
    + destruct (lessThan _ _); [unfold succeed; eauto | apply IH].
    + unfold all2, bind.
      destruct (embedOrNull_succeeds (String_ (getField requested key)) model
                  w Hnd) as (v0 & w1 & ->).
      destruct (embedOrNull_succeeds (String_ (getField cached key)) model
                  w1 Hnd) as (v1 & w2 & ->).
      unfold succeed at 1.
      destruct v0 as [v0|], v1 as [v1|]; try (unfold succeed; eauto).
      destruct (_ <? threshold)%float; [unfold succeed; eauto | apply IH].
    + destruct (inheritedKey key); [apply IH|].
      destruct (negb _); [unfold succeed; eauto | apply IH].
Qed.

Lemma scoreAll_succeeds {E A} (requested : Params) (fuzzy : FuzzyParamsSpec)
    (l : list (CacheEntry E A)) (w : W) :
  neverDies embed ->
  exists rs w',
    scoreAll requested fuzzy embed l w = (Success rs, w') /\
    length rs = length l.
Proof.
  intros Hnd. revert w. induction l as [|e l IH]; intros w.
  - cbn [scoreAll]. unfold succeed. eauto.
  - cbn [scoreAll]. unfold bind, succeed.
    destruct (scoreFields_succeeds requested (entry_params e) fuzzy
                (objectKeys requested) 0%float true w Hnd) as (r & w1 & Hr).
    unfold scoreEntry. rewrite Hr.
    destruct (IH w1) as (rs & w2 & -> & Hlen).
    exists (r :: rs), w2. split; [reflexivity | simpl; congruence].
Qed.

(** When no entry is usable nothing is picked. *)
Lemma pickBest_none_usable {E A}
    (scored : list (CacheEntry E A * ScoreResult)) :
  (forall e r, In (e, r) scored -> ok r = false) ->
  pickBest scored None = None.
Proof.
  induction scored as [|[e r] scored IH]; intros Hno; [reflexivity|].
  cbn [pickBest]. rewrite (Hno e r (or_introl eq_refl)). cbn [negb].
  apply IH. intros e' r' Hin. apply (Hno e' r'). right. exact Hin.
Qed.

End EmbeddingFailures.

(** Expected failures are contained: a provider whose failures are expected
    ones ([Effect.fail]) never makes [matchBestEntry] fail, and when no
    fresh entry scores as usable the result is [null]. *)
Lemma matchBestEntry_contains_expected_failures `{Platform} {W EE E A}
    (args : MatchArgs W EE E A) (w : W) :
  neverDies (args_embed args) ->
  exists rs w',
    scoreAll (params args) (default ∅ (args_fuzzyParams args)) (args_embed args)
      (List.filter (isFresh (now args) (ttl args)) (entries args)) w
    = (Success rs, w') /\
    (exists m, matchBestEntry args w = (Success m, w')) /\
    ((forall r, In r rs -> ok r = false) ->
     matchBestEntry args w = (Success None, w')).
Proof.
  intros Hnd.
  destruct (scoreAll_succeeds (args_embed args) (params args)
              (default ∅ (args_fuzzyParams args))
              (List.filter (isFresh (now args) (ttl args)) (entries args))
              w Hnd) as (rs & w' & Hrs & Hlen).
  exists rs, w'. split; [exact Hrs|].
  rewrite matchBestEntry_scoreAll. cbv zeta. unfold bind, succeed.
  rewrite Hrs. split; [eauto|].
  intros Hno. rewrite pickBest_none_usable; [reflexivity|].
  intros e r Hin. apply Hno. eapply in_combine_r, Hin.
Qed.

(** C3 fails on the code: with the embeddings service on its default
    provider, which ends in a defect, [Effect.catchAll] recovers nothing and
    [matchBestEntry] dies with the provider's defect where the specification
    has it return [null]. *)
Lemma matchBestEntry_default_provider_dies :
  fst (@matchBestEntry samplePlatform _ _ _ _ defaultProviderArgs
         (freshWorld tt))
  = Failure
      (Die "rawEmbed not implemented - provide a real embedding provider").
Proof. vm_compute. reflexivity. Qed.

(** The same through the wrapper, with the layer left on its default
    provider: the first call stores its outcome, the second one dies while
    scoring the stored entry. *)
Example default_layer_second_call_dies :
  fst (callRepeatedly
         (withCaching (@defaultRawEmbed nat string) failOnBad similarityConfig)
         [("id", VStr "good")] [1000; 2000] (freshWorld 0%nat))
  = [Success "ok";
     Failure
       (Die "rawEmbed not implemented - provide a real embedding provider")].
Proof. vm_compute. reflexivity. Qed.

(* ====================================================================== *)
(** * The properties on the repository's tests *)
(* ====================================================================== *)

(** "should cache and reuse exact matches": [{ x: 5 }] twice. *)
Lemma withCaching_exact_twice_witness :
  (invalidTtl testConfig = false /\
   fuzzyParams testConfig = None /\
   exactMatch [("x", VNum 5)] [("x", VNum 5)] = true /\
   1000 <= 2000 /\
   2000 - 1000 <= default DEFAULT_TTL_MILLIS (ttlMillis testConfig)) /\
  (let '(r1, w1) :=
     withCaching (@defaultRawEmbed nat string) doubleX testConfig
       [("x", VNum 5)] (setClock 1000 (freshWorld 0%nat)) in
   let '(r2, w2) :=
     withCaching (@defaultRawEmbed nat string) doubleX testConfig
       [("x", VNum 5)] (setClock 2000 w1) in
   (fnCalls w2 <= fnCalls (freshWorld (E:=string) (A:=float) 0%nat) + 1)%nat /\
   (fnCalls w1 = S (fnCalls (freshWorld (E:=string) (A:=float) 0%nat)) ->
    fnCalls w2 = fnCalls w1 /\
    r2 = r1 /\
    In {| entry_params := [("x", VNum 5)]; outcome := r1; createdAt := 1000 |}
       (stored (cacheName testConfig) w1))).
Proof.
  split.
  - repeat split; try reflexivity; vm_compute; discriminate.
  - apply (withCaching_exact_twice (@defaultRawEmbed nat string) doubleX
             testConfig [("x", VNum 5)] (freshWorld 0%nat) 1000 2000);
      try reflexivity; vm_compute; discriminate.
Defined.

(** The run itself: the second call returns [10] without a second
    invocation. *)
Example exact_reuse_run :
  let '(results, w) :=
    callRepeatedly (withCaching (@defaultRawEmbed nat string) doubleX testConfig)
      [("x", VNum 5)] [1000; 2000] (freshWorld 0%nat) in
  results = [Success 10%float; Success 10%float] /\ fnCalls w = 1%nat.
Proof. vm_compute. split; reflexivity. Qed.

(** C1 as stated fails: [{ x: NaN }] is not [Equal.equals] to itself, so the
    second call with the identical parameters misses and the function is
    invoked twice. *)
Lemma withCaching_nan_invoked_twice :
  let '(r1, w1) :=
    withCaching (@defaultRawEmbed nat string) doubleX testConfig
      [("x", VNum nan)] (setClock 1000 (freshWorld 0%nat)) in
  let '(r2, w2) :=
    withCaching (@defaultRawEmbed nat string) doubleX testConfig
      [("x", VNum nan)] (setClock 2000 w1) in
  fnCalls w2 = 2%nat.
Proof. vm_compute. reflexivity. Qed.

(** "should die with invalid ttlMillis = 0" *)
Lemma invalid_ttl_dies_witness :
  (ttlMillis zeroTtlConfig = Some 0 /\ 0 <= 0) /\
  (let '(r, w') :=
     withCaching (@defaultRawEmbed nat string) doubleX zeroTtlConfig
       [("x", VNum 1)] (freshWorld 0%nat) in
   r = Failure (Die "WithCachingConfig.ttlMillis must be positive") /\
   w' = freshWorld 0%nat /\
   storeAccesses w' = storeAccesses (freshWorld (E:=string) (A:=float) 0%nat) /\
   fnCalls w' = fnCalls (freshWorld (E:=string) (A:=float) 0%nat)) /\
  (let '(r, w') :=
     withCachingMeta (@defaultRawEmbed nat string) doubleX zeroTtlConfig
       [("x", VNum 1)] (freshWorld 0%nat) in
   r = Failure (Die "WithCachingConfig.ttlMillis must be positive") /\
   w' = freshWorld 0%nat /\
   storeAccesses w' = storeAccesses (freshWorld (E:=string) (A:=float) 0%nat) /\
   fnCalls w' = fnCalls (freshWorld (E:=string) (A:=float) 0%nat)).
Proof.
  split.
  - split; [reflexivity | vm_compute; discriminate].
  - apply (invalid_ttl_dies (@defaultRawEmbed nat string) doubleX zeroTtlConfig
             0 [("x", VNum 1)] (freshWorld 0%nat) eq_refl).
    vm_compute; discriminate.
Defined.

(** "should call rawEmbed only once for repeated (text, model) pairs" *)
Lemma embed_memoises_witness :
  (cacheRef (freshWorld (E:=Empty_set) (A:=unit) 0%nat) !! ("hello", "m1")
     = None /\
   constantRawEmbed "hello" "m1" 0%nat = (Success [5%float; 2%float], 1%nat)) /\
  (let '(r1, w1) :=
     embed constantRawEmbed "hello" "m1"
       (freshWorld (E:=Empty_set) (A:=unit) 0%nat) in
   let '(r2, w2) := embed constantRawEmbed "hello" "m1" w1 in
   r1 = Success [5%float; 2%float] /\
   cacheRef w1 !! ("hello", "m1") = Some [5%float; 2%float] /\
   rawEmbedCalls w1
     = S (rawEmbedCalls (freshWorld (E:=Empty_set) (A:=unit) 0%nat)) /\
   r2 = Success [5%float; 2%float] /\
   w2 = w1 /\
   rawEmbedCalls w2
     = S (rawEmbedCalls (freshWorld (E:=Empty_set) (A:=unit) 0%nat))).
Proof.
  split.
  - split; reflexivity.
  - apply (proj2 (embed_memoises constantRawEmbed "hello" "m1"
                    (freshWorld 0%nat))
             [5%float; 2%float] 1%nat eq_refl eq_refl).
Defined.


(** "should fail when cached < requested": level 3 requested, level 1
    stored. *)
Example lower_level_is_disqualified :
  scoreEntry [("level", VNum 3)] [("level", VNum 1)]
    {[ "level" := MoreIsBetter ]} pureEmbed tt
  = (Success disqualified, tt).
Proof. reflexivity. Qed.

(** "should match when hash is ignored" and "should respect excludeHash:
    false": the same page with two fragments. *)
Lemma exactURL_field_witness :
  (({[ "url" := ExactURL {| excludeHash := Some true |} ]} : FuzzyParamsSpec)
     !! "url" = Some (ExactURL {| excludeHash := Some true |}) /\
   parseURL "https://foo.com/page#section1"
     = Some {| url_base := "https://foo.com/page";
               url_fragment := Some "section1" |} /\
   parseURL "https://foo.com/page#section2"
     = Some {| url_base := "https://foo.com/page";
               url_fragment := Some "section2" |}) /\
  normalizeUrl (VStr "https://foo.com/page#section1")
    {| excludeHash := Some true |}
  = normalizeUrl (VStr "https://foo.com/page#section2")
      {| excludeHash := Some true |} /\
  scoreEntry [("url", VStr "https://foo.com/page#section1")]
    [("url", VStr "https://foo.com/page#section2")]
    {[ "url" := ExactURL {| excludeHash := Some true |} ]} pureEmbed tt
  = (Success {| ok := true; score := 1%float; exact := true |}, tt).
Proof.
  split; [repeat split; reflexivity|].
  assert (Hrule : ({[ "url" := ExactURL {| excludeHash := Some true |} ]}
                     : FuzzyParamsSpec) !! "url"
                  = Some (ExactURL {| excludeHash := Some true |}))
    by reflexivity.
  assert (Ha : parseURL "https://foo.com/page#section1"
               = Some {| url_base := "https://foo.com/page";
                         url_fragment := Some "section1" |}) by reflexivity.
  assert (Hb : parseURL "https://foo.com/page#section2"
               = Some {| url_base := "https://foo.com/page";
                         url_fragment := Some "section2" |}) by reflexivity.
  destruct (exactURL_field [("url", VStr "https://foo.com/page#section1")]
              [("url", VStr "https://foo.com/page#section2")]
              {[ "url" := ExactURL {| excludeHash := Some true |} ]} pureEmbed
              "url" [] 0%float true
              "https://foo.com/page#section1" "https://foo.com/page#section2"
              {| url_base := "https://foo.com/page";
                 url_fragment := Some "section1" |}
              {| url_base := "https://foo.com/page";
                 url_fragment := Some "section2" |}
              {| excludeHash := Some true |} tt
              Hrule eq_refl eq_refl Ha Hb eq_refl)
    as [Hexclude _].
  destruct (Hexclude eq_refl) as [Hnorm Hstep].
  split; [exact Hnorm|].
  unfold scoreEntry. cbn [objectKeys map fst]. rewrite Hstep. reflexivity.
Defined.

Example kept_hash_is_compared :
  scoreEntry [("url", VStr "https://foo.com/page#section1")]
    [("url", VStr "https://foo.com/page#section2")]
    {[ "url" := ExactURL {| excludeHash := Some false |} ]} pureEmbed tt
  = (Success disqualified, tt).
Proof. reflexivity. Qed.

(** C6 as stated fails: [#a b] and [#a%20b] are two spellings of one
    fragment.  The two URLs differ in the fragment only and are not the same
    string, yet with [excludeHash] false or unset their normal forms are
    equal and the candidate is not disqualified. *)
Lemma exactURL_fragment_spellings :
  sameUpToFragment "https://foo.com/page#a b" "https://foo.com/page#a%20b" /\
  "https://foo.com/page#a b" <> "https://foo.com/page#a%20b" /\
  normalizeUrl (VStr "https://foo.com/page#a b") {| excludeHash := Some false |}
  = normalizeUrl (VStr "https://foo.com/page#a%20b")
      {| excludeHash := Some false |} /\
  normalizeUrl (VStr "https://foo.com/page#a b") {| excludeHash := None |}
  = normalizeUrl (VStr "https://foo.com/page#a%20b") {| excludeHash := None |} /\
  scoreEntry [("url", VStr "https://foo.com/page#a b")]
    [("url", VStr "https://foo.com/page#a%20b")]
    {[ "url" := ExactURL {| excludeHash := Some false |} ]} pureEmbed tt
  = (Success {| ok := true; score := 1%float; exact := true |}, tt).
Proof.
  split.
  - eexists. eexists. repeat split; reflexivity.
  - repeat split; try reflexivity. discriminate.
Qed.

(** An entry exactly at the TTL boundary is matched, an older one is not. *)
Lemma matchBestEntry_ttl_filter_witness :
  safeTimes boundaryArgs = true /\
  matchBestEntry boundaryArgs tt
  = (Success
       (Some {| entry := makeEntry [("x", VNum 1)] "boundary" 0;
                hitMeta := {| kind := exact_hit; hit_score := 1%float |} |}),
     tt) /\
  In (makeEntry [("x", VNum 1)] "boundary" 0) (entries boundaryArgs) /\
  now boundaryArgs - 0 <= ttl boundaryArgs.
Proof.
  destruct (matchBestEntry_ttl_filter boundaryArgs tt eq_refl)
    as (_ & _ & Hfresh & _).
  split; [reflexivity|]. split; [reflexivity|].
  apply (Hfresh {| entry := makeEntry [("x", VNum 1)] "boundary" 0;
                   hitMeta := {| kind := exact_hit; hit_score := 1%float |} |}
                tt).
  reflexivity.
Defined.

(** Beyond the safe integers the age is rounded: at [now = ttl = 2^53] an
    entry created at [-1] has the age [2^53 + 1], which binary64 rounds to
    [2^53], and the test of binary64 keeps it. *)
Example age_rounds_beyond_safe_integers :
  let e := makeEntry [("x", VNum 1)] "early" (-1) in
  safeInteger (2 ^ 53 - createdAt e) = false /\
  isFreshNumber (2 ^ 53) (2 ^ 53) e = true /\
  isFresh (2 ^ 53) (2 ^ 53) e = false.
Proof. repeat split; vm_compute; reflexivity. Qed.

(** "should return null when all entries are expired" *)
Example expired_entries_give_null :
  matchBestEntry
    {| now := 10000; ttl := 1000; params := [("x", VNum 1)];
       entries := [makeEntry [("x", VNum 1)] "old" 0];
       args_fuzzyParams := Some ∅; args_embed := pureEmbed |} tt
  = (Success None, tt).
Proof. reflexivity. Qed.

(** "should select highest scoring entry": the three entries all score [1],
    and the first one is returned. *)
Lemma matchBestEntry_first_seen_wins_witness :
  (List.filter (fun e => now levelArgs - createdAt e <=? ttl levelArgs)
               (entries levelArgs)
   = ([] ++ makeEntry [("level", VNum 1)] "low" 0
         :: [makeEntry [("level", VNum 3)] "high" 0;
             makeEntry [("level", VNum 2)] "medium" 0])%list /\
   scoreAll (params levelArgs) (default ∅ (args_fuzzyParams levelArgs))
     (args_embed levelArgs)
     ([] ++ makeEntry [("level", VNum 1)] "low" 0
         :: [makeEntry [("level", VNum 3)] "high" 0;
             makeEntry [("level", VNum 2)] "medium" 0])%list tt
   = (Success ([] ++ {| ok := true; score := 1%float; exact := true |}
                  :: [{| ok := true; score := 1%float; exact := false |};
                      {| ok := true; score := 1%float; exact := false |}])%list,
      tt)) /\
  matchBestEntry levelArgs tt
  = (Success
       (Some {| entry := makeEntry [("level", VNum 1)] "low" 0;
                hitMeta := {| kind := exact_hit; hit_score := 1%float |} |}),
     tt).
Proof.
  split; [split; reflexivity|].
  apply (matchBestEntry_first_seen_wins levelArgs tt tt []
           [makeEntry [("level", VNum 3)] "high" 0;
            makeEntry [("level", VNum 2)] "medium" 0]
           (makeEntry [("level", VNum 1)] "low" 0) []
           [{| ok := true; score := 1%float; exact := false |};
            {| ok := true; score := 1%float; exact := false |}]
           {| ok := true; score := 1%float; exact := true |}
           eq_refl eq_refl eq_refl eq_refl).
  - intros r' [<- | [<- | []]] _; reflexivity.
  - intros r' [].
Defined.

(** C10 as stated fails once a usable entry scores NaN: the fresh entries
    score NaN, [1] and [1], all three usable; [1] is the greatest score
    that is a number and two entries attain it, yet the entry returned is
    the one that scored NaN, because [1 > NaN] is false and it is never
    replaced. *)
Lemma matchBestEntry_nan_score_wins :
  scoreAll (params nanScoreArgs) (default ∅ (args_fuzzyParams nanScoreArgs))
    (args_embed nanScoreArgs) (entries nanScoreArgs) tt
  = (Success [{| ok := true; score := nan; exact := true |};
              {| ok := true; score := 1%float; exact := true |};
              {| ok := true; score := 1%float; exact := true |}], tt) /\
  matchBestEntry nanScoreArgs tt
  = (Success
       (Some {| entry := makeEntry [("prompt", VStr "broken")] "first" 0;
                hitMeta := {| kind := exact_hit; hit_score := nan |} |}),
     tt).
Proof. split; vm_compute; reflexivity. Qed.

(** "should return null when all candidates fail to score": the provider
    fails in the expected way, the only candidate is skipped, the result is
    [null]. *)
Lemma matchBestEntry_contains_expected_failures_witness :
  neverDies failingEmbed /\
  matchBestEntry failingEmbedArgs tt = (Success None, tt).
Proof.
  assert (Hnd : neverDies failingEmbed).
  { intros text model w d w'. discriminate. }
  split; [exact Hnd|].
  destruct (matchBestEntry_contains_expected_failures failingEmbedArgs tt Hnd)
    as (rs & w' & Hrs & _ & Hnone).
  vm_compute in Hrs. injection Hrs as <- <-.
  apply Hnone. intros r [<- | []]. reflexivity.
Defined.

(* ====================================================================== *)
(** * Further properties of the code *)
(* ====================================================================== *)

(** ** The order of binary64 numbers *)

Module Binary64Order.

Ltac compare_cases :=
  repeat match goal with
  | H : context [Pos.compare_cont Eq ?a ?b] |- _ =>
      change (Pos.compare_cont Eq a b) with (Pos.compare a b) in H
  | |- context [Pos.compare_cont Eq ?a ?b] =>
      change (Pos.compare_cont Eq a b) with (Pos.compare a b)
  end;
  repeat match goal with
  | H : context [Z.compare ?a ?b] |- _ =>
      destruct (Z.compare_spec a b); simpl in H; try discriminate H
  | H : context [Pos.compare ?a ?b] |- _ =>
      destruct (Pos.compare_spec a b); simpl in H; try discriminate H
  end;
  repeat match goal with
  | |- context [Z.compare ?a ?b] => destruct (Z.compare_spec a b); simpl
  | |- context [Pos.compare ?a ?b] => destruct (Pos.compare_spec a b); simpl
  end;
  subst; try reflexivity; try lia.

Lemma SFcompare_lt_le_trans (x y z : spec_float) :
  SFcompare x y = Some Lt ->
  (SFcompare y z = Some Lt \/ SFcompare y z = Some Eq) ->
  SFcompare x z = Some Lt.
Proof.
  destruct x as [sx|sx| |sx mx ex], y as [sy|sy| |sy my ey],
           z as [sz|sz| |sz mz ez];
    simpl; intros Hxy [Hyz | Hyz]; try discriminate;
    try destruct sx; try destruct sy; try destruct sz;
    try discriminate; try reflexivity;
    injection Hxy as Hxy; injection Hyz as Hyz; f_equal; compare_cases.
Qed.

(** [a < b] and [b <= c] give [a < c]. *)
Lemma ltb_leb_trans (a b c : float) :
  (a <? b)%float = true -> (b <=? c)%float = true -> (a <? c)%float = true.
Proof.
  rewrite !FloatAxioms.ltb_spec, FloatAxioms.leb_spec. unfold SFltb, SFleb.
  intros Hab Hbc.
  rewrite (SFcompare_lt_le_trans (Prim2SF a) (Prim2SF b) (Prim2SF c));
    [reflexivity | |].
  - destruct (SFcompare (Prim2SF a) (Prim2SF b)) as [[]|];
      try discriminate; reflexivity.
  - destruct (SFcompare (Prim2SF b) (Prim2SF c)) as [[]|];
      try discriminate; auto.
Qed.

Lemma ltb_leb (a b : float) : (a <? b)%float = true -> (a <=? b)%float = true.
Proof.
  rewrite FloatAxioms.ltb_spec, FloatAxioms.leb_spec. unfold SFltb, SFleb.
  destruct (SFcompare (Prim2SF a) (Prim2SF b)) as [[]|];
    try discriminate; reflexivity.
Qed.

Lemma ltb_trans (a b c : float) :
  (a <? b)%float = true -> (b <? c)%float = true -> (a <? c)%float = true.
Proof.
  intros Hab Hbc. eapply ltb_leb_trans; [exact Hab | apply ltb_leb, Hbc].
Qed.

Lemma ltb_asym (a b : float) : (a <? b)%float = true -> (b <? a)%float = false.
Proof. intros Hab. apply Binary64.leb_not_gt, ltb_leb, Hab. Qed.

(** NaN is below nothing. *)
Lemma nan_ltb (x y : float) : is_nan x = true -> (x <? y)%float = false.
Proof.
  unfold is_nan. rewrite negb_true_iff.
  rewrite FloatAxioms.eqb_spec, FloatAxioms.ltb_spec. unfold SFeqb, SFltb.
  destruct (Prim2SF x) as [s|s| |s m e]; simpl.
  - discriminate.
  - destruct s; discriminate.
  - reflexivity.
  - destruct s; rewrite Z.compare_refl, ?Pos.compare_cont_refl;
      simpl; try discriminate.
Qed.

End Binary64Order.

(** ** The entry picked is a best one *)

Section BestOfAll.
Context {E A : Type}.

(** The entry picked is the running best or a usable scored entry; no usable
    scored entry scores more than it; and it is the running best unless it
    scores more. *)
Lemma pickBest_max (scored : list (CacheEntry E A * ScoreResult)) best b :
  pickBest scored best = Some b ->
  (best = Some b \/
   exists e r, In (e, r) scored /\ ok r = true /\
               b = {| best_entry := e; best_score := score r;
                      best_exact := exact r |}) /\
  (forall e r, In (e, r) scored -> ok r = true ->
               gtb (score r) (best_score b) = false) /\
  (forall b0, best = Some b0 ->
              b = b0 \/ gtb (best_score b) (best_score b0) = true).
Proof.
  revert best. induction scored as [|[e r] scored IH]; intros best Hp.
  - cbn [pickBest] in Hp. subst best. split; [auto|]. split.
    + intros e r [].
    + intros b0 Hb0. injection Hb0 as <-. auto.
  - cbn [pickBest] in Hp. destruct (ok r) eqn:Hok; cbn [negb] in Hp.
    + destruct (replacesBest best r) eqn:Hrep.
      * destruct (IH _ Hp) as (Horigin & Hmax & Hgrow).
        destruct (Hgrow _ eq_refl) as [Hb | Hb].
        -- split; [right; exists e, r; split; [left; reflexivity | auto]|].
           split.
           ++ intros e' r' [Heq | Hin] Hok'.
              ** injection Heq as <- <-. rewrite Hb. cbn [best_score].
                 apply Binary64.ltb_irrefl.
              ** apply (Hmax e' r' Hin Hok').
           ++ intros b0 Hb0. subst best. right. rewrite Hb.
              cbn [best_score]. exact Hrep.
        -- split.
           ++ destruct Horigin as [Heq | (e' & r' & Hin & Hok' & Heq)].
              ** injection Heq as <-. right. exists e, r.
                 split; [left; reflexivity | auto].
              ** right. exists e', r'. split; [right; exact Hin | auto].
           ++ split.
              ** intros e' r' [Heq | Hin] Hok'.
                 --- injection Heq as <- <-. cbn [best_score] in Hb.
                     unfold gtb in *. apply Binary64Order.ltb_asym, Hb.
                 --- apply (Hmax e' r' Hin Hok').
              ** intros b0 Hb0. subst best. right. cbn [replacesBest] in Hrep.
                 cbn [best_score] in Hb. unfold gtb in *.
                 eapply Binary64Order.ltb_trans; eassumption.
      * destruct best as [b0|]; [|discriminate Hrep].
        cbn [replacesBest] in Hrep.
        destruct (IH _ Hp) as (Horigin & Hmax & Hgrow).
        split.
        -- destruct Horigin as [Heq | (e' & r' & Hin & Hok' & Heq)];
             [left; exact Heq|].
           right. exists e', r'. split; [right; exact Hin | auto].
        -- split; [|exact Hgrow].
           intros e' r' [Heq | Hin] Hok'; [|apply (Hmax e' r' Hin Hok')].
           injection Heq as <- <-.
           destruct (Hgrow _ eq_refl) as [-> | Hb]; [exact Hrep|].
           unfold gtb in *.
           destruct (score r <? best_score b)%float eqn:Hlt;
             [|destruct (best_score b <? score r)%float eqn:Hgt;
               [|reflexivity]].
           ++ apply Binary64Order.ltb_asym, Hlt.
           ++ rewrite (Binary64Order.ltb_trans _ _ _ Hb Hgt) in Hrep.
              discriminate.
    + destruct (IH _ Hp) as (Horigin & Hmax & Hgrow).
      split.
      * destruct Horigin as [Heq | (e' & r' & Hin & Hok' & Heq)];
          [left; exact Heq|].
        right. exists e', r'. split; [right; exact Hin | auto].
      * split; [|exact Hgrow].
        intros e' r' [Heq | Hin] Hok'; [|apply (Hmax e' r' Hin Hok')].
        injection Heq as <- <-. congruence.
Qed.

(** Once there is a running best there is one at the end. *)
Lemma pickBest_some (scored : list (CacheEntry E A * ScoreResult)) b :
  exists b', pickBest scored (Some b) = Some b'.
Proof.
  revert b. induction scored as [|[e r] scored IH]; intros b; [eauto|].
  cbn [pickBest]. destruct (negb (ok r)); [apply IH|].
  destruct (replacesBest (Some b) r); apply IH.
Qed.

(** Nothing is picked only when nothing was usable. *)
Lemma pickBest_none (scored : list (CacheEntry E A * ScoreResult)) :
  pickBest scored None = None ->
  forall e r, In (e, r) scored -> ok r = false.
Proof.
  induction scored as [|[e r] scored IH]; intros Hp e' r' Hin; [destruct Hin|].
  cbn [pickBest] in Hp. destruct (ok r) eqn:Hok; cbn [negb replacesBest] in Hp.
  - destruct (pickBest_some scored
                {| best_entry := e; best_score := score r;
                   best_exact := exact r |}) as (b' & Hb').
    congruence.
  - destruct Hin as [Heq | Hin]; [injection Heq as <- <-; exact Hok|].
    apply (IH Hp e' r' Hin).
Qed.

Lemma in_combine_r_inv {X Y} (l : list X) (l' : list Y) y :
  length l' = length l -> In y l' -> exists x, In (x, y) (combine l l').
Proof.
  revert l'. induction l as [|a l IH]; intros [|b l'] Hlen Hin;
    simpl in *; try discriminate; try contradiction.
  destruct Hin as [-> | Hin]; [eauto|].
  destruct (IH l' ltac:(lia) Hin) as (x & Hx). eauto.
Qed.

End BestOfAll.

Section BestMatch.
Context `{Platform} {W EE E A : Type}.

Lemma scoreAll_length (requested : Params) (fuzzy : FuzzyParamsSpec)
    (embed : EmbedFn W EE) (l : list (CacheEntry E A)) (w : W) rs w' :
  scoreAll requested fuzzy embed l w = (Success rs, w') ->
  length rs = length l.
Proof.
  revert w rs w'. induction l as [|e l IH]; intros w rs w'.
  - cbn [scoreAll]. unfold succeed. intros Hr. injection Hr as <- _.
    reflexivity.
  - cbn [scoreAll]. unfold bind, succeed.
    destruct (scoreEntry _ _ _ _ w) as [[r | c] w1]; [|discriminate].
    destruct (scoreAll _ _ _ l w1) as [[rs1 | c] w2] eqn:Hrest; [|discriminate].
    intros Hr. injection Hr as <- _. simpl. f_equal. eapply IH, Hrest.
Qed.

(** The match is a best one: when scoring the fresh entries gives [rs],
    [matchBestEntry] answers [null] exactly when no fresh entry is usable;
    otherwise it answers a fresh entry that is usable, with that entry's
    score as the hit score and the kind read off its [exact] flag, and no
    usable fresh entry scores more. *)
Theorem matchBestEntry_best (args : MatchArgs W EE E A) (w w' : W)
    (rs : list ScoreResult) :
  let fresh :=
    List.filter (fun e => now args - createdAt e <=? ttl args) (entries args) in
  scoreAll (params args) (default ∅ (args_fuzzyParams args)) (args_embed args)
    fresh w = (Success rs, w') ->
  exists res,
    matchBestEntry args w = (Success res, w') /\
    match res with
    | None => forall r, In r rs -> ok r = false
    | Some m =>
        exists r,
          In (entry m, r) (combine fresh rs) /\
          ok r = true /\
          hitMeta m = {| kind := if exact r then exact_hit else fuzzy_hit;
                         hit_score := score r |} /\
          forall r', In r' rs -> ok r' = true ->
                     gtb (score r') (score r) = false
    end.
Proof.
  cbv zeta.
  change (fun e : CacheEntry E A => now args - createdAt e <=? ttl args)
    with (@isFresh E A (now args) (ttl args)).
  intros Hrs. pose proof (scoreAll_length _ _ _ _ _ _ _ Hrs) as Hlen.
  rewrite matchBestEntry_scoreAll. cbv zeta. unfold bind, succeed.
  rewrite Hrs.
  destruct (pickBest _ None) as [b|] eqn:Hp; cbn [toMatchResult].
  - eexists. split; [reflexivity|]. cbn [entry hitMeta].
    destruct (pickBest_max _ _ _ Hp) as (Horigin & Hmax & _).
    destruct Horigin as [Heq | (e & r & Hin & Hok & ->)]; [discriminate|].
    exists r. cbn [best_entry best_score best_exact].
    split; [exact Hin|]. split; [exact Hok|]. split; [reflexivity|].
    intros r' Hin' Hok'.
    destruct (in_combine_r_inv _ _ r' Hlen Hin') as (e' & He').
    apply (Hmax e' r' He' Hok').
  - eexists. split; [reflexivity|]. intros r Hin.
    destruct (in_combine_r_inv _ _ r Hlen Hin) as (e & He).
    apply (pickBest_none _ Hp e r He).
Qed.

End BestMatch.

(** ** What makes a candidate unusable, and what is read of it *)

Section AllOrNothing.
Context `{Platform} {W EE : Type}.
Variable embed : EmbedFn W EE.

(** A result that is not usable is the fixed [disqualified] one. *)
Lemma scoreFields_unusable (requested cached : Params)
    (fuzzy : FuzzyParamsSpec) keys s x (w : W) r w' :
  scoreFields requested cached fuzzy embed keys s x w = (Success r, w') ->
  ok r = false -> r = disqualified.
Proof.
  revert s x w. induction keys as [|key keys IH]; intros s x w.
  - cbn [scoreFields]. unfold succeed. intros Hr. injection Hr as <- _.
    discriminate.
  - cbn [scoreFields].
    destruct (fuzzy !! key) as [[spec | | threshold model] |].
    + destruct (negb _); [|apply IH].
      unfold succeed. intros Hr. injection Hr as <- _. reflexivity.
    + destruct (lessThan _ _); [|apply IH].
      unfold succeed. intros Hr. injection Hr as <- _. reflexivity.
    + unfold all2, bind.
      destruct (embedOrNull embed _ model w) as [[v0 | c0] w1];
        [|discriminate].
      destruct (embedOrNull embed _ model w1) as [[v1 | c1] w2];
        [|discriminate].
      unfold succeed at 1.
      destruct v0 as [v0|], v1 as [v1|];
        try (unfold succeed; intros Hr; injection Hr as <- _; reflexivity).
      destruct (_ <? threshold)%float; [|apply IH].
      unfold succeed. intros Hr. injection Hr as <- _. reflexivity.
    + destruct (inheritedKey _); [apply IH|].
      destruct (negb _); [|apply IH].
      unfold succeed. intros Hr. injection Hr as <- _. reflexivity.
Qed.

(** A field that the pure rules reject makes the result unusable, wherever
    the field stands among the keys. *)
Lemma scoreFields_rejected (requested cached : Params)
    (fuzzy : FuzzyParamsSpec) key keys s x (w : W) r w' :
  In key keys ->
  fieldRejects requested cached fuzzy key = true ->
  scoreFields requested cached fuzzy embed keys s x w = (Success r, w') ->
  ok r = false.
Proof.
  intros Hin Hrej. revert s x w.
  induction keys as [|k keys IH]; intros s x w; [destruct Hin|].
  assert (Hrest : k <> key -> forall s x w,
            scoreFields requested cached fuzzy embed keys s x w
            = (Success r, w') -> ok r = false).
  { intros Hne. destruct Hin as [Heq | Hin]; [contradiction|].
    apply (IH Hin). }
  destruct (decide (k = key)) as [-> | Hne].
  - clear Hrest IH. cbn [scoreFields]. unfold fieldRejects in Hrej.
    cbv zeta in Hrej.
    destruct (fuzzy !! key) as [[spec | | threshold model] |];
      try discriminate Hrej;
      try (apply andb_prop in Hrej as [Hown Hrej];
           apply negb_true_iff in Hown; rewrite Hown);
      rewrite Hrej; unfold succeed;
      intros Hr; injection Hr as <- _; reflexivity.
  - specialize (Hrest Hne). cbn [scoreFields].
    destruct (fuzzy !! k) as [[spec | | threshold model] |].
    + destruct (negb _); [|apply Hrest].
      unfold succeed. intros Hr. injection Hr as <- _. reflexivity.
    + destruct (lessThan _ _); [|apply Hrest].
      unfold succeed. intros Hr. injection Hr as <- _. reflexivity.
    + unfold all2, bind.
      destruct (embedOrNull embed _ model w) as [[v0 | c0] w1];
        [|discriminate].
      destruct (embedOrNull embed _ model w1) as [[v1 | c1] w2];
        [|discriminate].
      unfold succeed at 1.
      destruct v0 as [v0|], v1 as [v1|];
        try (unfold succeed; intros Hr; injection Hr as <- _; reflexivity).
      destruct (_ <? threshold)%float; [|apply Hrest].
      unfold succeed. intros Hr. injection Hr as <- _. reflexivity.
    + destruct (inheritedKey _); [apply Hrest|].
      destruct (negb _); [|apply Hrest].
      unfold succeed. intros Hr. injection Hr as <- _. reflexivity.
Qed.

(** No partial credit: one requested field that fails its test (the rule
    of its own; without one, [Equal.equals], unless the loop passes the
    field over because its name is a member of [Object.prototype]) makes
    the whole candidate unusable, whatever the other fields score and
    wherever the field stands; and every unusable result is
    [{ ok: false, score: 0, exact: false }]. *)
Theorem scoreEntry_all_or_nothing (requested cached : Params)
    (fuzzy : FuzzyParamsSpec) (w w' : W) (r : ScoreResult) :
  scoreEntry requested cached fuzzy embed w = (Success r, w') ->
  (ok r = false -> r = disqualified) /\
  (forall key, In key (objectKeys requested) ->
               fieldRejects requested cached fuzzy key = true ->
               r = disqualified).
Proof.
  intros Hr. split; [eapply scoreFields_unusable, Hr|].
  intros key Hin Hrej. eapply scoreFields_unusable; [exact Hr|].
  eapply scoreFields_rejected; eassumption.
Qed.

(** Only the requested fields of the stored parameters are read. *)
Lemma scoreFields_agree (requested cached cached' : Params)
    (fuzzy : FuzzyParamsSpec) keys s x (w : W) :
  (forall key, In key keys -> getField cached key = getField cached' key) ->
  scoreFields requested cached fuzzy embed keys s x w
  = scoreFields requested cached' fuzzy embed keys s x w.
Proof.
  revert s x w. induction keys as [|key keys IH]; intros s x w Hagree;
    [reflexivity|].
  assert (Hrest : forall s x w,
            scoreFields requested cached fuzzy embed keys s x w
            = scoreFields requested cached' fuzzy embed keys s x w).
  { intros s0 x0 w0. apply IH. intros k Hk. apply Hagree. right. exact Hk. }
  cbn [scoreFields]. rewrite <- (Hagree key (or_introl eq_refl)).
  destruct (fuzzy !! key) as [[spec | | threshold model] |].
  - destruct (negb _); [reflexivity | apply Hrest].
  - destruct (lessThan _ _); [reflexivity | apply Hrest].
  - unfold bind.
    destruct (all2 _ _ w) as [[[[v0|] [v1|]] | c] w1]; try reflexivity.
    destruct (_ <? threshold)%float; [reflexivity | apply Hrest].
  - destruct (inheritedKey key); [apply Hrest|].
    destruct (negb _); [reflexivity | apply Hrest].
Qed.

(** A stored entry is judged on the requested fields alone: two stored
    parameter objects that agree on every requested key score the same, so
    fields the request does not name are ignored. *)
Theorem scoreEntry_requested_fields_only (requested cached cached' : Params)
    (fuzzy : FuzzyParamsSpec) (w : W) :
  (forall key, In key (objectKeys requested) ->
               getField cached key = getField cached' key) ->
  scoreEntry requested cached fuzzy embed w
  = scoreEntry requested cached' fuzzy embed w.
Proof. apply scoreFields_agree. Qed.

End AllOrNothing.

(** ** Lowering a MoreIsBetter request *)

Section Lowering.
Context `{Platform} {W EE : Type}.
Variable embed : EmbedFn W EE.
Variables (requested requested' cached : Params) (fuzzy : FuzzyParamsSpec).
Variables (key : string) (q q' c : float).

Hypothesis rule : fuzzy !! key = Some MoreIsBetter.
Hypothesis req_level : getField requested key = VNum q.
Hypothesis req_level' : getField requested' key = VNum q'.
Hypothesis stored_level : getField cached key = VNum c.
Hypothesis lower : (q' <=? q)%float = true.
Hypothesis same_elsewhere :
  forall k, k <> key -> getField requested' k = getField requested k.

Lemma scoreFields_lower keys s x x' (w w' : W) res :
  scoreFields requested cached fuzzy embed keys s x w = (Success res, w') ->
  ok res = true ->
  exists res',
    scoreFields requested' cached fuzzy embed keys s x' w = (Success res', w')
    /\ ok res' = true /\ score res' = score res.
Proof.
  revert s x x' w. induction keys as [|k keys IH]; intros s x x' w.
  - cbn [scoreFields]. unfold succeed. intros Hr _. injection Hr as <- <-.
    eexists. split; [reflexivity|]. split; reflexivity.
  - cbn [scoreFields]. destruct (decide (k = key)) as [-> | Hne].
    + rewrite rule, req_level, req_level', stored_level. cbn [lessThan].
      destruct (c <? q)%float eqn:Hlt.
      * unfold succeed. intros Hr Hok. injection Hr as <- _. discriminate.
      * assert (Hlt' : (c <? q')%float = false).
        { destruct (c <? q')%float eqn:Hlt'; [|reflexivity].
          rewrite (Binary64Order.ltb_leb_trans _ _ _ Hlt' lower) in Hlt.
          discriminate. }
        rewrite Hlt'. apply IH.
    + rewrite (same_elsewhere k Hne).
      destruct (fuzzy !! k) as [[spec | | threshold model] |].
      * destruct (negb _); [|apply IH].
        unfold succeed. intros Hr Hok. injection Hr as <- _. discriminate.
      * destruct (lessThan _ _); [|apply IH].
        unfold succeed. intros Hr Hok. injection Hr as <- _. discriminate.
      * unfold bind.
        destruct (all2 _ _ w) as [[[[v0|] [v1|]] | c0] w1];
          try (unfold succeed; intros Hr Hok; injection Hr as <- _;
               discriminate);
          try discriminate.
        destruct (_ <? threshold)%float; [|apply IH].
        unfold succeed. intros Hr Hok. injection Hr as <- _. discriminate.
      * destruct (inheritedKey _); [apply IH|].
        destruct (negb _); [|apply IH].
        unfold succeed. intros Hr Hok. injection Hr as <- _. discriminate.
Qed.

End Lowering.

(** Asking for less never loses a match: under a [MoreIsBetter] rule on
    [key], a stored entry that is usable for the requested level [q] is
    usable, with the same score and the same effects, for a request that
    differs only by a level [q' <= q]. *)
Theorem moreIsBetter_lower_request_still_matches `{Platform} {W EE : Type}
    (embed : EmbedFn W EE) (requested requested' cached : Params)
    (fuzzy : FuzzyParamsSpec) (key : string) (q q' c : float)
    (w w' : W) (res : ScoreResult) :
  fuzzy !! key = Some MoreIsBetter ->
  getField requested key = VNum q ->
  getField requested' key = VNum q' ->
  getField cached key = VNum c ->
  (q' <=? q)%float = true ->
  objectKeys requested' = objectKeys requested ->
  (forall k, k <> key -> getField requested' k = getField requested k) ->
  scoreEntry requested cached fuzzy embed w = (Success res, w') ->
  ok res = true ->
  exists res',
    scoreEntry requested' cached fuzzy embed w = (Success res', w') /\
    ok res' = true /\ score res' = score res.
Proof.
  intros Hrule Hq Hq' Hc Hle Hkeys Hsame Hres Hok.
  unfold scoreEntry. rewrite Hkeys.
  eapply (scoreFields_lower embed requested requested' cached fuzzy key q q' c);
    eassumption.
Qed.

Lemma moreIsBetter_lower_request_still_matches_witness :
  exists res',
    scoreEntry [("prompt", VStr "p"); ("level", VNum 1)]
      [("prompt", VStr "p"); ("level", VNum 3)]
      {[ "level" := MoreIsBetter ]} pureEmbed tt = (Success res', tt) /\
    ok res' = true /\ score res' = 2%float.
Proof.
  assert (Hrule : ({[ "level" := MoreIsBetter ]} : FuzzyParamsSpec) !! "level"
                  = Some MoreIsBetter) by reflexivity.
  apply (moreIsBetter_lower_request_still_matches pureEmbed
           [("prompt", VStr "p"); ("level", VNum 2)]
           [("prompt", VStr "p"); ("level", VNum 1)]
           [("prompt", VStr "p"); ("level", VNum 3)]
           {[ "level" := MoreIsBetter ]} "level" 2%float 1%float 3%float
           tt tt {| ok := true; score := 2%float; exact := false |}
           Hrule eq_refl eq_refl eq_refl eq_refl eq_refl).
  - intros k Hk. cbn [getField].
    destruct (String.eqb_spec "level" k) as [<- | _]; [contradiction|].
    reflexivity.
  - reflexivity.
  - reflexivity.
Defined.

(** ** The cache without fuzzy rules *)

Section WithoutRules.
Context `{Platform} {W EE E A : Type}.

(** Without fuzzy rules ([fuzzyParams] left out, or [{}]) the cache is an
    exact one on the fields it scores, which are the requested fields whose
    name is no member of [Object.prototype]: [matchBestEntry] answers the
    first fresh entry whose stored values are [Equal.equals] to the
    requested ones on every such key, as an exact hit whose score is the
    number of these fields; it never calls [embed] and leaves the state as
    it was. *)
Theorem matchBestEntry_without_rules (args : MatchArgs W EE E A) (w : W) :
  default ∅ (args_fuzzyParams args) = ∅ ->
  matchBestEntry args w =
  (Success
     (option_map
        (fun e => {| entry := e;
                     hitMeta := {| kind := exact_hit;
                                   hit_score :=
                                     fieldCount
                                       (scoredKeys ∅
                                          (objectKeys (params args))) |} |})
        (List.find (fun e => exactMatch (params args) (entry_params e))
           (List.filter (fun e => now args - createdAt e <=? ttl args)
              (entries args)))),
   w).
Proof.
  intros Hnone. rewrite matchBestEntry_scoreAll. cbv zeta.
  rewrite Hnone. unfold bind, succeed.
  rewrite scoreAll_no_rules, pickBest_no_rules.
  change (fun e : CacheEntry E A => now args - createdAt e <=? ttl args)
    with (@isFresh E A (now args) (ttl args)).
  destruct (List.find _ _); reflexivity.
Qed.

End WithoutRules.

Lemma matchBestEntry_without_rules_witness :
  matchBestEntry boundaryArgs tt =
  (Success
     (Some {| entry := makeEntry [("x", VNum 1)] "boundary" 0;
              hitMeta := {| kind := exact_hit; hit_score := 1%float |} |}),
   tt).
Proof.
  apply (matchBestEntry_without_rules boundaryArgs tt). reflexivity.
Defined.

(** ** Vectors of different lengths *)

Section CommonPrefix.

(** Only the first [min(a.length, b.length)] components of the two vectors
    count: the components of the longer vector beyond the length of the
    shorter one are ignored. *)
Theorem cosineSimilarity_common_prefix (a b : list float) :
  let len := Nat.min (length a) (length b) in
  cosineSimilarity a b = cosineSimilarity (firstn len a) (firstn len b).
Proof.
  cbv zeta. unfold cosineSimilarity, cosineSums.
  rewrite <- combine_firstn, <- (length_combine a b), firstn_all.
  reflexivity.
Qed.

End CommonPrefix.

(** ** Strings that are not URLs *)

Section UrlFallback.
Context `{Platform} {W EE : Type}.
Variables (requested cached : Params) (fuzzy : FuzzyParamsSpec).
Variable embed : EmbedFn W EE.

(** Strings that the platform does not parse as URLs are compared as they
    are: an [ExactURL] field holding two such strings is accepted exactly
    when the strings are equal, and [excludeHash] has no effect on them. *)
Theorem exactURL_unparseable key keys s x (a b : string)
    (spec : ExactURLSpec) (w : W) :
  fuzzy !! key = Some (ExactURL spec) ->
  getField requested key = VStr a ->
  getField cached key = VStr b ->
  parseURL a = None ->
  parseURL b = None ->
  scoreFields requested cached fuzzy embed (key :: keys) s x w =
  if String.eqb a b
  then scoreFields requested cached fuzzy embed keys (s + 1)%float x w
  else (Success disqualified, w).
Proof.
  intros Hrule Ha Hb Hpa Hpb. cbn [scoreFields].
  rewrite Hrule, Ha, Hb. unfold normalizeUrl. cbn [String_].
  rewrite Hpa, Hpb. cbn [strictEquals].
  destruct (String.eqb a b); reflexivity.
Qed.

End UrlFallback.

Lemma exactURL_unparseable_witness :
  scoreEntry [("url", VStr "not a url#one")] [("url", VStr "not a url#two")]
    {[ "url" := ExactURL {| excludeHash := Some true |} ]} pureEmbed tt
  = (Success disqualified, tt).
Proof.
  assert (Hrule : ({[ "url" := ExactURL {| excludeHash := Some true |} ]}
                     : FuzzyParamsSpec) !! "url"
                  = Some (ExactURL {| excludeHash := Some true |}))
    by reflexivity.
  assert (Ha : parseURL "not a url#one" = None) by reflexivity.
  assert (Hb : parseURL "not a url#two" = None) by reflexivity.
  unfold scoreEntry. cbn [objectKeys map fst].
  rewrite (exactURL_unparseable [("url", VStr "not a url#one")]
             [("url", VStr "not a url#two")] _ pureEmbed "url" [] 0%float true
             "not a url#one" "not a url#two" _ tt Hrule eq_refl eq_refl Ha Hb).
  reflexivity.
Defined.

(** ** The embedding cache *)

Section EmbedFailures.
Context {U E A EE : Type}.
Variable rawEmbed : RawEmbedFn U EE.

(** A failure of the provider is passed on and not memoised: the embedding
    cache stays as it was, and the next call with the same pair invokes the
    provider again. *)
Theorem embed_failure_not_memoised text model (w : World U E A)
    (c : Cause EE) (u1 : U) :
  cacheRef w !! (text, model) = None ->
  rawEmbed text model (outside w) = (Failure c, u1) ->
  let '(r1, w1) := embed rawEmbed text model w in
  let '(r2, w2) := embed rawEmbed text model w1 in
  r1 = Failure c /\
  cacheRef w1 = cacheRef w /\
  rawEmbedCalls w1 = S (rawEmbedCalls w) /\
  rawEmbedCalls w2 = S (S (rawEmbedCalls w)).
Proof.
  intros Hmiss Hraw.
  destruct (embed rawEmbed text model w) as [r1 w1] eqn:H1.
  unfold embed, bind, getCacheRef, updateCacheRef, callOutside, succeed in H1.
  rewrite Hmiss, Hraw in H1. injection H1 as <- <-.
  destruct (embed rawEmbed text model _) as [r2 w2] eqn:H2.
  unfold embed, bind, getCacheRef, updateCacheRef, callOutside, succeed in H2.
  cbn [cacheRef] in H2. rewrite Hmiss in H2.
  cbn [clock mapRef cacheRef outside trace] in H2.
  split; [reflexivity|]. split; [reflexivity|]. split; [count_events|].
  destruct (rawEmbed text model u1) as [[v | c'] u2];
    cbv beta iota in H2; injection H2 as _ <-; count_events.
Qed.

(** The embedding cache only grows, and only at the pair asked for: a call
    of [embed] keeps every memoised vector, changes no other pair, memoises
    the vector it returns, and invokes the provider at most once, and only
    when the pair was not memoised. *)
Theorem embed_cache_grows text model (w : World U E A) :
  let '(r, w') := embed rawEmbed text model w in
  (forall k v, cacheRef w !! k = Some v -> cacheRef w' !! k = Some v) /\
  (forall k, k <> (text, model) -> cacheRef w' !! k = cacheRef w !! k) /\
  (forall v, r = Success v -> cacheRef w' !! (text, model) = Some v) /\
  (rawEmbedCalls w' = rawEmbedCalls w \/
   cacheRef w !! (text, model) = None /\
   rawEmbedCalls w' = S (rawEmbedCalls w)).
Proof.
  unfold embed, bind, getCacheRef, updateCacheRef, callOutside, succeed.
  destruct (cacheRef w !! (text, model)) as [v0|] eqn:Hk.
  - split; [auto|]. split; [auto|]. split; [|auto].
    intros v Hv. injection Hv as <-. exact Hk.
  - destruct (rawEmbed text model (outside w)) as [[v1 | c] u']; cbn [cacheRef].
    + split.
      { intros k v Hv. destruct (decide (k = (text, model))) as [-> | Hne];
          [congruence|]. rewrite lookup_insert_ne by congruence. exact Hv. }
      split.
      { intros k Hne. apply lookup_insert_ne. congruence. }
      split.
      { intros v Hv. injection Hv as <-. apply lookup_insert_eq. }
      right. split; [reflexivity | count_events].
    + split; [auto|]. split; [auto|]. split; [discriminate|].
      right. split; [reflexivity | count_events].
Qed.

End EmbedFailures.

Lemma embed_failure_not_memoised_witness :
  let '(r1, w1) :=
    embed failingRawEmbed "hello" "m1"
      (freshWorld (E:=Empty_set) (A:=unit) 0%nat) in
  let '(r2, w2) := embed failingRawEmbed "hello" "m1" w1 in
  r1 = Failure (Fail "Embedding failed") /\
  cacheRef w1 = cacheRef (freshWorld (E:=Empty_set) (A:=unit) 0%nat) /\
  rawEmbedCalls w1
    = S (rawEmbedCalls (freshWorld (E:=Empty_set) (A:=unit) 0%nat)) /\
  rawEmbedCalls w2
    = S (S (rawEmbedCalls (freshWorld (E:=Empty_set) (A:=unit) 0%nat))).
Proof.
  apply (embed_failure_not_memoised failingRawEmbed "hello" "m1"
           (freshWorld 0%nat) (Fail "Embedding failed") 0%nat
           eq_refl eq_refl).
Defined.

(** ** The entry store *)

Section Store.
Context {U E A : Type}.

Lemma stored_put (name name' : string) (e : CacheEntry E A)
    (w : World U E A) :
  stored name' (snd (put (E':=Empty_set) name e w)) =
  if decide (name' = name) then (stored name w ++ [e])%list
  else stored name' w.
Proof.
  unfold stored, put. cbn [snd mapRef].
  destruct (decide (name' = name)) as [-> | Hne].
  - rewrite lookup_insert_eq. reflexivity.
  - rewrite lookup_insert_ne by congruence. reflexivity.
Qed.

(** The store keeps, per cache name, everything that was put, in the order
    of the puts and without dropping duplicates: after putting [es] under
    [name], [getAll name] answers the entries it answered before followed by
    [es], and [getAll] of any other name answers what it answered before
    (the empty list for a name never used). *)
Theorem store_keeps_insertion_order (name name' : string)
    (es : list (CacheEntry E A)) (w : World U E A) :
  fst (getAll (E':=Empty_set) name' (putAll name es w)) =
  Success (if decide (name' = name) then (stored name w ++ es)%list
           else stored name' w).
Proof.
  unfold getAll. cbn [fst]. fold (stored name' (putAll name es w)). f_equal.
  revert w. induction es as [|e es IH]; intros w.
  - cbn [putAll fold_left]. rewrite app_nil_r.
    destruct (decide (name' = name)) as [-> | _]; reflexivity.
  - unfold putAll in *. cbn [fold_left]. rewrite IH.
    rewrite !stored_put.
    destruct (decide (name' = name)) as [-> | Hne].
    + rewrite decide_True by reflexivity. rewrite <- app_assoc. reflexivity.
    + reflexivity.
Qed.

End Store.

(** ** Capturing and replaying an outcome *)

Section Replay.
Context {W E A : Type}.

(** Capturing an outcome with [Effect.exit] and replaying it with
    [exitToEffect] is the effect itself, and capturing a replayed [Exit]
    gives it back unchanged: what the cache stores is what it later
    returns, failures and defects included. *)
Theorem exit_exitToEffect_roundtrip :
  (forall (m : Effect W E A) (w : W),
      (let* x := exit m in exitToEffect x) w = m w) /\
  (forall (x : Exit E A) (w : W),
      exit (E':=E) (exitToEffect x) w = (Success x, w)).
Proof.
  split.
  - intros m w. unfold bind, exit. destruct (m w) as [r w1].
    apply exitToEffect_run.
  - intros x w. unfold exit. rewrite exitToEffect_run. reflexivity.
Qed.

End Replay.

(** ** One call of the wrapper *)

Section MatchFrame.
Context `{Platform} {W EE E A : Type}.
Variable embed : EmbedFn W EE.
Variable R : W -> W -> Prop.
Hypothesis R_refl : forall w, R w w.
Hypothesis R_trans : forall a b c, R a b -> R b c -> R a c.
Hypothesis embed_R : forall text model w r w',
  embed text model w = (r, w') -> R w w'.

Lemma scoreAll_preserves (requested : Params) (fuzzy : FuzzyParamsSpec)
    (l : list (CacheEntry E A)) (w : W) r w' :
  scoreAll requested fuzzy embed l w = (r, w') -> R w w'.
Proof.
  revert w r w'. induction l as [|e l IH]; intros w r w'.
  - cbn [scoreAll]. unfold succeed. intros Hr. injection Hr as _ <-.
    apply R_refl.
  - cbn [scoreAll]. unfold bind, succeed.
    destruct (scoreEntry requested (entry_params e) fuzzy embed w)
      as [[r1 | c1] w1] eqn:H1;
      apply (scoreEntry_preserves embed R R_refl R_trans embed_R) in H1.
    + destruct (scoreAll requested fuzzy embed l w1) as [[rs | c2] w2] eqn:H2;
        apply IH in H2; intros Hr; injection Hr as _ <-;
        eapply R_trans; eassumption.
    + intros Hr. injection Hr as _ <-. exact H1.
Qed.

(** A relation that every call of [embed] respects holds between the states
    before and after [matchBestEntry]. *)
Lemma matchBestEntry_preserves (args : MatchArgs W EE E A) (w : W) r w' :
  args_embed args = embed ->
  matchBestEntry args w = (r, w') -> R w w'.
Proof.
  intros Hembed. rewrite matchBestEntry_scoreAll. cbv zeta. rewrite Hembed.
  unfold bind, succeed.
  destruct (scoreAll _ _ embed _ w) as [[rs | c] w1] eqn:Hrs;
    apply scoreAll_preserves in Hrs; intros Hr; injection Hr as _ <-;
    exact Hrs.
Qed.

End MatchFrame.

Section Wrapper.
Context `{Platform} {U E A EE : Type}.
Variable rawEmbed : RawEmbedFn U EE.
Variable fn : WrappedFn U E A.

(** A lookup reads and writes neither the clock nor the entry store, and
    does not invoke the wrapped function. *)
Lemma matchBestEntry_service_frame
    (args : MatchArgs (World U E A) EE E A) (w : World U E A) r w' :
  matchBestEntry args w = (r, w') ->
  args_embed args = embed rawEmbed ->
  clock w' = clock w /\ mapRef w' = mapRef w /\ fnCalls w' = fnCalls w.
Proof.
  intros Hm Hembed.
  refine (matchBestEntry_preserves (embed rawEmbed)
            (fun a b => clock b = clock a /\ mapRef b = mapRef a
                        /\ fnCalls b = fnCalls a)
            _ _ _ args w r w' Hembed Hm).
  - auto.
  - intros a b c (? & ? & ?) (? & ? & ?). repeat split; congruence.
  - intros text model w0 r0 w0'. apply embed_frame.
Qed.

(** A match is one of the entries given, and a fresh one. *)
Lemma matchBestEntry_hit_fresh {W' EE'} (args : MatchArgs W' EE' E A)
    (w w' : W') m :
  matchBestEntry args w = (Success (Some m), w') ->
  In (entry m) (entries args) /\
  now args - createdAt (entry m) <= ttl args.
Proof.
  intros Hm. rewrite <- isFresh_spec. apply List.filter_In.
  rewrite matchBestEntry_scoreAll in Hm. cbv zeta in Hm.
  unfold bind, succeed in Hm.
  destruct (scoreAll _ _ _ _ w) as [[rs | c] w1]; [|discriminate].
  injection Hm as Hm _.
  destruct (pickBest _ None) as [b|] eqn:Hp; [|discriminate].
  injection Hm as <-. simpl.
  destruct (pickBest_origin _ _ _ Hp) as [Hb | Hb]; [discriminate|].
  eapply In_map_fst_combine, Hb.
Qed.

(** One call of the wrapper, by the outcome of the lookup. *)
Lemma withCaching_run (config : WithCachingConfig) (p : Params)
    (w : World U E A) :
  invalidTtl config = false ->
  withCaching rawEmbed fn config p w =
  match matchBestEntry
          {| now := clock w;
             ttl := default DEFAULT_TTL_MILLIS (ttlMillis config);
             params := p;
             entries := stored (cacheName config) w;
             args_fuzzyParams := fuzzyParams config;
             args_embed := embed rawEmbed |}
          (logEvent (StoreGetAll (cacheName config)) w) with
  | (Success (Some m), w2) => (outcome (entry m), w2)
  | (Success None, w2) =>
      let '(r, u') := fn p (outside w2) in
      (r, {| clock := clock w2;
             mapRef := <[cacheName config :=
                          (stored (cacheName config) w2
                           ++ [{| entry_params := p; outcome := r;
                                  createdAt := clock w |}])%list]>
                         (mapRef w2);
             cacheRef := cacheRef w2;
             outside := u';
             trace := (trace w2 ++ [FnCall p; StorePut (cacheName config)])%list
          |})
  | (Failure (Fail e), w2) => match e with end
  | (Failure (Die d), w2) => (Failure (Die d), w2)
  end.
Proof.
  intros Hvalid. unfold withCaching. rewrite Hvalid.
  unfold bind at 1. unfold currentEpochMillis at 1.
  unfold bind at 1. unfold getAll at 1.
  unfold bind at 1. unfold widen. fold (stored (cacheName config) w).
  destruct (matchBestEntry _ _) as [[[m|] | [e | d]] w2];
    [apply exitToEffect_run | | destruct e | reflexivity].
  unfold bind, exit, callOutside, put. cbn [outside].
  destruct (fn p (outside w2)) as [r u']. cbn.
  rewrite exitToEffect_run. unfold stored. rewrite <- !app_assoc.
  reflexivity.
Qed.

(** A hit is reported as exact or fuzzy, never as a miss. *)
Lemma matchBestEntry_hit_kind {W' EE'} (args : MatchArgs W' EE' E A)
    (w w' : W') m :
  matchBestEntry args w = (Success (Some m), w') ->
  kind (hitMeta m) <> miss.
Proof.
  intros Hm. rewrite matchBestEntry_scoreAll in Hm. cbv zeta in Hm.
  unfold bind, succeed in Hm.
  destruct (scoreAll _ _ _ _ w) as [[rs | c] w1]; [|discriminate].
  injection Hm as Hm _.
  destruct (pickBest _ None) as [b|]; [|discriminate].
  injection Hm as <-. cbn [hitMeta kind].
  destruct (best_exact b); discriminate.
Qed.

(** One call of the wrapper that reports metadata, by the outcome of the
    lookup. *)
Lemma withCachingMeta_run (config : WithCachingConfig) (p : Params)
    (w : World U E A) :
  invalidTtl config = false ->
  withCachingMeta rawEmbed fn config p w =
  match matchBestEntry
          {| now := clock w;
             ttl := default DEFAULT_TTL_MILLIS (ttlMillis config);
             params := p;
             entries := stored (cacheName config) w;
             args_fuzzyParams := fuzzyParams config;
             args_embed := embed rawEmbed |}
          (logEvent (StoreGetAll (cacheName config)) w) with
  | (Success (Some m), w2) =>
      (match outcome (entry m) with
       | Success a => Success {| meta_value := a; cache := hitMeta m |}
       | Failure c => Failure c
       end, w2)
  | (Success None, w2) =>
      let '(r, u') := fn p (outside w2) in
      (match r with
       | Success a =>
           Success {| meta_value := a;
                      cache := {| kind := miss; hit_score := 0%float |} |}
       | Failure c => Failure c
       end,
       {| clock := clock w2;
          mapRef := <[cacheName config :=
                       (stored (cacheName config) w2
                        ++ [{| entry_params := p; outcome := r;
                               createdAt := clock w |}])%list]>
                      (mapRef w2);
          cacheRef := cacheRef w2;
          outside := u';
          trace := (trace w2 ++ [FnCall p; StorePut (cacheName config)])%list
       |})
  | (Failure (Fail e), w2) => match e with end
  | (Failure (Die d), w2) => (Failure (Die d), w2)
  end.
Proof.
  intros Hvalid. unfold withCachingMeta. rewrite Hvalid.
  unfold bind at 1. unfold currentEpochMillis at 1.
  unfold bind at 1. unfold getAll at 1.
  unfold bind at 1. unfold widen. fold (stored (cacheName config) w).
  destruct (matchBestEntry _ _) as [[[m|] | [e | d]] w2];
    [| | destruct e | reflexivity].
  - unfold bind, succeed. rewrite exitToEffect_run.
    destruct (outcome (entry m)); reflexivity.
  - unfold bind, exit, callOutside, put, succeed. cbn [outside].
    destruct (fn p (outside w2)) as [[a | c] u']; cbn;
      unfold stored; rewrite <- !app_assoc; reflexivity.
Qed.

(** [withCaching] is [withCachingMeta] with the metadata dropped: the same
    value or failure, and the same effects on the store, the embedding
    cache and the outside. *)
Theorem withCaching_is_withCachingMeta_value (config : WithCachingConfig)
    (p : Params) (w : World U E A) :
  withCaching rawEmbed fn config p w
  = mapEffect meta_value (withCachingMeta rawEmbed fn config p) w.
Proof.
  destruct (invalidTtl config) eqn:Hvalid.
  - unfold withCaching, withCachingMeta. rewrite Hvalid. reflexivity.
  - unfold mapEffect, bind.
    rewrite (withCaching_run config p w Hvalid),
            (withCachingMeta_run config p w Hvalid).
    destruct (matchBestEntry _ _) as [[[m|] | [e | d]] w2];
      [| | destruct e | reflexivity].
    + destruct (outcome (entry m)); reflexivity.
    + destruct (fn p (outside w2)) as [[a | c] u']; reflexivity.
Qed.

(** What one call does to the cache.  The clock and the entries under other
    names are left alone.  Either the wrapped function is not invoked and
    the entries under the configured name stay as they were, the result
    being the stored outcome of one of them that is still within the TTL
    (or the defect of a lookup that died); or the function is invoked
    exactly once and exactly one entry is appended: the requested
    parameters, the outcome just returned, the time of the call. *)
Theorem withCaching_effect_on_store (config : WithCachingConfig) (p : Params)
    (w : World U E A) :
  invalidTtl config = false ->
  let name := cacheName config in
  let '(r, w') := withCaching rawEmbed fn config p w in
  clock w' = clock w /\
  (forall name', name' <> name -> stored name' w' = stored name' w) /\
  ((fnCalls w' = fnCalls w /\
    stored name w' = stored name w /\
    ((exists e, In e (stored name w) /\
                clock w - createdAt e
                <= default DEFAULT_TTL_MILLIS (ttlMillis config) /\
                r = outcome e)
     \/ exists d, r = Failure (Die d)))
   \/
   (fnCalls w' = S (fnCalls w) /\
    stored name w' =
    (stored name w ++ [{| entry_params := p; outcome := r;
                          createdAt := clock w |}])%list)).
Proof.
  intros Hvalid. cbv zeta. rewrite (withCaching_run config p w Hvalid).
  destruct (matchBestEntry _ _) as [[[m|] | [e | d]] w2] eqn:Hm;
    [| | destruct e |];
    pose proof (matchBestEntry_service_frame _ _ _ _ Hm eq_refl)
      as (Hclock & Hmap & Hcalls);
    unfold logEvent in Hclock, Hmap; cbn [clock mapRef] in Hclock, Hmap.
  - apply matchBestEntry_hit_fresh in Hm. cbn [entries now ttl] in Hm.
    split; [exact Hclock|]. split; [intros; unfold stored; congruence|].
    left. split; [rewrite Hcalls; count_events|].
    split; [unfold stored; congruence|].
    left. exists (entry m). destruct Hm. auto.
  - destruct (fn p (outside w2)) as [r u']. cbn [clock mapRef].
    split; [exact Hclock|]. split.
    + intros name' Hne. unfold stored. cbn [mapRef].
      rewrite lookup_insert_ne by congruence. congruence.
    + right. split.
      * unfold fnCalls in *. cbn [trace]. rewrite List.filter_app, length_app.
        rewrite Hcalls. unfold logEvent. cbn [trace].
        rewrite List.filter_app, length_app. simpl. lia.
      * unfold stored. cbn [mapRef]. rewrite lookup_insert_eq. cbn [default].
        rewrite Hmap. reflexivity.
  - split; [exact Hclock|]. split; [intros; unfold stored; congruence|].
    left. split; [rewrite Hcalls; count_events|].
    split; [unfold stored; congruence|]. right. eauto.
Qed.

(** The metadata tells what happened: a successful call of the wrapper made
    by [withCachingMeta] reports [miss] with score [0] exactly when it
    invoked the wrapped function; otherwise it reports an exact or fuzzy
    hit and its value is the stored value of an entry under the configured
    name that is still within the TTL. *)
Theorem withCachingMeta_kind (config : WithCachingConfig) (p : Params)
    (w : World U E A) :
  invalidTtl config = false ->
  let '(r, w') := withCachingMeta rawEmbed fn config p w in
  forall m, r = Success m ->
    (kind (cache m) = miss /\ hit_score (cache m) = 0%float /\
     fnCalls w' = S (fnCalls w))
    \/
    (kind (cache m) <> miss /\ fnCalls w' = fnCalls w /\
     exists e, In e (stored (cacheName config) w) /\
               clock w - createdAt e
               <= default DEFAULT_TTL_MILLIS (ttlMillis config) /\
               outcome e = Success (meta_value m)).
Proof.
  intros Hvalid. rewrite (withCachingMeta_run config p w Hvalid).
  destruct (matchBestEntry _ _) as [[[m|] | [e | d]] w2] eqn:Hm;
    [| | destruct e | discriminate];
    pose proof (matchBestEntry_service_frame _ _ _ _ Hm eq_refl)
      as (Hclock & Hmap & Hcalls);
    unfold logEvent in Hclock, Hmap; cbn [clock mapRef] in Hclock, Hmap.
  - pose proof (matchBestEntry_hit_kind _ _ _ _ Hm) as Hkind.
    apply matchBestEntry_hit_fresh in Hm. cbn [entries now ttl] in Hm.
    destruct (outcome (entry m)) as [a | c] eqn:Hout; [|discriminate].
    intros m' Hm'. injection Hm' as <-. right. cbn [cache meta_value].
    split; [exact Hkind|]. split; [rewrite Hcalls; count_events|].
    exists (entry m). destruct Hm. auto.
  - destruct (fn p (outside w2)) as [[a | c] u']; [|discriminate].
    intros m' Hm'. injection Hm' as <-. left. cbn [cache kind hit_score].
    split; [reflexivity|]. split; [reflexivity|].
    unfold fnCalls in *. cbn [trace]. rewrite !List.filter_app, !length_app.
    rewrite Hcalls. unfold logEvent. cbn [trace].
    rewrite List.filter_app, length_app. simpl. lia.
Qed.

End Wrapper.

(** ** A similarity that is not a number *)

Section NanSimilarity.
Context `{Platform} {W EE : Type}.
Variables (requested cached : Params) (fuzzy : FuzzyParamsSpec).
Variable embed : EmbedFn W EE.

(** A similarity that is NaN (as when a vector holds a NaN component or its
    sum of squares overflows) passes every threshold and leaves the [exact]
    flag as it was: the tests [sim < threshold] and [sim < 1] are both
    false. *)
Theorem cosineSimilarity_nan_is_accepted key keys s x threshold model
    (v0 v1 : list float) (w w1 w2 : W) :
  fuzzy !! key = Some (CosineSimilarity threshold model) ->
  embed (String_ (getField requested key)) model w = (Success v0, w1) ->
  embed (String_ (getField cached key)) model w1 = (Success v1, w2) ->
  is_nan (cosineSimilarity v0 v1) = true ->
  scoreFields requested cached fuzzy embed (key :: keys) s x w =
  scoreFields requested cached fuzzy embed keys
    (s + cosineSimilarity v0 v1)%float x w2.
Proof.
  intros Hrule H0 H1 Hnan. cbn [scoreFields]. rewrite Hrule.
  unfold all2, bind, embedOrNull, catchAll, mapEffect, bind, succeed.
  rewrite H0, H1.
  rewrite !(Binary64Order.nan_ltb _ _ Hnan). reflexivity.
Qed.

End NanSimilarity.

Lemma cosineSimilarity_nan_is_accepted_witness :
  scoreEntry [("prompt", VStr "one text")] [("prompt", VStr "another text")]
    {[ "prompt" := CosineSimilarity 0.5%float "test" ]} nanEmbed tt
  = (Success {| ok := true; score := nan; exact := true |}, tt).
Proof.
  assert (Hrule : ({[ "prompt" := CosineSimilarity 0.5%float "test" ]}
                     : FuzzyParamsSpec) !! "prompt"
                  = Some (CosineSimilarity 0.5%float "test")) by reflexivity.
  unfold scoreEntry. cbn [objectKeys map fst].
  rewrite (cosineSimilarity_nan_is_accepted
             [("prompt", VStr "one text")] [("prompt", VStr "another text")]
             _ nanEmbed "prompt" [] 0%float true 0.5%float "test"
             [nan] [nan] tt tt tt Hrule eq_refl eq_refl eq_refl).
  reflexivity.
Defined.

(** ** Expired entries *)

Section Expiry.
Context `{Platform} {U E A EE : Type}.
Variable rawEmbed : RawEmbedFn U EE.
Variable fn : WrappedFn U E A.

(** Entries older than the TTL are as good as absent: when every entry
    under the configured name is older than the TTL (24 hours unless
    [ttlMillis] is given), the call invokes the wrapped function, returns
    its outcome and appends it to the store, whatever the fuzzy rules are;
    no stored entry is scored and no embedding is computed. *)
Theorem withCaching_expired_entries_recompute (config : WithCachingConfig)
    (p : Params) (w : World U E A) (r : Exit E A) (u' : U) :
  invalidTtl config = false ->
  (forall e, In e (stored (cacheName config) w) ->
             default DEFAULT_TTL_MILLIS (ttlMillis config)
             < clock w - createdAt e) ->
  fn p (outside w) = (r, u') ->
  withCaching rawEmbed fn config p w =
  (r, {| clock := clock w;
         mapRef := <[cacheName config :=
                      (stored (cacheName config) w
                       ++ [{| entry_params := p; outcome := r;
                              createdAt := clock w |}])%list]> (mapRef w);
         cacheRef := cacheRef w;
         outside := u';
         trace := (trace w ++ [StoreGetAll (cacheName config); FnCall p;
                               StorePut (cacheName config)])%list |}).
Proof.
  intros Hvalid Hold Hfn. rewrite (withCaching_run rawEmbed fn config p w Hvalid).
  unfold matchBestEntry. cbn [now ttl entries].
  assert (Hnil : List.filter
                   (isFresh (clock w)
                      (default DEFAULT_TTL_MILLIS (ttlMillis config)))
                   (stored (cacheName config) w) = []).
  { destruct (List.filter _ _) as [|e l] eqn:Hf; [reflexivity|].
    assert (He : In e (List.filter
                         (isFresh (clock w)
                            (default DEFAULT_TTL_MILLIS (ttlMillis config)))
                         (stored (cacheName config) w)))
      by (rewrite Hf; left; reflexivity).
    apply List.filter_In in He. destruct He as [He Hfresh].
    apply isFresh_spec in Hfresh. specialize (Hold e He). lia. }
  rewrite Hnil. cbn [length Nat.eqb]. unfold succeed, logEvent.
  cbn [outside clock mapRef cacheRef trace]. rewrite Hfn.
  unfold stored. cbn [mapRef]. rewrite <- !app_assoc. reflexivity.
Qed.

End Expiry.

(** ** The example configurations *)

Section Examples.
Context `{Platform} {W EE : Type}.
Variable embed : EmbedFn W EE.

(** An object read from a field is a property of the parameter object
    itself. *)
Lemma getField_In (o : Params) (key : string) (a : positive) :
  getField o key = VObj a -> In key (objectKeys o).
Proof.
  induction o as [|[k v] o IH]; cbn [getField objectKeys map fst In].
  - destruct (inheritedKey key); discriminate.
  - destruct (String.eqb_spec k key) as [-> | Hne]; [auto|].
    intros Hv. right. apply IH, Hv.
Qed.

(** Under [predictUserInterestsCacheConfig] the field
    [listOfPotentialInterests] has no rule and is compared with
    [Equal.equals]; arrays are equal to themselves only.  A request that
    carries another array object than the stored entry does never matches
    it, whatever the arrays hold. *)
Theorem predictUserInterests_arrays_by_reference (requested cached : Params)
    (a b : positive) (w w' : W) (r : ScoreResult) :
  getField requested "listOfPotentialInterests" = VObj a ->
  getField cached "listOfPotentialInterests" = VObj b ->
  a <> b ->
  scoreEntry requested cached
    (default ∅ (fuzzyParams predictUserInterestsCacheConfig)) embed w
  = (Success r, w') ->
  r = disqualified.
Proof.
  intros Ha Hb Hne Hr.
  eapply scoreFields_unusable; [exact Hr|].
  eapply (scoreFields_rejected embed requested cached _
            "listOfPotentialInterests"); [| |exact Hr].
  - apply (getField_In _ _ a Ha).
  - unfold fieldRejects. cbv zeta.
    assert (Hrule : default ∅ (fuzzyParams predictUserInterestsCacheConfig)
                      !! "listOfPotentialInterests" = None) by reflexivity.
    assert (Hown : inheritedKey "listOfPotentialInterests" = false)
      by reflexivity.
    rewrite Hrule, Hown, Ha, Hb. unfold Equal_equals.
    cbn [strictEquals negb andb]. rewrite orb_false_r.
    apply negb_true_iff, Pos.eqb_neq, Hne.
Qed.

End Examples.

(** ** Rules that need no embedding *)

Section PureRules.
Context `{Platform} {W EE E A : Type}.
Variable embed : EmbedFn W EE.

(** Without a similarity rule scoring calls no provider, cannot fail, and a
    usable result scores one per scored field. *)
Lemma scoreFields_pure (requested cached : Params) (fuzzy : FuzzyParamsSpec)
    keys s x (w : W) :
  noCosine fuzzy ->
  exists r,
    scoreFields requested cached fuzzy embed keys s x w = (Success r, w) /\
    (ok r = true ->
     score r = fold_left (fun s (_ : string) => (s + 1)%float)
                 (scoredKeys fuzzy keys) s).
Proof.
  intros Hpure. revert s x.
  induction keys as [|key keys IH]; intros s x.
  - cbn [scoreFields fold_left]. unfold succeed. eauto.
  - unfold scoredKeys. cbn [scoreFields List.filter].
    destruct (fuzzy !! key) as [[spec | | threshold model] |] eqn:Hk;
      cbn [fold_left].
    + destruct (negb _); [|apply IH].
      unfold succeed. eexists. split; [reflexivity | discriminate].
    + destruct (lessThan _ _); [|apply IH].
      unfold succeed. eexists. split; [reflexivity | discriminate].
    + exfalso. eapply Hpure, Hk.
    + destruct (inheritedKey _); cbn [negb fold_left]; [apply IH|].
      destruct (negb _); [|apply IH].
      unfold succeed. eexists. split; [reflexivity | discriminate].
Qed.

Lemma scoreAll_pure (requested : Params) (fuzzy : FuzzyParamsSpec)
    (l : list (CacheEntry E A)) (w : W) :
  noCosine fuzzy ->
  exists rs,
    scoreAll requested fuzzy embed l w = (Success rs, w) /\
    forall r, In r rs -> ok r = true ->
              score r = fieldCount (scoredKeys fuzzy (objectKeys requested)).
Proof.
  intros Hpure. induction l as [|e l IH].
  - exists []. split; [reflexivity | intros r []].
  - cbn [scoreAll]. unfold bind, succeed.
    destruct (scoreFields_pure requested (entry_params e) fuzzy
                (objectKeys requested) 0%float true w Hpure) as (r & Hr & Hs).
    unfold scoreEntry. rewrite Hr.
    destruct IH as (rs & -> & Hrs).
    exists (r :: rs). split; [reflexivity|].
    intros r' [<- | Hin]; [exact Hs | apply Hrs, Hin].
Qed.

(** When all usable entries score the same, the first usable one is
    picked. *)
Lemma pickBest_ties (scored : list (CacheEntry E A * ScoreResult)) (c : float) :
  (forall e r, In (e, r) scored -> ok r = true -> score r = c) ->
  (forall b, best_score b = c -> pickBest scored (Some b) = Some b) /\
  pickBest scored None =
  option_map (fun er => {| best_entry := fst er; best_score := score (snd er);
                           best_exact := exact (snd er) |})
             (List.find (fun er => ok (snd er)) scored).
Proof.
  induction scored as [|[e r] scored IH]; intros Hc; [split; reflexivity|].
  destruct IH as [IHsome IHnone].
  { intros e' r' Hin. apply (Hc e' r'). right. exact Hin. }
  cbn [pickBest List.find snd fst].
  destruct (ok r) eqn:Hok; cbn [negb replacesBest option_map].
  - pose proof (Hc e r (or_introl eq_refl) Hok) as Hr. split.
    + intros b Hb. unfold gtb. rewrite Hr, Hb, Binary64.ltb_irrefl.
      apply IHsome, Hb.
    + apply IHsome. exact Hr.
  - split; [exact IHsome | exact IHnone].
Qed.

End PureRules.

(** With exact, [ExactURL] and [MoreIsBetter] rules only, all usable
    entries tie at one point per scored field (a requested field with a rule
    of its own, or one without whose name is no member of
    [Object.prototype]), so [matchBestEntry] answers the first usable fresh
    entry in store order, not a closest one; scoring cannot fail, computes
    no embedding and leaves the state as it was. *)
Theorem matchBestEntry_pure_rules_first_usable `{Platform} {W EE E A : Type}
    (args : MatchArgs W EE E A) (w : W) :
  noCosine (default ∅ (args_fuzzyParams args)) ->
  let fresh :=
    List.filter (fun e => now args - createdAt e <=? ttl args) (entries args) in
  exists rs,
    scoreAll (params args) (default ∅ (args_fuzzyParams args))
      (args_embed args) fresh w
    = (Success rs, w) /\
    matchBestEntry args w =
    (Success
       (option_map
          (fun er => {| entry := fst er;
                        hitMeta :=
                          {| kind := if exact (snd er) then exact_hit
                                     else fuzzy_hit;
                             hit_score :=
                               fieldCount
                                 (scoredKeys
                                    (default ∅ (args_fuzzyParams args))
                                    (objectKeys (params args))) |} |})
          (List.find (fun er => ok (snd er)) (combine fresh rs))),
     w).
Proof.
  intros Hpure. cbv zeta.
  change (fun e : CacheEntry E A => now args - createdAt e <=? ttl args)
    with (@isFresh E A (now args) (ttl args)).
  destruct (scoreAll_pure (args_embed args) (params args)
              (default ∅ (args_fuzzyParams args))
              (List.filter (isFresh (now args) (ttl args)) (entries args))
              w Hpure) as (rs & Hrs & Hscore).
  exists rs. split; [exact Hrs|].
  rewrite matchBestEntry_scoreAll. cbv zeta.
  unfold bind, succeed. rewrite Hrs.
  destruct (pickBest_ties (combine (List.filter (isFresh (now args) (ttl args))
                                      (entries args)) rs)
              (fieldCount (scoredKeys (default ∅ (args_fuzzyParams args))
                             (objectKeys (params args))))) as [_ ->].
  { intros e r Hin. apply Hscore. eapply in_combine_r, Hin. }
  destruct (List.find _ _) as [[e r]|] eqn:Hfind; [|reflexivity].
  cbn [option_map toMatchResult fst snd best_entry best_score best_exact].
  apply List.find_some in Hfind. destruct Hfind as [Hin Hok].
  cbn [snd] in Hok.
  rewrite (Hscore r (in_combine_r _ _ _ _ Hin) Hok). reflexivity.
Qed.


(** "should select highest scoring entry": levels 1, 3 and 2 are stored and
    level 1 is requested; all three are usable and tie, and the first one
    is answered. *)
Lemma matchBestEntry_pure_rules_first_usable_witness :
  matchBestEntry levelArgs tt =
  (Success
     (Some {| entry := makeEntry [("level", VNum 1)] "low" 0;
              hitMeta := {| kind := exact_hit; hit_score := 1%float |} |}),
   tt).
Proof.
  assert (Hpure : noCosine (default ∅ (args_fuzzyParams levelArgs))).
  { intros key threshold model Hk. cbn in Hk.
    apply lookup_singleton_Some in Hk as [_ Hk]. discriminate. }
  destruct (matchBestEntry_pure_rules_first_usable levelArgs tt Hpure)
    as (rs & Hrs & Hm).
  vm_compute in Hrs. injection Hrs as <-. exact Hm.
Defined.

(** ** A request without fields *)

Section EmptyRequest.
Context `{Platform} {W EE E A : Type}.

Lemma scoreAll_empty_request (fuzzy : FuzzyParamsSpec) (embed : EmbedFn W EE)
    (l : list (CacheEntry E A)) (w : W) :
  scoreAll [] fuzzy embed l w
  = (Success (map (fun _ => {| ok := true; score := 0%float; exact := true |})
                  l), w).
Proof.
  induction l as [|e l IH]; [reflexivity|].
  cbn [scoreAll map]. unfold bind, succeed. cbn [scoreEntry].
  unfold scoreEntry. cbn [objectKeys map scoreFields]. unfold succeed.
  rewrite IH. reflexivity.
Qed.

(** A request without any field ([{}]) is matched by every entry: whatever
    the rules and the stored parameters, [matchBestEntry] answers the first
    fresh entry, as an exact hit with score [0], and [null] only when no
    entry is fresh. *)
Theorem matchBestEntry_empty_request (args : MatchArgs W EE E A) (w : W) :
  params args = [] ->
  matchBestEntry args w =
  (Success
     (option_map
        (fun e => {| entry := e;
                     hitMeta := {| kind := exact_hit; hit_score := 0%float |} |})
        (head (List.filter (fun e => now args - createdAt e <=? ttl args)
                 (entries args)))),
   w).
Proof.
  intros Hempty. rewrite matchBestEntry_scoreAll. cbv zeta.
  change (fun e : CacheEntry E A => now args - createdAt e <=? ttl args)
    with (@isFresh E A (now args) (ttl args)).
  rewrite Hempty. unfold bind, succeed. rewrite scoreAll_empty_request.
  destruct (List.filter _ _) as [|e l]; [reflexivity|].
  cbn [map combine pickBest ok negb replacesBest score exact head option_map].
  assert (Hties : forall e' r',
            In (e', r')
               (combine l (map (fun _ => {| ok := true; score := 0%float;
                                            exact := true |}) l)) ->
            ok r' = true -> score r' = 0%float).
  { intros e' r' Hin _. apply in_combine_r, in_map_iff in Hin.
    destruct Hin as (? & <- & _). reflexivity. }
  destruct (pickBest_ties _ _ Hties) as [Hsome _].
  rewrite (Hsome {| best_entry := e; best_score := 0%float;
                    best_exact := true |} eq_refl).
  reflexivity.
Qed.

End EmptyRequest.

(** An empty request against the entries of the test "should select highest
    scoring entry". *)
Lemma matchBestEntry_empty_request_witness :
  matchBestEntry
    {| now := 1000; ttl := 5000; params := [];
       entries := entries levelArgs;
       args_fuzzyParams := args_fuzzyParams levelArgs;
       args_embed := pureEmbed |} tt
  = (Success
       (Some {| entry := makeEntry [("level", VNum 1)] "low" 0;
                hitMeta := {| kind := exact_hit; hit_score := 0%float |} |}),
     tt).
Proof.
  apply (matchBestEntry_empty_request
           {| now := 1000; ttl := 5000; params := [];
              entries := entries levelArgs;
              args_fuzzyParams := args_fuzzyParams levelArgs;
              args_embed := pureEmbed |} tt eq_refl).
Defined.

(** ** The properties on inputs of the tests *)

(** "should select highest scoring entry": the answer is usable and no
    stored entry scores more. *)
Lemma matchBestEntry_best_witness :
  exists m,
    matchBestEntry levelArgs tt = (Success (Some m), tt) /\
    hit_score (hitMeta m) = 1%float.
Proof.
  destruct (matchBestEntry_best levelArgs tt tt
              [{| ok := true; score := 1%float; exact := true |};
               {| ok := true; score := 1%float; exact := false |};
               {| ok := true; score := 1%float; exact := false |}] eq_refl)
    as (res & Hres & Hbest).
  destruct res as [m|].
  - exists m. split; [exact Hres|].
    destruct Hbest as (r & Hin & _ & Hmeta & _). rewrite Hmeta.
    cbn [hit_score].
    destruct Hin as [Heq | [Heq | [Heq | []]]];
      injection Heq as _ <-; reflexivity.
  - specialize (Hbest {| ok := true; score := 1%float; exact := true |}
                  (or_introl eq_refl)).
    discriminate.
Defined.

(** A second field that differs disqualifies the entry although the first
    one matches. *)
Lemma scoreEntry_all_or_nothing_witness :
  fst (scoreEntry [("a", VNum 1); ("b", VNum 2)] [("a", VNum 1); ("b", VNum 3)]
         ∅ pureEmbed tt)
  = Success disqualified.
Proof.
  destruct (scoreEntry [("a", VNum 1); ("b", VNum 2)]
              [("a", VNum 1); ("b", VNum 3)] ∅ pureEmbed tt)
    as [[r | c] w'] eqn:Hr; [|vm_compute in Hr; discriminate].
  destruct (scoreEntry_all_or_nothing pureEmbed _ _ _ _ _ _ Hr) as [_ Hrej].
  cbn [fst]. f_equal. apply (Hrej "b"); [right; left; reflexivity|].
  reflexivity.
Defined.

(** A field named like a member of [Object.prototype] and without a rule of
    its own is passed over: it is not compared and adds nothing to the
    score, so the two differing values below are an exact hit with score
    [0]. *)
Example prototype_named_field_is_skipped :
  scoreEntry [("toString", VStr "a")] [("toString", VStr "b")] ∅ pureEmbed tt
  = (Success {| ok := true; score := 0%float; exact := true |}, tt) /\
  fieldRejects [("toString", VStr "a")] [("toString", VStr "b")] ∅ "toString"
  = false /\
  exactMatch [("toString", VStr "a")] [("toString", VStr "b")] = true.
Proof. repeat split; reflexivity. Qed.

(** Two [Date] objects of one time value are equal for [Equal.equals],
    though not for [===]: without a rule the field is an exact match. *)
Example dates_are_compared_by_time :
  strictEquals (VDate 1 1000) (VDate 2 1000) = false /\
  scoreEntry [("at", VDate 1 1000)] [("at", VDate 2 1000)] ∅ pureEmbed tt
  = (Success {| ok := true; score := 1%float; exact := true |}, tt) /\
  scoreEntry [("at", VDate 1 1000)] [("at", VDate 2 2000)] ∅ pureEmbed tt
  = (Success disqualified, tt).
Proof. repeat split; reflexivity. Qed.

(** A stored entry with a field the request does not name. *)
Lemma scoreEntry_requested_fields_only_witness :
  scoreEntry [("x", VNum 1)] [("x", VNum 1)] ∅ pureEmbed tt
  = scoreEntry [("x", VNum 1)] [("x", VNum 1); ("note", VStr "kept")]
      ∅ pureEmbed tt.
Proof.
  apply (scoreEntry_requested_fields_only pureEmbed [("x", VNum 1)]
           [("x", VNum 1)] [("x", VNum 1); ("note", VStr "kept")] ∅ tt).
  intros key [<- | []]. reflexivity.
Defined.

(** The first call of the test "should cache and reuse exact matches". *)
Lemma withCaching_effect_on_store_witness :
  let name := cacheName testConfig in
  let '(r, w') :=
    withCaching (@defaultRawEmbed nat string) doubleX testConfig
      [("x", VNum 5)] (freshWorld 0%nat) in
  clock w' = clock (freshWorld (E:=string) (A:=float) 0%nat) /\
  (forall name', name' <> name ->
                 stored name' w'
                 = stored name' (freshWorld (E:=string) (A:=float) 0%nat)) /\
  ((fnCalls w' = fnCalls (freshWorld (E:=string) (A:=float) 0%nat) /\
    stored name w' = stored name (freshWorld (E:=string) (A:=float) 0%nat) /\
    ((exists e, In e (stored name (freshWorld (E:=string) (A:=float) 0%nat)) /\
                clock (freshWorld (E:=string) (A:=float) 0%nat) - createdAt e
                <= default DEFAULT_TTL_MILLIS (ttlMillis testConfig) /\
                r = outcome e)
     \/ exists d, r = Failure (Die d)))
   \/
   (fnCalls w' = S (fnCalls (freshWorld (E:=string) (A:=float) 0%nat)) /\
    stored name w' =
    (stored name (freshWorld (E:=string) (A:=float) 0%nat)
     ++ [{| entry_params := [("x", VNum 5)]; outcome := r;
            createdAt := clock (freshWorld (E:=string) (A:=float) 0%nat)
         |}])%list)).
Proof.
  apply (withCaching_effect_on_store (@defaultRawEmbed nat string) doubleX
           testConfig [("x", VNum 5)] (freshWorld 0%nat)).
  reflexivity.
Defined.

(** The first call reports a miss. *)
Lemma withCachingMeta_kind_witness :
  let '(r, w') :=
    withCachingMeta (@defaultRawEmbed nat string) doubleX testConfig
      [("x", VNum 5)] (freshWorld 0%nat) in
  forall m, r = Success m ->
    (kind (cache m) = miss /\ hit_score (cache m) = 0%float /\
     fnCalls w' = S (fnCalls (freshWorld (E:=string) (A:=float) 0%nat)))
    \/
    (kind (cache m) <> miss /\
     fnCalls w' = fnCalls (freshWorld (E:=string) (A:=float) 0%nat) /\
     exists e,
       In e (stored (cacheName testConfig)
               (freshWorld (E:=string) (A:=float) 0%nat)) /\
       clock (freshWorld (E:=string) (A:=float) 0%nat) - createdAt e
       <= default DEFAULT_TTL_MILLIS (ttlMillis testConfig) /\
       outcome e = Success (meta_value m)).
Proof.
  apply (withCachingMeta_kind (@defaultRawEmbed nat string) doubleX
           testConfig [("x", VNum 5)] (freshWorld 0%nat)).
  reflexivity.
Defined.

(** "should expire entries after TTL": a TTL of one second, the second call
    1001 ms after the first; the function is invoked again. *)
Lemma withCaching_expired_entries_recompute_witness :
  let '(r, w') :=
    withCaching (@defaultRawEmbed nat string) doubleX shortTtlConfig
      [("x", VNum 5)] (setClock 1001 afterFirstCall) in
  r = Success 10%float /\ fnCalls w' = 2%nat /\
  length (stored "test" w') = 2%nat.
Proof.
  rewrite (withCaching_expired_entries_recompute (@defaultRawEmbed nat string)
             doubleX shortTtlConfig [("x", VNum 5)]
             (setClock 1001 afterFirstCall) (Success 10%float) 2%nat eq_refl).
  - repeat split; reflexivity.
  - intros e Hin. vm_compute in Hin. destruct Hin as [<- | []].
    vm_compute. reflexivity.
  - reflexivity.
Defined.

(** Two requests that differ only in the array object they carry. *)
Lemma predictUserInterests_arrays_by_reference_witness :
  fst (scoreEntry
         [("userProfileBio", VStr "bio"); ("userEmailDomain", VStr "x.org");
          ("listOfPotentialInterests", VObj 1); ("reasoningLevel", VNum 1)]
         [("userProfileBio", VStr "bio"); ("userEmailDomain", VStr "x.org");
          ("listOfPotentialInterests", VObj 2); ("reasoningLevel", VNum 1)]
         (default ∅ (fuzzyParams predictUserInterestsCacheConfig))
         pureEmbed tt)
  = Success disqualified.
Proof.
  destruct (scoreEntry _ _ _ pureEmbed tt) as [[r | c] w'] eqn:Hr;
    [|vm_compute in Hr; discriminate].
  cbn [fst]. f_equal.
  apply (predictUserInterests_arrays_by_reference pureEmbed
           [("userProfileBio", VStr "bio"); ("userEmailDomain", VStr "x.org");
            ("listOfPotentialInterests", VObj 1); ("reasoningLevel", VNum 1)]
           [("userProfileBio", VStr "bio"); ("userEmailDomain", VStr "x.org");
            ("listOfPotentialInterests", VObj 2); ("reasoningLevel", VNum 1)]
           1%positive 2%positive tt w' r eq_refl eq_refl
           ltac:(discriminate) Hr).
Defined.

(** ** Replayed failures under a similarity rule *)

Section CacheInvariant.
Context `{Platform} {U E A EE : Type}.
Variable rawEmbed : RawEmbedFn U EE.
Variable fn : WrappedFn U E A.
Variable P : gmap (string * string) (list float) -> Prop.

Hypothesis provider_P : forall text model u v u' c,
  P c -> rawEmbed text model u = (Success v, u') ->
  P (<[(text, model) := v]> c).




End CacheInvariant.




